(** * Directed-graph algorithms of soniakeys/ed: a shallow embedding

    The Go sources embedded here are [cg_dir.go] (methods of
    [DirectedLabeled]: [Balanced], [Cyclic], [FromList], [InDegree],
    [IsTree], [Tarjan], [TarjanForward], [TarjanCondensation],
    [Topological], [TopologicalKahn]) and [adj_RO.go] (methods of
    [AdjacencyList]: [ArcSize], [BoundsOk], [BreadthFirstTraverse],
    [Copy], [HasArc], [AnyLoop], [AnyParallelMap], [IsolatedNodes],
    [ParallelArcs], [Permute], [ShuffleArcLists]).

    Conventions.
    - A node identifier [NI] is a Go integer, embedded as [Z].
    - A slice is a [list]; [nil] and the empty slice are both [[]].
      The two methods that write into the arc lists of their receiver,
      [Permute] and [ShuffleArcLists], are embedded over a memory of
      cells instead, in which two slices may share cells.
    - Indexing a slice out of range, and a negative bit index of a
      [big.Int], panic in Go; a run of the code is a value of [Run],
      whose [Panic] constructor records that.
    - A [big.Int] used as a bit set is a [Z] read with [Z.testbit].
    - Recursive closures and unbounded [for] loops take a [nat] of fuel;
      [Fuel] is the result of a run that exhausted it.  Every theorem
      about a result exhibits the fuel the entry point supplies. *)

From stdpp Require Import base numbers relations list sets gmap.

Open Scope Z_scope.

(** ** Results of running Go code *)

Inductive Run (A : Type) : Type :=
| Ret (a : A)
| Panic
| Fuel.
Arguments Ret {A} a.
Arguments Panic {A}.
Arguments Fuel {A}.

Definition bindR {A B} (m : Run A) (k : A → Run B) : Run B :=
  match m with
  | Ret a => k a
  | Panic => Panic
  | Fuel => Fuel
  end.

Notation "'do' x <- m ; k" := (bindR m (λ x, k))
  (at level 10, x name, m at level 100, k at level 200, only parsing).
Notation "'do' ' p <- m ; k" := (bindR m (λ p, k))
  (at level 10, p pattern, m at level 100, k at level 200, only parsing).

(** A loop body either falls through to the next iteration with a new
    state or leaves the enclosing function with a value. *)
Inductive Flow (S R : Type) : Type :=
| Next (s : S)
| Return (r : R).
Arguments Next {S R} s.
Arguments Return {S R} r.

(** ** Graph store *)

(** [NI] (node int) and [LI] (label int) are Go integer types. *)
Abbreviation NI := Z (only parsing).
Abbreviation LI := Z (only parsing).

(** [Half] is the half arc of a labeled adjacency list. *)
Record Half := mkHalf { To : NI; Label : LI }.

Abbreviation LabeledAdjacencyList := (list (list Half)) (only parsing).
Abbreviation AdjacencyList := (list (list NI)) (only parsing).

(** [len(s)] *)
Definition len {A} (s : list A) : Z := Z.of_nat (length s).

(** [s[n]]: panics out of range. *)
Definition at_ {A} (s : list A) (n : Z) : Run A :=
  if n <? 0 then Panic
  else match s !! Z.to_nat n with
       | Some a => Ret a
       | None => Panic
       end.

(** [s[n] = v]: panics out of range. *)
Definition set_at {A} (s : list A) (n : Z) (v : A) : Run (list A) :=
  if (0 <=? n) && (n <? len s) then Ret (<[Z.to_nat n := v]> s) else Panic.

(** [big.Int]: [b.Bit(n)] and [b.SetBit(b, n, v)] panic on a negative [n]. *)
Definition Bit (b : Z) (n : Z) : Run bool :=
  if n <? 0 then Panic else Ret (Z.testbit b n).

Definition SetBit (b : Z) (n : Z) (v : bool) : Run Z :=
  if n <? 0 then Panic
  else Ret (if v then Z.setbit b n else Z.clearbit b n).

(** [BoundsOk]: every arc target lies in [0, len g). *)
Definition BoundsOk (g : LabeledAdjacencyList) : Prop :=
  ∀ tos h, tos ∈ g → h ∈ tos → 0 ≤ To h < len g.

Definition BoundsOkb (g : LabeledAdjacencyList) : bool :=
  forallb (forallb (λ h, (0 <=? To h) && (To h <? len g))) g.

(** ** Forest extraction: [FromList] *)

Record PathEnd := mkPathEnd { From : NI; Len : Z }.

Record FromList_t := mkFromList {
  Paths : list PathEnd;
  Leaves : Z;
  MaxLen : Z
}.

Module ForestExtraction.

(** [for _, to := range to { ... }] of [FromList], at source node [fr]. *)
Fixpoint scan_arcs (fr : NI) (tos : list Half) (paths : list PathEnd)
  : Run (Flow (list PathEnd) NI) :=
  match tos with
  | [] => Ret (Next paths)
  | to :: tos' =>
      do p <- at_ paths (To to);
      if 0 <=? From p then Ret (Return (To to))
      else
        do paths' <- set_at paths (To to) (mkPathEnd fr (Len p));
        scan_arcs fr tos' paths'
  end.

(** [for fr, to := range g.LabeledAdjacencyList { ... }], from index [fr]. *)
Fixpoint scan_nodes (fr : NI) (g : list (list Half)) (paths : list PathEnd)
  : Run (Flow (list PathEnd) NI) :=
  match g with
  | [] => Ret (Next paths)
  | tos :: g' =>
      do r <- scan_arcs fr tos paths;
      match r with
      | Next paths' => scan_nodes (fr + 1) g' paths'
      | Return v => Ret (Return v)
      end
  end.

(** [FromList]: the result pairs the forest ([None] is Go's [nil]) with
    the conflicting node, or -1. *)
Definition FromList (g : LabeledAdjacencyList) : Run (option FromList_t * NI) :=
  let paths := replicate (length g) (mkPathEnd (-1) 0) in
  do r <- scan_nodes 0 g paths;
  match r with
  | Return v => Ret (None, v)
  | Next paths' => Ret (Some (mkFromList paths' 0 0), -1)
  end.

End ForestExtraction.

(** ** Arcs, paths and cycles of a graph *)

(** The arcs leaving the nodes of [g], numbered from [fr], in scan
    order: by source node, then by position in the arc list. *)
Fixpoint arcs_from (fr : NI) (g : list (list Half)) : list (NI * NI) :=
  match g with
  | [] => []
  | tos :: g' => map (λ h, (fr, To h)) tos ++ arcs_from (fr + 1) g'
  end.

Definition arcs (g : LabeledAdjacencyList) : list (NI * NI) := arcs_from 0 g.

(** [arc g u v]: [g] has an arc from [u] to [v]. *)
Definition arc (g : LabeledAdjacencyList) (u v : NI) : Prop :=
  0 ≤ u ∧ ∃ tos h, g !! Z.to_nat u = Some tos ∧ h ∈ tos ∧ To h = v.

(** Number of arcs into [v]. *)
Definition indegree (g : LabeledAdjacencyList) (v : NI) : nat :=
  count_occ Z.eq_dec (arcs g).*2 v.

(** ** Ordering engine: [Topological] *)

Module Ordering.

(** The variables captured by the closure [df].  [cycle] is a slice of
    [ordering]'s backing array: [cycle = Some x] stands for
    [ordering[x:]], [None] for [nil]. *)
Record state := mkState {
  ordering : list NI;
  i : Z;
  temp : Z;
  perm : Z;
  cycleFound : bool;
  cycleStart : NI;
  cycle : option Z
}.

(** [len(cycle)] *)
Definition len_cycle (s : state) : Z :=
  match cycle s with
  | None => 0
  | Some x => len (ordering s) - x
  end.

(** The value of the slice [cycle]. *)
Definition cycle_val (s : state) : list NI :=
  match cycle s with
  | None => []
  | Some x => drop (Z.to_nat x) (ordering s)
  end.

(** [for _, nb := range g.LabeledAdjacencyList[n] { df(nb.To); ... }];
    [Return] is the [return] inside [if cycleFound]. *)
Fixpoint df_arcs (df : NI → state → Run state) (n : NI) (tos : list Half)
    (s : state) : Run (Flow state state) :=
  match tos with
  | [] => Ret (Next s)
  | nb :: tos' =>
      do s1 <- df (To nb) s;
      if cycleFound s1 then
        if 0 <=? cycleStart s1 then
          let x := len (ordering s1) - 1 - len_cycle s1 in
          do ord <- set_at (ordering s1) x n;
          Ret (Return (mkState ord (i s1) (temp s1) (perm s1) true
                         (if n =? cycleStart s1 then -1 else cycleStart s1)
                         (Some x)))
        else Ret (Return s1)
      else df_arcs df n tos' s1
  end.

Fixpoint df (fuel : nat) (g : LabeledAdjacencyList) (n : NI) (s : state)
  : Run state :=
  match fuel with
  | O => Fuel
  | S fuel' =>
      do t <- Bit (temp s) n;
      if t then
        Ret (mkState (ordering s) (i s) (temp s) (perm s) true n (cycle s))
      else
        do p <- Bit (perm s) n;
        if p then Ret s
        else
          do temp1 <- SetBit (temp s) n true;
          do tos <- at_ g n;
          do r <- df_arcs (df fuel' g) n tos
                    (mkState (ordering s) (i s) temp1 (perm s)
                       (cycleFound s) (cycleStart s) (cycle s));
          match r with
          | Return s' => Ret s'
          | Next s' =>
              do temp2 <- SetBit (temp s') n false;
              do perm2 <- SetBit (perm s') n true;
              let i2 := i s' - 1 in
              do ord <- set_at (ordering s') i2 n;
              Ret (mkState ord i2 temp2 perm2
                     (cycleFound s') (cycleStart s') (cycle s'))
          end
  end.

(** [for n := range g.LabeledAdjacencyList { ... }], over the node
    numbers [ns]; [Return] carries the pair returned on a cycle. *)
Fixpoint roots (fuel : nat) (g : LabeledAdjacencyList) (ns : list NI)
    (s : state) : Run (Flow state (list NI * list NI)) :=
  match ns with
  | [] => Ret (Next s)
  | n :: ns' =>
      do p <- Bit (perm s) n;
      if p then roots fuel g ns' s
      else
        do s' <- df fuel g n s;
        if cycleFound s' then Ret (Return ([], cycle_val s'))
        else roots fuel g ns' s'
  end.

(** The node numbers [0 .. n-1] a [range] over a slice of length [n]
    runs through. *)
Definition node_range (n : nat) : list NI := Z.of_nat <$> seq 0 n.

Definition init (g : LabeledAdjacencyList) : state :=
  mkState (replicate (length g) 0) (len g) 0 0 false 0 None.

(** [Topological]: the pair [(ordering, cycle)].  The closure [df] nests
    at most one call per node in progress and one more that returns at
    once, so [S (length g)] levels are supplied. *)
Definition Topological (g : LabeledAdjacencyList) : Run (list NI * list NI) :=
  do r <- roots (S (length g)) g (node_range (length g)) (init g);
  match r with
  | Return res => Ret res
  | Next s => Ret (ordering s, [])
  end.

(** [TopologicalKahn] *)

(** [S[len(S)-1]] and [S[:len(S)-1]] of a non-empty slice. *)
Fixpoint pop {A} (s : list A) : option (list A * A) :=
  match s with
  | [] => None
  | a :: s' =>
      match pop s' with
      | None => Some ([], a)
      | Some (r, z) => Some (a :: r, z)
      end
  end.

(** [for n, fr := range tr.AdjacencyList { ... }], from index [n]. *)
Fixpoint kahn_init (n : NI) (tr : AdjacencyList) (S_ : list NI) (rem : list Z)
  : Run (list NI * list Z) :=
  match tr with
  | [] => Ret (S_, rem)
  | fr :: tr' =>
      if len fr =? 0 then kahn_init (n + 1) tr' (S_ ++ [n]) rem
      else
        do rem' <- set_at rem n (len fr);
        kahn_init (n + 1) tr' S_ rem'
  end.

(** [for _, m := range g.LabeledAdjacencyList[n] { ... }] *)
Fixpoint kahn_arcs (tos : list Half) (S_ : list NI) (rem : list Z)
  : Run (list NI * list Z) :=
  match tos with
  | [] => Ret (S_, rem)
  | m :: tos' =>
      do r <- at_ rem (To m);
      if 0 <? r then
        do rem' <- set_at rem (To m) (r - 1);
        do r' <- at_ rem' (To m);
        if r' =? 0 then kahn_arcs tos' (S_ ++ [To m]) rem'
        else kahn_arcs tos' S_ rem'
      else kahn_arcs tos' S_ rem
  end.

(** [for len(S) > 0 { ... }] *)
Fixpoint kahn_loop (fuel : nat) (g : LabeledAdjacencyList)
    (L S_ : list NI) (rem : list Z) : Run (list NI * list Z) :=
  match fuel with
  | O => Fuel
  | S fuel' =>
      match pop S_ with
      | None => Ret (L, rem)
      | Some (S1, n) =>
          do tos <- at_ g n;
          do '(S2, rem') <- kahn_arcs tos S1 rem;
          kahn_loop fuel' g (L ++ [n]) S2 rem'
      end
  end.

(** [for _, nb := range g.LabeledAdjacencyList[c] { if rem[nb.To] > 0
    { ...; break } }]: whether the [append] is reached. *)
Fixpoint kahn_live (tos : list Half) (rem : list Z) : Run bool :=
  match tos with
  | [] => Ret false
  | nb :: tos' =>
      do r <- at_ rem (To nb);
      if 0 <? r then Ret true else kahn_live tos' rem
  end.

(** [for c, in := range rem { ... }], from index [c] over the rest
    [ins] of [rem]. *)
Fixpoint kahn_cycle (g : LabeledAdjacencyList) (c : NI) (ins : list Z)
    (rem : list Z) (cycle : list NI) : Run (list NI) :=
  match ins with
  | [] => Ret cycle
  | in_ :: ins' =>
      if 0 <? in_ then
        do tos <- at_ g c;
        do b <- kahn_live tos rem;
        kahn_cycle g (c + 1) ins' rem (if b then cycle ++ [c] else cycle)
      else kahn_cycle g (c + 1) ins' rem cycle
  end.

(** The first two loops of [TopologicalKahn]: the list [L] and the
    counters [rem] when the frontier [S] is exhausted.  Every node
    enters [S] at most once, so [S (length g)] iterations are supplied. *)
Definition kahn_run (g : LabeledAdjacencyList) (tr : AdjacencyList)
  : Run (list NI * list Z) :=
  do '(S0, rem) <- kahn_init 0 tr [] (replicate (length g) 0);
  kahn_loop (S (length g)) g [] S0 rem.

Definition TopologicalKahn (g : LabeledAdjacencyList) (tr : AdjacencyList)
  : Run (list NI * list NI) :=
  do '(L, rem) <- kahn_run g tr;
  do cycle <- kahn_cycle g 0 rem rem [];
  if 0 <? len cycle then Ret ([], cycle) else Ret (L, []).

End Ordering.

(** Unlabeled arc lists as labeled ones, for writing examples. *)
Definition unlabeled (g : AdjacencyList) : LabeledAdjacencyList :=
  map (map (λ t, mkHalf t 0)) g.

(** ** SCC engine: [Tarjan], [TarjanForward], [TarjanCondensation] *)

Module SCC.

Section Tarjan.

(** The callback [emit] is a Go closure: it is given by a transition on
    the state [E] it captures, and returns whether to continue. *)
Context {E : Type}.
Variable emit : list NI → E → bool * E.

(** The variables captured by the closure [sc], the state of [emit],
    and the invocations of [emit] made so far, each with its argument
    and its result. *)
Record state := mkState {
  indexed : Z;
  stacked : Z;
  index : list Z;
  lowlink : list Z;
  x : Z;
  S_ : list NI;
  env : E;
  calls : list (list NI * bool)
}.

Definition with_lowlink (st : state) (l : list Z) : state :=
  mkState (indexed st) (stacked st) (index st) l (x st) (S_ st)
          (env st) (calls st).

(** [lowlink[n] = v] when [v < lowlink[n]]. *)
Definition lower (st : state) (n : NI) (v : Z) : Run state :=
  do ln <- at_ (lowlink st) n;
  if v <? ln then
    do l <- set_at (lowlink st) n v;
    Ret (with_lowlink st l)
  else Ret st.

(** The inner [for { ... }] of [sc]: pops [S] down to [n], walking the
    stack [top] from its last element (the list [top] is [S] reversed).
    Returns what is left of the reversed stack, [stacked] and [c]. *)
Fixpoint pop_to (n : NI) (top : list NI) (stk : Z) (c : list NI)
  : Run (list NI * Z * list NI) :=
  match top with
  | [] => Panic
  | w :: rest =>
      do stk' <- SetBit stk w false;
      let c' := c ++ [w] in
      if w =? n then Ret (rest, stk', c')
      else pop_to n rest stk' c'
  end.

(** [for _, nb := range g.LabeledAdjacencyList[n] { ... }] of [sc];
    [Return] is [return false]. *)
Fixpoint sc_arcs (sc : NI → state → Run (bool * state)) (n : NI)
    (tos : list Half) (st : state) : Run (Flow state state) :=
  match tos with
  | [] => Ret (Next st)
  | nb :: tos' =>
      do ib <- Bit (indexed st) (To nb);
      if negb ib then
        do '(ok, st1) <- sc (To nb) st;
        if negb ok then Ret (Return st1)
        else
          do lnb <- at_ (lowlink st1) (To nb);
          do st2 <- lower st1 n lnb;
          sc_arcs sc n tos' st2
      else
        do sb <- Bit (stacked st) (To nb);
        if sb then
          do inb <- at_ (index st) (To nb);
          do st2 <- lower st n inb;
          sc_arcs sc n tos' st2
        else sc_arcs sc n tos' st
  end.

Fixpoint sc (fuel : nat) (g : LabeledAdjacencyList) (n : NI) (st : state)
  : Run (bool * state) :=
  match fuel with
  | O => Fuel
  | S fuel' =>
      do index1 <- set_at (index st) n (x st);
      do indexed1 <- SetBit (indexed st) n true;
      do lowlink1 <- set_at (lowlink st) n (x st);
      do stacked1 <- SetBit (stacked st) n true;
      do tos <- at_ g n;
      do r <- sc_arcs (sc fuel' g) n tos
                (mkState indexed1 stacked1 index1 lowlink1 (x st + 1)
                   (S_ st ++ [n]) (env st) (calls st));
      match r with
      | Return st' => Ret (false, st')
      | Next st' =>
          do ln <- at_ (lowlink st') n;
          do ix <- at_ (index st') n;
          if ln =? ix then
            do '(rest, stk, c) <- pop_to n (rev (S_ st')) (stacked st') [];
            let '(ok, e) := emit c (env st') in
            Ret (ok, mkState (indexed st') stk (index st') (lowlink st')
                       (x st') (rev rest) e (calls st' ++ [(c, ok)]))
          else Ret (true, st')
      end
  end.

(** [for n := range g.LabeledAdjacencyList { ... }] of [Tarjan]. *)
Fixpoint tarjan_roots (fuel : nat) (g : LabeledAdjacencyList) (ns : list NI)
    (st : state) : Run state :=
  match ns with
  | [] => Ret st
  | n :: ns' =>
      do ib <- Bit (indexed st) n;
      if ib then tarjan_roots fuel g ns' st
      else
        do '(ok, st') <- sc fuel g n st;
        if ok then tarjan_roots fuel g ns' st' else Ret st'
  end.

Definition init (g : LabeledAdjacencyList) (e : E) : state :=
  mkState 0 0 (replicate (length g) 0) (replicate (length g) 0) 0 [] e [].

(** [Tarjan] returns nothing; what it does is the sequence of calls of
    [emit] and the state it leaves [emit] in.  [sc] nests one call per
    node on the current search path, so [length g] levels are supplied. *)
Definition Tarjan (g : LabeledAdjacencyList) (e : E)
  : Run (E * list (list NI * bool)) :=
  do st <- tarjan_roots (length g) g (Ordering.node_range (length g))
             (init g e);
  Ret (env st, calls st).

End Tarjan.

(** [for i, ci := range r { scc[last-i] = ci }] from index [i]. *)
Fixpoint reverse_into (last i : Z) (r : list (list NI)) (scc : list (list NI))
  : Run (list (list NI)) :=
  match r with
  | [] => Ret scc
  | ci :: r' =>
      do scc' <- set_at scc (last - i) ci;
      reverse_into last (i + 1) r' scc'
  end.

Definition TarjanForward (g : LabeledAdjacencyList) : Run (list (list NI)) :=
  do '(r, _) <- Tarjan (λ c r, (true, r ++ [c])) g [];
  reverse_into (len r - 1) 0 r (replicate (length r) []).

(** [for _, n := range c { cond[n] = NI(cn) }] *)
Fixpoint cond_mark (cn : NI) (c : list NI) (cond : list NI) : Run (list NI) :=
  match c with
  | [] => Ret cond
  | n :: c' =>
      do cond' <- set_at cond n cn;
      cond_mark cn c' cond'
  end.

(** [for _, to := range g.LabeledAdjacencyList[n] { ... }] *)
Fixpoint cond_arcs (cond : list NI) (arcs_n : list Half) (m : Z) (tos : list NI)
  : Run (Z * list NI) :=
  match arcs_n with
  | [] => Ret (m, tos)
  | to :: arcs' =>
      do ct <- at_ cond (To to);
      do b <- Bit m ct;
      if negb b then
        do m' <- SetBit m ct true;
        cond_arcs cond arcs' m' (tos ++ [ct])
      else cond_arcs cond arcs' m tos
  end.

(** [for _, n := range c { for _, to := range ... }] *)
Fixpoint cond_members (g : LabeledAdjacencyList) (cond : list NI)
    (c : list NI) (m : Z) (tos : list NI) : Run (Z * list NI) :=
  match c with
  | [] => Ret (m, tos)
  | n :: c' =>
      do arcs_n <- at_ g n;
      do '(m', tos') <- cond_arcs cond arcs_n m tos;
      cond_members g cond c' m' tos'
  end.

(** [for cn := len(scc) - 1; cn >= 0; cn-- { ... }], with [k = cn + 1]. *)
Fixpoint cond_loop (k : nat) (g : LabeledAdjacencyList)
    (scc : list (list NI)) (cd : AdjacencyList) (cond : list NI)
  : Run AdjacencyList :=
  match k with
  | O => Ret cd
  | S k' =>
      let cn := Z.of_nat k' in
      do c <- at_ scc cn;
      do cond' <- cond_mark cn c cond;
      do m <- SetBit 0 cn true;
      do '(_, tos) <- cond_members g cond' c m [];
      do cd' <- set_at cd cn tos;
      cond_loop k' g scc cd' cond'
  end.

Definition TarjanCondensation (g : LabeledAdjacencyList)
  : Run (list (list NI) * AdjacencyList) :=
  do scc <- TarjanForward g;
  do cd <- cond_loop (length scc) g scc
             (replicate (length scc) []) (replicate (length g) 0);
  Ret (scc, cd).

End SCC.

(** ** Traversal engine: [BreadthFirstTraverse] *)

Module Traversal.

(** [bits.Bits] of package [github.com/soniakeys/bits] is not part of
    these sources: [bits.New(n)] is taken as [n] cleared bits, and [Bit]
    and [SetBit] as panicking outside [0 .. n-1], like a slice access.
    The callback [visit] is observed through the sequence [visits] of
    its arguments. *)

(** [for _, nb := range g[n] { ... }] *)
Fixpoint bfs_arcs (tos : list NI) (v : list bool) (visits next : list NI)
  : Run (list bool * list NI * list NI) :=
  match tos with
  | [] => Ret (v, visits, next)
  | nb :: tos' =>
      do b <- at_ v nb;
      if negb b then
        do v' <- set_at v nb true;
        bfs_arcs tos' v' (visits ++ [nb]) (next ++ [nb])
      else bfs_arcs tos' v visits next
  end.

(** [for _, n := range frontier { ... }] *)
Fixpoint bfs_frontier (g : AdjacencyList) (frontier : list NI)
    (v : list bool) (visits next : list NI)
  : Run (list bool * list NI * list NI) :=
  match frontier with
  | [] => Ret (v, visits, next)
  | n :: frontier' =>
      do tos <- at_ g n;
      do '(v', visits', next') <- bfs_arcs tos v visits next;
      bfs_frontier g frontier' v' visits' next'
  end.

(** [for frontier := []NI{start}; len(frontier) > 0; { ... }].
    [frontier, next = next, frontier[:0]] exchanges two buffers: [next]
    restarts empty on the array [frontier] has just left, which is not
    read again before the following exchange. *)
Fixpoint bfs_loop (fuel : nat) (g : AdjacencyList) (frontier : list NI)
    (v : list bool) (visits next : list NI) : Run (list NI) :=
  match fuel with
  | O => Fuel
  | S fuel' =>
      if 0 <? len frontier then
        do '(v', visits', next') <- bfs_frontier g frontier v visits next;
        bfs_loop fuel' g next' v' visits' []
      else Ret visits
  end.

(** [BreadthFirstTraverse]: the arguments of the calls of [visit], in
    order.  Every frontier but the last holds a node not seen before,
    so [S (length g)] iterations are supplied. *)
Definition BreadthFirstTraverse (g : AdjacencyList) (start : NI)
  : Run (list NI) :=
  do v <- set_at (replicate (length g) false) start true;
  bfs_loop (S (length g)) g [start] v [start] [].

End Traversal.

(** ** Read-only methods of [AdjacencyList] ([adj_RO.go]) *)

Module ReadOnly.

(** [ArcSize]: [m += len(to)] over the arc lists.  The sum of the
    lengths of slices held in memory stays below the range of [int]. *)
Definition ArcSize (g : AdjacencyList) : Z :=
  foldl (λ m to, m + len to) 0 g.

(** [for _, to := range to { if to < 0 || to >= NI(len(g)) {...} }] of
    [BoundsOk]; [Return] carries the offending target. *)
Fixpoint bounds_arcs (n : Z) (tos : list NI) : option NI :=
  match tos with
  | [] => None
  | to :: tos' =>
      if (to <? 0) || (n <=? to) then Some to else bounds_arcs n tos'
  end.

(** [for fr, to := range g { ... }] of [BoundsOk], from index [fr]. *)
Fixpoint bounds_nodes (n : Z) (fr : NI) (g : list (list NI)) : option (NI * NI) :=
  match g with
  | [] => None
  | tos :: g' =>
      match bounds_arcs n tos with
      | Some to => Some (fr, to)
      | None => bounds_nodes n (fr + 1) g'
      end
  end.

(** [BoundsOk]: [(ok, fr, to)].  The last [return true, -1, to] reads
    the result variable [to], which still holds its zero value. *)
Definition BoundsOk (g : AdjacencyList) : bool * NI * NI :=
  match bounds_nodes (len g) 0 g with
  | Some (fr, to) => (false, fr, to)
  | None => (true, -1, 0)
  end.

(** [for n, to := range g { c[n] = append([]NI{}, to...); ma += len(to) }],
    from index [n]. *)
Fixpoint copy_loop (n : NI) (g : list (list NI)) (c : AdjacencyList) (ma : Z)
  : Run (AdjacencyList * Z) :=
  match g with
  | [] => Ret (c, ma)
  | to :: g' =>
      do c' <- set_at c n ([] ++ to);
      copy_loop (n + 1) g' c' (ma + len to)
  end.

Definition Copy (g : AdjacencyList) : Run (AdjacencyList * Z) :=
  copy_loop 0 g (replicate (length g) []) 0.

(** [for x, h := range g[fr] { if h == to { return true, x } }] of
    [HasArc], from index [x]. *)
Fixpoint has_arc_loop (x : Z) (tos : list NI) (to : NI) : bool * Z :=
  match tos with
  | [] => (false, -1)
  | h :: tos' => if h =? to then (true, x) else has_arc_loop (x + 1) tos' to
  end.

Definition HasArc (g : AdjacencyList) (fr to : NI) : Run (bool * Z) :=
  do tos <- at_ g fr;
  Ret (has_arc_loop 0 tos to).

(** [for _, to := range to { if NI(fr) == to { return true, to } }] *)
Fixpoint loop_arcs (fr : NI) (tos : list NI) : option NI :=
  match tos with
  | [] => None
  | to :: tos' => if fr =? to then Some to else loop_arcs fr tos'
  end.

Fixpoint loop_nodes (fr : NI) (g : list (list NI)) : bool * NI :=
  match g with
  | [] => (false, -1)
  | tos :: g' =>
      match loop_arcs fr tos with
      | Some to => (true, to)
      | None => loop_nodes (fr + 1) g'
      end
  end.

Definition AnyLoop (g : AdjacencyList) : bool * NI := loop_nodes 0 g.

(** [for _, to := range to { if _, ok := m[to]; ok {...}; m[to] = struct{}{} }]
    of [AnyParallelMap]; the Go map used as a set is a [gset]. *)
Fixpoint parallel_arcs (tos : list NI) (m : gset Z) : option NI :=
  match tos with
  | [] => None
  | to :: tos' =>
      if decide (to ∈ m) then Some to else parallel_arcs tos' ({[to]} ∪ m)
  end.

Fixpoint parallel_nodes (n : NI) (g : list (list NI)) : bool * NI * NI :=
  match g with
  | [] => (false, -1, -1)
  | tos :: g' =>
      if len tos =? 0 then parallel_nodes (n + 1) g'
      else
        match parallel_arcs tos ∅ with
        | Some to => (true, n, to)
        | None => parallel_nodes (n + 1) g'
        end
  end.

Definition AnyParallelMap (g : AdjacencyList) : bool * NI * NI :=
  parallel_nodes 0 g.

(** [for _, to := range to { i.SetBit(int(to), 0) }] of [IsolatedNodes];
    [bits.Bits] is taken as in [BreadthFirstTraverse]. *)
Fixpoint isolated_arcs (tos : list NI) (i : list bool) : Run (list bool) :=
  match tos with
  | [] => Ret i
  | to :: tos' =>
      do i' <- set_at i to false;
      isolated_arcs tos' i'
  end.

Fixpoint isolated_nodes (fr : NI) (g : list (list NI)) (i : list bool)
  : Run (list bool) :=
  match g with
  | [] => Ret i
  | tos :: g' =>
      if 0 <? len tos then
        do i1 <- set_at i fr false;
        do i2 <- isolated_arcs tos i1;
        isolated_nodes (fr + 1) g' i2
      else isolated_nodes (fr + 1) g' i
  end.

(** [IsolatedNodes]: [bits.New(len(g))] followed by [SetAll] is [len(g)]
    set bits. *)
Definition IsolatedNodes (g : AdjacencyList) : Run (list bool) :=
  isolated_nodes 0 g (replicate (length g) true).

(** [for x, h := range g[fr] { if h == to { p = append(p, x) } }] *)
Fixpoint parallel_loop (x : Z) (tos : list NI) (to : NI) (p : list Z) : list Z :=
  match tos with
  | [] => p
  | h :: tos' =>
      parallel_loop (x + 1) tos' to (if h =? to then p ++ [x] else p)
  end.

Definition ParallelArcs (g : AdjacencyList) (fr to : NI) : Run (list Z) :=
  do tos <- at_ g fr;
  Ret (parallel_loop 0 tos to []).

End ReadOnly.

(** ** Further methods of [DirectedLabeled] ([cg_dir.go]) *)

Module Directed.

(** [for _, nb := range nbs { ind[nb.To]++ }] *)
Fixpoint indegree_arcs (nbs : list Half) (ind : list Z) : Run (list Z) :=
  match nbs with
  | [] => Ret ind
  | nb :: nbs' =>
      do d <- at_ ind (To nb);
      do ind' <- set_at ind (To nb) (d + 1);
      indegree_arcs nbs' ind'
  end.

Fixpoint indegree_nodes (g : list (list Half)) (ind : list Z) : Run (list Z) :=
  match g with
  | [] => Ret ind
  | nbs :: g' =>
      do ind' <- indegree_arcs nbs ind;
      indegree_nodes g' ind'
  end.

(** [InDegree]; a counter stays below the number of arcs held in
    memory, within the range of [int]. *)
Definition InDegree (g : LabeledAdjacencyList) : Run (list Z) :=
  indegree_nodes g (replicate (length g) 0).

(** [for n, in := range g.InDegree() { if in != len(g[n]) {...} }],
    from index [n]. *)
Fixpoint balanced_loop (g : LabeledAdjacencyList) (n : Z) (ins : list Z)
  : Run bool :=
  match ins with
  | [] => Ret true
  | in_ :: ins' =>
      do tos <- at_ g n;
      if in_ =? len tos then balanced_loop g (n + 1) ins' else Ret false
  end.

Definition Balanced (g : LabeledAdjacencyList) : Run bool :=
  do ind <- InDegree g;
  balanced_loop g 0 ind.

(** The variables captured by the closure [df] of [Cyclic]. *)
Record cstate := mkCState {
  ctemp : Z;
  cperm : Z;
  cyclic : bool;
  cfr : NI;
  cto : Half
}.

(** [for _, nb := range g.LabeledAdjacencyList[n] { df(nb.To); ... }];
    [Return] is the [return] inside [if cyclic]. *)
Fixpoint cy_arcs (df : NI → cstate → Run cstate) (n : NI) (tos : list Half)
    (s : cstate) : Run (Flow cstate cstate) :=
  match tos with
  | [] => Ret (Next s)
  | nb :: tos' =>
      do s1 <- df (To nb) s;
      if cyclic s1 then
        if cfr s1 <? 0
        then Ret (Return (mkCState (ctemp s1) (cperm s1) true n nb))
        else Ret (Return s1)
      else cy_arcs df n tos' s1
  end.

Fixpoint cy_df (fuel : nat) (g : LabeledAdjacencyList) (n : NI) (s : cstate)
  : Run cstate :=
  match fuel with
  | O => Fuel
  | S fuel' =>
      do t <- Bit (ctemp s) n;
      if t then Ret (mkCState (ctemp s) (cperm s) true (cfr s) (cto s))
      else
        do p <- Bit (cperm s) n;
        if p then Ret s
        else
          do temp1 <- SetBit (ctemp s) n true;
          do tos <- at_ g n;
          do r <- cy_arcs (cy_df fuel' g) n tos
                    (mkCState temp1 (cperm s) (cyclic s) (cfr s) (cto s));
          match r with
          | Return s' => Ret s'
          | Next s' =>
              do temp2 <- SetBit (ctemp s') n false;
              do perm2 <- SetBit (cperm s') n true;
              Ret (mkCState temp2 perm2 (cyclic s') (cfr s') (cto s'))
          end
  end.

(** [for n := range g.LabeledAdjacencyList { ... }] of [Cyclic]. *)
Fixpoint cy_roots (fuel : nat) (g : LabeledAdjacencyList) (ns : list NI)
    (s : cstate) : Run cstate :=
  match ns with
  | [] => Ret s
  | n :: ns' =>
      do p <- Bit (cperm s) n;
      if p then cy_roots fuel g ns' s
      else
        do s' <- cy_df fuel g n s;
        if cyclic s' then Ret s' else cy_roots fuel g ns' s'
  end.

(** [Cyclic]: [(cyclic, fr, to)], with the fuel of [Topological]. *)
Definition Cyclic (g : LabeledAdjacencyList) : Run (bool * NI * Half) :=
  do s <- cy_roots (S (length g)) g (Ordering.node_range (length g))
            (mkCState 0 0 false (-1) (mkHalf (-1) 0));
  Ret (cyclic s, cfr s, cto s).

(** [for _, to := range g.LabeledAdjacencyList[n] { if !df(to.To) {...} }]
    of [IsTree]: the bit set [v] and the result. *)
Fixpoint tree_arcs (df : NI → Z → Run (bool * Z)) (tos : list Half) (v : Z)
  : Run (bool * Z) :=
  match tos with
  | [] => Ret (true, v)
  | to :: tos' =>
      do '(ok, v1) <- df (To to) v;
      if ok then tree_arcs df tos' v1 else Ret (false, v1)
  end.

Fixpoint tree_df (fuel : nat) (g : LabeledAdjacencyList) (n : NI) (v : Z)
  : Run (bool * Z) :=
  match fuel with
  | O => Fuel
  | S fuel' =>
      do b <- Bit v n;
      if b then Ret (false, v)
      else
        do v1 <- SetBit v n true;
        do tos <- at_ g n;
        tree_arcs (tree_df fuel' g) tos v1
  end.

(** [IsTree]: [df] nests one call per node on the current path and one
    more that returns at once. *)
Definition IsTree (g : LabeledAdjacencyList) (root : NI) : Run bool :=
  do '(ok, _) <- tree_df (S (length g)) g root 0;
  Ret ok.

End Directed.

(** ** Methods that change the graph in place ([adj_RO.go])

    [Permute] and [ShuffleArcLists] write into the arc lists of the
    graph they are called on, so the memory these slices point to is
    modelled: [mem] holds the [NI] cells, and a slice is the address of
    its first cell and its length.  No arc list grows here, so
    capacities are left out.  The slice [p] of [Permute] holds [int]s
    and shares no memory with an arc list. *)

Module InPlace.

Abbreviation mem := (list Z) (only parsing).

Record slice := mkSlice { s_ptr : Z; s_len : Z }.

(** A graph is the slice of its arc-list slices. *)
Abbreviation graph := (list slice) (only parsing).

(** The conversion [NI(v)] of an [int] to [int32]. *)
Definition NI_of_int (v : Z) : Z := (v + 2 ^ 31) mod 2 ^ 32 - 2 ^ 31.

(** [for i, to := range arcs { arcs[i] = NI(p[to]) }], from index [i],
    with [k] elements left. *)
Fixpoint permute_arcs (p : list Z) (arcs : slice) (i : Z) (k : nat) (m : mem)
  : Run mem :=
  match k with
  | O => Ret m
  | S k' =>
      do to <- at_ m (s_ptr arcs + i);
      do v <- at_ p to;
      do m' <- set_at m (s_ptr arcs + i) (NI_of_int v);
      permute_arcs p arcs (i + 1) k' m'
  end.

(** [for fr, arcs := range old { ...; g[p[fr]] = arcs }], from index
    [fr]. *)
Fixpoint permute_nodes (p : list Z) (fr : Z) (old : list slice) (g : graph)
    (m : mem) : Run (graph * mem) :=
  match old with
  | [] => Ret (g, m)
  | arcs :: old' =>
      do m' <- permute_arcs p arcs 0 (Z.to_nat (s_len arcs)) m;
      do pfr <- at_ p fr;
      do g' <- set_at g pfr arcs;
      permute_nodes p (fr + 1) old' g' m'
  end.

(** [Permute]: [old] is a copy of the slice [g], in memory of its own;
    its elements point to the arc lists of [g]. *)
Definition Permute (g : graph) (p : list Z) (m : mem) : Run (graph * mem) :=
  permute_nodes p 0 g g m.

(** [to[i]] and [to[i] = v] for a slice in memory: they panic when [i]
    is out of the range of the slice. *)
Definition slice_at (m : mem) (to : slice) (i : Z) : Run Z :=
  if (0 <=? i) && (i <? s_len to) then at_ m (s_ptr to + i) else Panic.

Definition slice_set (m : mem) (to : slice) (i : Z) (v : Z) : Run mem :=
  if (0 <=? i) && (i <? s_len to) then set_at m (s_ptr to + i) v else Panic.

Section Shuffle.

(** The random source: [ri n r] is what [rand.Intn(n)], or [r.Intn(n)],
    returns in the state [r] of the source, and the state it leaves.
    It is called with [n > 1] only. *)
Context {R : Type}.
Variable ri : Z → R → Z * R.

(** [for i := len(to); i > 1; { j := ri(i); i--; to[i], to[j] = to[j], to[i] }]:
    both right-hand sides are read before the assignments are made. *)
Fixpoint shuffle_arcs (to : slice) (i : nat) (r : R) (m : mem)
  : Run (R * mem) :=
  match i with
  | S (S _ as i') =>
      let '(j, r') := ri (Z.of_nat i) r in
      do b <- slice_at m to j;
      do a <- slice_at m to (Z.of_nat i');
      do m1 <- slice_set m to (Z.of_nat i') b;
      do m2 <- slice_set m1 to j a;
      shuffle_arcs to i' r' m2
  | _ => Ret (r, m)
  end.

(** [for _, to := range g { ... }] *)
Fixpoint shuffle_nodes (g : list slice) (r : R) (m : mem) : Run (R * mem) :=
  match g with
  | [] => Ret (r, m)
  | to :: g' =>
      do '(r', m') <- shuffle_arcs to (Z.to_nat (s_len to)) r m;
      shuffle_nodes g' r' m'
  end.

Definition ShuffleArcLists (g : graph) (r : R) (m : mem) : Run (R * mem) :=
  shuffle_nodes g r m.

End Shuffle.

End InPlace.

(** ** Specification vocabulary *)

(** The two nested loops of [FromList] as one scan of the arc list. *)
Fixpoint flat_scan (l : list (NI * NI)) (paths : list PathEnd)
  : Run (Flow (list PathEnd) NI) :=
  match l with
  | [] => Ret (Next paths)
  | (fr, to) :: l' =>
      do p <- at_ paths to;
      if 0 <=? From p then Ret (Return to)
      else
        do paths' <- set_at paths to (mkPathEnd fr (Len p));
        flat_scan l' paths'
  end.

(** [recorded N pre paths]: [paths] is what the scan of the arcs [pre]
    leaves: the source of each scanned arc at its target, -1 elsewhere. *)
Definition recorded (N : Z) (pre : list (NI * NI)) (paths : list PathEnd)
  : Prop :=
  len paths = N ∧
  (∀ u v, (u, v) ∈ pre → From <$> paths !! Z.to_nat v = Some u) ∧
  (∀ v, 0 ≤ v < N → v ∉ pre.*2 → From <$> paths !! Z.to_nat v = Some (-1)).

Definition arcs_ok (N : Z) (l : list (NI * NI)) : Prop :=
  ∀ u v, (u, v) ∈ l → 0 ≤ u ∧ 0 ≤ v < N.

(** [g] has a cycle: a non-empty path from a node back to itself. *)
Definition Cyclic (g : LabeledAdjacencyList) : Prop := ∃ u, tc (arc g) u u.

Definition Acyclic (g : LabeledAdjacencyList) : Prop := ¬ Cyclic g.

(** Some node has two or more incoming arcs. *)
Definition multiple_incoming (g : LabeledAdjacencyList) : Prop :=
  ∃ v, (2 ≤ indegree g v)%nat.

(** ** Vocabulary for orderings and cycles *)

(** [topo_sorted g l]: every arc of [g] leaving a node listed in [l]
    leads to a node listed later in [l]. *)
Definition topo_sorted (g : LabeledAdjacencyList) (l : list NI) : Prop :=
  ∀ l1 u l2 v, l = l1 ++ u :: l2 → arc g u v → v ∈ l2.

(** [path g l]: consecutive nodes of [l] are joined by arcs of [g]. *)
Fixpoint path (g : LabeledAdjacencyList) (l : list NI) : Prop :=
  match l with
  | [] => True
  | u :: l' =>
      match l' with
      | [] => True
      | v :: _ => arc g u v ∧ path g l'
      end
  end.

(** [is_cycle g c]: [c] is not empty, consecutive nodes of [c] are
    joined by arcs, and an arc leads from the last node of [c] back to
    the first. *)
Definition is_cycle (g : LabeledAdjacencyList) (c : list NI) : Prop :=
  ∃ u z, head c = Some u ∧ last c = Some z ∧ path g c ∧ arc g z u.

(** Number of nodes of [0 .. N-1] whose bit is clear in [T]. *)
Definition free (N : nat) (T : Z) : nat :=
  length (filter (λ v, Z.testbit T v = false) (Ordering.node_range N)).

(** The invariant of [Topological] while no cycle has been found: the
    filled part [ordering[i:]] lists the nodes marked in [perm], each
    once and topologically sorted; no node is marked in both sets. *)
Record dfs_inv (g : LabeledAdjacencyList) (s : Ordering.state) : Prop := {
  inv_len : len (Ordering.ordering s) = len g;
  inv_i : 0 ≤ Ordering.i s ≤ len g;
  inv_perm : ∀ v, Z.testbit (Ordering.perm s) v = true ↔
                  v ∈ drop (Z.to_nat (Ordering.i s)) (Ordering.ordering s);
  inv_range : ∀ v, Z.testbit (Ordering.perm s) v = true → 0 ≤ v < len g;
  inv_nodup : NoDup (drop (Z.to_nat (Ordering.i s)) (Ordering.ordering s));
  inv_sorted : topo_sorted g
                 (drop (Z.to_nat (Ordering.i s)) (Ordering.ordering s));
  inv_temp : ∀ v, Z.testbit (Ordering.temp s) v = true →
                  Z.testbit (Ordering.perm s) v = false ∧ 0 ≤ v < len g;
  inv_found : Ordering.cycleFound s = false;
  inv_cycle : Ordering.cycle s = None
}.

(** What [df n] leaves when it has found a cycle, [T] being the nodes in
    progress at the call.  Either the cycle is still open: [cycle] holds
    a path [w] of fresh nodes from [n] that continues with an arc to
    [cycleStart], a node of [T]; or it is closed: [cycleStart] is -1
    and [cycle] is a cycle of [g]. *)
Definition cycle_open (g : LabeledAdjacencyList) (T : Z) (n : NI)
    (s' : Ordering.state) : Prop :=
  ∃ w, Z.testbit T (Ordering.cycleStart s') = true ∧
       Ordering.cycle_val s' = w ∧
       Ordering.len_cycle s' = len w ∧
       drop (Z.to_nat (len g - len w)) (Ordering.ordering s') = w ∧
       len (Ordering.ordering s') = len g ∧
       head (w ++ [Ordering.cycleStart s']) = Some n ∧
       path g (w ++ [Ordering.cycleStart s']) ∧
       NoDup w ∧
       (∀ v, v ∈ w → 0 ≤ v < len g ∧ Z.testbit T v = false).

Definition cycle_closed (g : LabeledAdjacencyList) (s' : Ordering.state)
  : Prop :=
  Ordering.cycleStart s' = -1 ∧ is_cycle g (Ordering.cycle_val s').

Definition df_found (g : LabeledAdjacencyList) (T : Z) (n : NI)
    (s' : Ordering.state) : Prop :=
  Ordering.cycleFound s' = true ∧ (cycle_open g T n s' ∨ cycle_closed g s').

(** What [df n] leaves when it has found no cycle. *)
Definition df_done (g : LabeledAdjacencyList) (n : NI)
    (s s' : Ordering.state) : Prop :=
  dfs_inv g s' ∧ Ordering.temp s' = Ordering.temp s ∧
  Z.testbit (Ordering.perm s') n = true ∧
  (∀ v, Z.testbit (Ordering.perm s) v = true →
        Z.testbit (Ordering.perm s') v = true).

(** The contract of the recursive call [df] that [df_arcs] relies on. *)
Definition df_contract (g : LabeledAdjacencyList)
    (df : NI → Ordering.state → Run Ordering.state) (fuel : nat) : Prop :=
  ∀ n s, dfs_inv g s → 0 ≤ n < len g →
         (free (length g) (Ordering.temp s) < fuel)%nat →
         ∃ s', df n s = Ret s' ∧
               (df_done g n s s' ∨ df_found g (Ordering.temp s) n s').

(** ** Vocabulary for breadth-first traversal *)

(** Every arc target of an unlabeled graph lies in [0, len g). *)
Definition BoundsOkU (g : AdjacencyList) : Prop :=
  ∀ tos t, tos ∈ g → t ∈ tos → 0 ≤ t < len g.

Definition BoundsOkUb (g : AdjacencyList) : bool :=
  forallb (forallb (λ t, (0 <=? t) && (t <? len g))) g.

(** [edge g u v]: the unlabeled graph [g] has an arc from [u] to [v]. *)
Definition edge (g : AdjacencyList) (u v : NI) : Prop :=
  0 ≤ u ∧ ∃ tos, g !! Z.to_nat u = Some tos ∧ v ∈ tos.

(** [hops g s k v]: a walk of [k] arcs leads from [s] to [v]. *)
Inductive hops (g : AdjacencyList) (s : NI) : nat → NI → Prop :=
| hops_O : hops g s O s
| hops_S k u v : hops g s k u → edge g u v → hops g s (S k) v.

Definition reachable (g : AdjacencyList) (s v : NI) : Prop :=
  ∃ k, hops g s k v.

(** [dist g s v k]: the hop distance of [v] from [s] is [k]. *)
Definition dist (g : AdjacencyList) (s v : NI) (k : nat) : Prop :=
  hops g s k v ∧ ∀ j, (j < k)%nat → ¬ hops g s j v.

(** The state of the traversal while the frontier of the nodes at
    distance [k] is expanded: [V] are the visits made before this
    frontier was entered, [next] the nodes found since. *)
Definition bfs_state (g : AdjacencyList) (s : NI) (k : nat) (V : list NI)
    (v : list bool) (visits next : list NI) : Prop :=
  visits = V ++ next ∧
  len v = len g ∧
  (∀ u, 0 ≤ u → v !! Z.to_nat u = Some true ↔ u ∈ visits) ∧
  NoDup visits ∧
  (∀ u, u ∈ visits → 0 ≤ u < len g) ∧
  (∀ u, u ∈ next → dist g s u (S k)).

(** The visits [V] made when the frontier [F] of the nodes at distance
    [k] is entered. *)
Definition bfs_level (g : AdjacencyList) (s : NI) (k : nat)
    (V F : list NI) : Prop :=
  (∀ u, u ∈ V → ∃ j, (j ≤ k)%nat ∧ dist g s u j) ∧
  (∀ j u, (j ≤ k)%nat → hops g s j u → u ∈ V) ∧
  (∀ u, u ∈ F ↔ dist g s u k) ∧
  (∀ a b ka kb (i j : nat), dist g s a ka → dist g s b kb → (ka < kb)%nat →
     V !! i = Some a → V !! j = Some b → (i < j)%nat).

(** ** Vocabulary for Kahn's algorithm *)

(** The arcs of an unlabeled graph, in scan order. *)
Definition arcsU (g : AdjacencyList) : list (NI * NI) := arcs (unlabeled g).

(** [IsTranspose g tr]: [tr] has the nodes of [g] and the arcs of [g]
    reversed, each as many times as [g] has it. *)
Definition IsTranspose (g : LabeledAdjacencyList) (tr : AdjacencyList) : Prop :=
  length tr = length g ∧ arcsU tr ≡ₚ (λ a, (a.2, a.1)) <$> arcs g.

(** Number of arcs into [v] that leave a node outside [L]. *)
Definition indeg_rem (g : LabeledAdjacencyList) (L : list NI) (v : NI) : nat :=
  length (filter (λ a, a.2 = v ∧ a.1 ∉ L) (arcs g)).

(** Number of arcs into [v] among the half arcs [todo]. *)
Definition into (todo : list Half) (v : NI) : nat :=
  length (filter (λ h, To h = v) todo).

(** [kahn_sorted g L]: every arc into a node listed in [L] leaves a node
    listed earlier in [L]. *)
Definition kahn_sorted (g : LabeledAdjacencyList) (L : list NI) : Prop :=
  ∀ l1 v l2 u, L = l1 ++ v :: l2 → arc g u v → u ∈ l1.

(** The invariant of the main loop of [TopologicalKahn], [todo] being
    the arcs of the node last added to [L] that are still to be
    consumed: [rem] counts for each node the incoming arcs not consumed
    yet, and [L] and [S] hold between them the nodes whose count is 0. *)
Record kahn_inv (g : LabeledAdjacencyList) (L S_ : list NI) (rem : list Z)
    (todo : list Half) : Prop := {
  kahn_len : len rem = len g;
  kahn_rem : ∀ v, 0 ≤ v < len g →
      rem !! Z.to_nat v = Some (Z.of_nat (indeg_rem g L v + into todo v));
  kahn_nodup : NoDup (L ++ S_);
  kahn_range : ∀ v, v ∈ L ++ S_ → 0 ≤ v < len g;
  kahn_zero : ∀ v, 0 ≤ v < len g →
      (v ∈ L ++ S_ ↔ (indeg_rem g L v + into todo v = 0)%nat);
  kahn_order : kahn_sorted g L
}.

(** The nodes [TopologicalKahn] reports when the counters [rem] are
    left: those with a positive count that have an arc to a node with a
    positive count. *)
Definition kahn_live_node (g : LabeledAdjacencyList) (rem : list Z) (c : NI)
  : Prop :=
  0 ≤ c < len g ∧
  (∃ r, rem !! Z.to_nat c = Some r ∧ 0 < r) ∧
  ∃ v r, arc g c v ∧ rem !! Z.to_nat v = Some r ∧ 0 < r.

(** ** Vocabulary for Tarjan's algorithm *)

Section TarjanVocabulary.
Import SCC.
Context {E : Type}.
Variable g : LabeledAdjacencyList.
Variable emit : list NI → E → bool * E.
Variable e0 : E.

(** Reading the state. *)
Definition isIdx (st : @state E) (v : NI) : Prop :=
  Z.testbit (indexed st) v = true.
Definition isStk (st : @state E) (v : NI) : Prop :=
  Z.testbit (stacked st) v = true.
Definition ix (st : @state E) (v : NI) : Z :=
  default 0 (index st !! Z.to_nat v).
Definition ll (st : @state E) (v : NI) : Z :=
  default 0 (lowlink st !! Z.to_nat v).

#[global] Instance isIdx_dec (st : @state E) (v : NI) : Decision (isIdx st v) :=
  decide (Z.testbit (indexed st) v = true).
#[global] Instance isStk_dec (st : @state E) (v : NI) : Decision (isStk st v) :=
  decide (Z.testbit (stacked st) v = true).

(** The components emitted so far, in emission order. *)
Definition comps (st : @state E) : list (list NI) := (calls st).*1.

(** The state of [emit] after it was called on [cs], from [e]. *)
Definition run_emit (e : E) (cs : list (list NI)) : E :=
  foldl (λ e c, (emit c e).2) e cs.

(** [lowlink[n] = min(lowlink[n], v)]: the state [lower] leaves. *)
Definition lowered (st : @state E) (n : NI) (v : Z) : @state E :=
  with_lowlink st (<[Z.to_nat n := Z.min (ll st n) v]> (lowlink st)).

(** [stacked] with the bits of [l] cleared. *)
Definition clear_all (l : list NI) (stk : Z) : Z := foldl Z.clearbit stk l.

(** [fin st w]: the arcs of [w] have been examined: each leads to an
    indexed node, of index at least [lowlink[w]] if it is stacked. *)
Definition fin (st : @state E) (w : NI) : Prop :=
  ∀ v, arc g w v → isIdx st v ∧ (isStk st v → ll st w ≤ ix st v).

(** The invariant of [Tarjan] between calls of [emit] that all returned
    [true]: the indexed nodes are those on the stack and those emitted,
    each once; [lowlink] of a stacked node lies between the index of the
    stack bottom and its own index; no arc leaves an emitted component
    for a node not emitted by then. *)
Record tarjan_inv (st : @state E) : Prop := {
  ti_len_index : len (index st) = len g;
  ti_len_lowlink : len (lowlink st) = len g;
  ti_range : ∀ v, isIdx st v → 0 ≤ v < len g;
  ti_nodes : ∀ v, isIdx st v ↔ v ∈ S_ st ++ concat (comps st);
  ti_stacked : ∀ v, isStk st v ↔ v ∈ S_ st;
  ti_nodup : NoDup (S_ st ++ concat (comps st));
  ti_index_lt : ∀ v, isIdx st v → ix st v < x st;
  ti_low_le : ∀ w, w ∈ S_ st → ll st w ≤ ix st w;
  ti_bottom : ∀ s rest w, S_ st = s :: rest → w ∈ S_ st → ix st s ≤ ll st w;
  ti_order : ∀ cs1 c cs2 u v, comps st = cs1 ++ c :: cs2 → u ∈ c →
               arc g u v → v ∈ concat (cs1 ++ [c]);
  ti_nonempty : ∀ c, c ∈ comps st → c ≠ [];
  ti_calls : ∀ c ok, (c, ok) ∈ calls st → ok = true;
  ti_env : env st = run_emit e0 (comps st)
}.

(** What a call of [sc] made in state [st0] leaves untouched. *)
Record ext (st0 st : @state E) : Prop := {
  ext_indexed : ∀ v, isIdx st0 v → isIdx st v;
  ext_index : ∀ v, isIdx st0 v → ix st v = ix st0 v;
  ext_lowlink : ∀ v, isIdx st0 v → ll st v = ll st0 v;
  ext_stacked : ∀ v, isIdx st0 v → (isStk st v ↔ isStk st0 v);
  ext_x : x st0 ≤ x st;
  ext_new : ∀ v, isIdx st v → ¬ isIdx st0 v → x st0 ≤ ix st v
}.

(** The state after a call of [emit] returned [false]: that call is the
    last one, and every call before it returned [true]. *)
Definition declined (st : @state E) : Prop :=
  ∃ pre c e, calls st = pre ++ [(c, false)] ∧ (emit c e).1 = false ∧
             ∀ c' ok, (c', ok) ∈ pre → ok = true.

(** What [sc n], called in state [st0], leaves when it returns [true]:
    the stack has grown by a segment [seg] of nodes whose arcs have been
    examined and whose [lowlink] is at least that of [n]; the segment
    is empty if [n] was the root of a component, and starts with [n]
    otherwise. *)
Definition sc_done (st0 : @state E) (n : NI) (st : @state E) : Prop :=
  tarjan_inv st ∧ ext st0 st ∧ isIdx st n ∧ ix st n = x st0 ∧
  ∃ seg, S_ st = S_ st0 ++ seg ∧
         (∀ w, w ∈ seg → fin st w ∧ ll st n ≤ ll st w) ∧
         ((seg = [] ∧ ll st n = ix st n) ∨
          (∃ seg', seg = n :: seg' ∧ ll st n < ix st n)).

(** The contract of the recursive call [sc] that [sc_arcs] relies on. *)
Definition sc_contract (sc : NI → @state E → Run (bool * @state E))
    (fuel : nat) : Prop :=
  ∀ n st, tarjan_inv st → 0 ≤ n < len g → ¬ isIdx st n →
          (free (length g) (indexed st) ≤ fuel)%nat →
          ∃ ok st', sc n st = Ret (ok, st') ∧
                    if ok then sc_done st n st' else declined st'.

(** The invariant of the loop of [sc n] over the arcs of [n], [st0]
    being the state at the call and [seen] the arcs examined so far. *)
Record sc_loop_inv (st0 : @state E) (n : NI) (seen : list Half)
    (st : @state E) : Prop := {
  li_inv : tarjan_inv st;
  li_ext : ext st0 st;
  li_idx : isIdx st n;
  li_ix : ix st n = x st0;
  li_stack : ∃ seg, S_ st = S_ st0 ++ n :: seg ∧
               ∀ w, w ∈ seg → fin st w ∧ ll st n ≤ ll st w;
  li_seen : ∀ h, h ∈ seen →
              isIdx st (To h) ∧ (isStk st (To h) → ll st n ≤ ix st (To h))
}.

End TarjanVocabulary.

(** The closure [TarjanForward] passes to [Tarjan]: it appends the
    component to [r] and asks to continue. *)
Definition collect (c : list NI) (r : list (list NI)) : bool * list (list NI) :=
  (true, r ++ [c]).


(** ** Vocabulary for the condensation *)

(** [cond_arc g scc X Y]: some arc of [g] leads from a node of the
    component numbered [X] to a node of the component numbered [Y]. *)
Definition cond_arc (g : LabeledAdjacencyList) (scc : list (list NI))
    (X Y : NI) : Prop :=
  ∃ cX cY u v, 0 ≤ X ∧ 0 ≤ Y ∧
    scc !! Z.to_nat X = Some cX ∧ scc !! Z.to_nat Y = Some cY ∧
    u ∈ cX ∧ v ∈ cY ∧ arc g u v.

(** [marked scc k cond]: [cond] maps every node of the components
    numbered [k] and up to the number of its component. *)
Definition marked (scc : list (list NI)) (k : nat) (cond : list NI) : Prop :=
  ∀ (j : nat) c v, (k ≤ j)%nat → scc !! j = Some c → v ∈ c →
                   cond !! Z.to_nat v = Some (Z.of_nat j).

(** [tos_of g scc X tos]: [tos] lists, once each, the components other
    than [X] that an arc leads to from [X]. *)
Definition tos_of (g : LabeledAdjacencyList) (scc : list (list NI))
    (X : NI) (tos : list NI) : Prop :=
  NoDup tos ∧ ∀ Y, Y ∈ tos ↔ Y ≠ X ∧ cond_arc g scc X Y.

(** The state of the scan of the arcs of a component numbered [cn]:
    the bits of [m] are [cn] and the members of [tos]. *)
Definition tos_map (cn : NI) (m : Z) (tos : list NI) : Prop :=
  NoDup tos ∧ cn ∉ tos ∧ ∀ Y, Z.testbit m Y = true ↔ Y = cn ∨ Y ∈ tos.


(** ** Vocabulary for [Cyclic] *)

(** [on_cycle g fr to]: [to] is an arc of [g[fr]] and some path leads
    from its target back to [fr]. *)
Definition on_cycle (g : LabeledAdjacencyList) (fr : NI) (to : Half) : Prop :=
  0 ≤ fr ∧ (∃ tos, g !! Z.to_nat fr = Some tos ∧ to ∈ tos) ∧
  rtc (arc g) (To to) fr.

(** The invariant of [Cyclic] while no cycle has been found: the nodes
    marked in [perm] are closed under arcs and lie on no cycle, no node
    is marked in both sets, and the results have their initial values. *)
Record cy_inv (g : LabeledAdjacencyList) (s : Directed.cstate) : Prop := {
  cy_perm_range : ∀ v, Z.testbit (Directed.cperm s) v = true → 0 ≤ v < len g;
  cy_perm_closed : ∀ u v, Z.testbit (Directed.cperm s) u = true → arc g u v →
                          Z.testbit (Directed.cperm s) v = true;
  cy_perm_acyclic : ∀ u, Z.testbit (Directed.cperm s) u = true →
                         ¬ tc (arc g) u u;
  cy_temp : ∀ v, Z.testbit (Directed.ctemp s) v = true →
                 Z.testbit (Directed.cperm s) v = false ∧ 0 ≤ v < len g;
  cy_notfound : Directed.cyclic s = false;
  cy_fr : Directed.cfr s = -1;
  cy_to : Directed.cto s = mkHalf (-1) 0
}.

(** What [df n] leaves when it has found no cycle. *)
Definition cy_done (g : LabeledAdjacencyList) (n : NI)
    (s s' : Directed.cstate) : Prop :=
  cy_inv g s' ∧ Directed.ctemp s' = Directed.ctemp s ∧
  Z.testbit (Directed.cperm s') n = true ∧
  (∀ v, Z.testbit (Directed.cperm s) v = true →
        Z.testbit (Directed.cperm s') v = true).

(** What [df n] leaves when it has found a cycle, [T] being the nodes in
    progress at the call: either [n] is one of them and no arc is
    recorded yet, or the recorded arc lies on a cycle. *)
Definition cy_found (g : LabeledAdjacencyList) (T : Z) (n : NI)
    (s' : Directed.cstate) : Prop :=
  Directed.cyclic s' = true ∧
  ((Directed.cfr s' = -1 ∧ Z.testbit T n = true) ∨
   on_cycle g (Directed.cfr s') (Directed.cto s')).

(** The contract of the recursive call [df] that [cy_arcs] relies on:
    the nodes in progress all lead to the node called. *)
Definition cy_contract (g : LabeledAdjacencyList)
    (df : NI → Directed.cstate → Run Directed.cstate) (fuel : nat) : Prop :=
  ∀ n s, cy_inv g s → 0 ≤ n < len g →
         (∀ v, Z.testbit (Directed.ctemp s) v = true → rtc (arc g) v n) →
         (free (length g) (Directed.ctemp s) < fuel)%nat →
         ∃ s', df n s = Ret s' ∧
               (cy_done g n s s' ∨ cy_found g (Directed.ctemp s) n s').


(** ** Vocabulary for [IsTree] *)

(** [is_tree g root]: the part of [g] that [root] reaches is a tree with
    root [root].  No arc leaving a reachable node enters [root], no
    reachable node has two arcs to the same node, and no node is entered
    from two reachable nodes. *)
Definition is_tree (g : LabeledAdjacencyList) (root : NI) : Prop :=
  (∀ u, rtc (arc g) root u → ¬ arc g u root) ∧
  (∀ u tos, rtc (arc g) root u → 0 ≤ u → g !! Z.to_nat u = Some tos →
            NoDup (To <$> tos)) ∧
  (∀ u u' m, rtc (arc g) root u → rtc (arc g) root u' →
             arc g u m → arc g u' m → u = u').

(** [not_tree g root]: an arc, or a pair of arcs, that [is_tree] rules
    out. *)
Definition not_tree (g : LabeledAdjacencyList) (root : NI) : Prop :=
  (∃ u, rtc (arc g) root u ∧ arc g u root) ∨
  (∃ u tos, rtc (arc g) root u ∧ 0 ≤ u ∧ g !! Z.to_nat u = Some tos ∧
            ¬ NoDup (To <$> tos)) ∨
  (∃ u u' m, rtc (arc g) root u ∧ rtc (arc g) root u' ∧ u ≠ u' ∧
             arc g u m ∧ arc g u' m).

(** The arcs that [df] has followed are kept in a list [par] of pairs
    (source, target); [out par u] are those that leave [u], and
    [row u tos] the arcs that the arc list [tos] of [u] holds. *)
Definition out (par : list (NI * NI)) (u : NI) : list (NI * NI) :=
  filter (λ a, a.1 = u) par.

Definition row (u : NI) (tos : list Half) : list (NI * NI) :=
  (λ h, (u, To h)) <$> tos.

(** The invariant of [IsTree] while [df] has not failed: the nodes
    marked in [v] are [root] and the targets of the arcs followed, each
    entered once; the arcs followed leave marked nodes, and every marked
    node is reachable from [root]. *)
Record tree_inv (g : LabeledAdjacencyList) (root : NI) (V : Z)
    (par : list (NI * NI)) : Prop := {
  tr_marked : ∀ m, Z.testbit V m = true ↔ m = root ∨ m ∈ par.*2;
  tr_nodup : NoDup par.*2;
  tr_root : root ∉ par.*2;
  tr_arcs : ∀ u m, (u, m) ∈ par → Z.testbit V u = true ∧ arc g u m;
  tr_reach : ∀ v, Z.testbit V v = true → rtc (arc g) root v ∧ 0 ≤ v < len g
}.

(** What a call of [df], or the loop over the arcs of a node, leaves
    when it has not failed: [new] are the arcs followed meanwhile, and
    every node marked meanwhile has had all its arcs followed. *)
Definition tree_ok (g : LabeledAdjacencyList) (root : NI) (V V' : Z)
    (par new : list (NI * NI)) : Prop :=
  tree_inv g root V' (par ++ new) ∧
  (∀ v, Z.testbit V v = true → Z.testbit V' v = true) ∧
  (∀ u tos, Z.testbit V' u = true → Z.testbit V u = false →
            g !! Z.to_nat u = Some tos → out (par ++ new) u = row u tos).

(** The contract of the recursive call [df(nb.To)] made from the loop
    over the arcs [pre ++ nb :: tos] of [n], [pre] being done. *)
Definition tree_contract (g : LabeledAdjacencyList) (root : NI)
    (df : NI → Z → Run (bool * Z)) (fuel : nat) : Prop :=
  ∀ n pre nb tos V par,
    tree_inv g root V par → Z.testbit V n = true →
    g !! Z.to_nat n = Some (pre ++ nb :: tos) →
    out par n = row n pre →
    (free (length g) V < fuel)%nat →
    ∃ ok V', df (To nb) V = Ret (ok, V') ∧
      if ok : bool
      then ∃ new, tree_ok g root V V' par ((n, To nb) :: new) ∧
                  (∀ a, a ∈ new → Z.testbit V a.1 = false)
      else not_tree g root.


(** ** Vocabulary for the connectivity of Tarjan's components *)

Section TarjanConnVocabulary.
Import SCC.
Context {E : Type}.
Variable g : LabeledAdjacencyList.
Variable emit : list NI → E → bool * E.
Variable e0 : E.

(** What holds of paths between calls of [emit] that all returned
    [true]: a node on the stack reaches the nodes above it; it reaches a
    node on the stack whose index is its [lowlink]; and the nodes of an
    emitted component all reach each other. *)
Record tarjan_conn (st : @state E) : Prop := {
  cn_stack : ∀ l1 v l2 w, S_ st = l1 ++ v :: l2 → w ∈ l2 → rtc (arc g) v w;
  cn_low : ∀ w, w ∈ S_ st →
             ∃ t, t ∈ S_ st ∧ ix st t = ll st w ∧ rtc (arc g) w t;
  cn_comps : ∀ c u v, c ∈ comps st → u ∈ c → v ∈ c → rtc (arc g) u v
}.

(** The contract of the recursive call [sc n], made when every node on
    the stack reaches [n]: every node it leaves on the stack reaches a
    node that was on the stack at the call. *)
Definition sc_conn_contract (sc : NI → @state E → Run (bool * @state E))
    (fuel : nat) : Prop :=
  ∀ n st st', tarjan_inv g emit e0 st → 0 ≤ n < len g → ¬ isIdx st n →
    (free (length g) (indexed st) ≤ fuel)%nat →
    tarjan_conn st → (∀ w, w ∈ S_ st → rtc (arc g) w n) →
    sc n st = Ret (true, st') →
    tarjan_conn st' ∧
    ∀ w, w ∈ S_ st' → ∃ t, t ∈ S_ st ∧ rtc (arc g) w t.

End TarjanConnVocabulary.


(** ** Vocabulary for graphs in memory *)

(** The elements of the slice [s] in memory [m]. *)
Definition cells (m : InPlace.mem) (s : InPlace.slice) : list NI :=
  take (Z.to_nat (InPlace.s_len s)) (drop (Z.to_nat (InPlace.s_ptr s)) m).

(** The adjacency list that the graph [g] denotes in memory [m]. *)
Definition graph_of (m : InPlace.mem) (g : InPlace.graph) : AdjacencyList :=
  cells m <$> g.

(** The slice [s] lies within memory [m]. *)
Definition slice_ok (m : InPlace.mem) (s : InPlace.slice) : Prop :=
  0 ≤ InPlace.s_ptr s ∧ 0 ≤ InPlace.s_len s ∧
  InPlace.s_ptr s + InPlace.s_len s ≤ len m.

(** The arc lists of different nodes share no cell. *)
Definition rows_apart (g : InPlace.graph) : Prop :=
  ∀ (i j : nat) s1 s2 a, i ≠ j → g !! i = Some s1 → g !! j = Some s2 →
    InPlace.s_ptr s1 ≤ a < InPlace.s_ptr s1 + InPlace.s_len s1 →
    ¬ (InPlace.s_ptr s2 ≤ a < InPlace.s_ptr s2 + InPlace.s_len s2).

(** [p[t]], read as a function. *)
Definition perm_at (p : list Z) (t : Z) : Z := default 0 (p !! Z.to_nat t).


(** The state of [Permute] when the nodes below [fr] are done, [g0]
    and [m0] being the graph and the memory at the call: the arc lists
    of these nodes have been mapped through [p] and put in their new
    places; the other arc lists are as they were. *)
Definition permute_inv (g0 : InPlace.graph) (p : list Z) (m0 : InPlace.mem)
    (fr : nat) (g : InPlace.graph) (m : InPlace.mem) : Prop :=
  length g = length g0 ∧ length m = length m0 ∧
  (∀ (j : nat) s, g0 !! j = Some s → (j < fr)%nat →
     cells m s = perm_at p <$> cells m0 s ∧
     g !! Z.to_nat (perm_at p (Z.of_nat j)) = Some s) ∧
  (∀ (j : nat) s, g0 !! j = Some s → (fr ≤ j)%nat → cells m s = cells m0 s).

(** * Properties *)

(** ** Slices, bit sets and arcs *)

Lemma len_nonneg {A} (s : list A) : 0 ≤ len s.
Proof. unfold len. lia. Qed.

Lemma at_lookup {A} (s : list A) (n : Z) (a : A) :
  0 ≤ n → s !! Z.to_nat n = Some a → at_ s n = Ret a.
Proof.
  intros Hn Hs. unfold at_.
  destruct (Z.ltb_spec n 0); [lia|]. by rewrite Hs.
Qed.

Lemma at_in_range {A} (s : list A) (n : Z) :
  0 ≤ n < len s → ∃ a, s !! Z.to_nat n = Some a ∧ at_ s n = Ret a.
Proof.
  intros Hn. unfold len in Hn.
  destruct (lookup_lt_is_Some_2 s (Z.to_nat n)) as [a Ha]; [lia|].
  exists a. split; [done|]. apply at_lookup; [lia|done].
Qed.

Lemma at_Ret {A} (s : list A) (n : Z) (a : A) :
  at_ s n = Ret a → 0 ≤ n < len s ∧ s !! Z.to_nat n = Some a.
Proof.
  unfold at_, len. destruct (Z.ltb_spec n 0); [done|].
  destruct (s !! Z.to_nat n) eqn:Hs; [|done].
  intros [= ->]. apply lookup_lt_Some in Hs. split; [lia|done].
Qed.

Lemma set_at_in_range {A} (s : list A) (n : Z) (v : A) :
  0 ≤ n < len s → set_at s n v = Ret (<[Z.to_nat n := v]> s).
Proof.
  intros Hn. unfold set_at.
  destruct (Z.leb_spec 0 n); [|lia]. destruct (Z.ltb_spec n (len s)); [done|lia].
Qed.

Lemma set_at_Ret {A} (s s' : list A) (n : Z) (v : A) :
  set_at s n v = Ret s' → 0 ≤ n < len s ∧ s' = <[Z.to_nat n := v]> s.
Proof.
  unfold set_at.
  destruct (Z.leb_spec 0 n); simpl; [|done].
  destruct (Z.ltb_spec n (len s)); [|done].
  intros [= <-]. split; [lia|done].
Qed.

Lemma Bit_nonneg (b n : Z) : 0 ≤ n → Bit b n = Ret (Z.testbit b n).
Proof. intros Hn. unfold Bit. destruct (Z.ltb_spec n 0); [lia|done]. Qed.

Lemma SetBit_nonneg (b n : Z) (v : bool) :
  0 ≤ n → SetBit b n v = Ret (if v then Z.setbit b n else Z.clearbit b n).
Proof. intros Hn. unfold SetBit. destruct (Z.ltb_spec n 0); [lia|done]. Qed.

Lemma len_insert {A} (s : list A) (k : nat) (v : A) : len (<[k := v]> s) = len s.
Proof. unfold len. by rewrite length_insert. Qed.

Lemma len_replicate {A} (k : nat) (v : A) : len (replicate k v) = Z.of_nat k.
Proof. unfold len. by rewrite length_replicate. Qed.

Lemma BoundsOkb_spec g : BoundsOkb g = true ↔ BoundsOk g.
Proof.
  unfold BoundsOkb, BoundsOk. rewrite forallb_forall. split.
  - intros H tos h Htos Hh.
    apply list_elem_of_In, H in Htos. rewrite forallb_forall in Htos.
    apply list_elem_of_In, Htos in Hh. lia.
  - intros H tos Htos. apply forallb_forall. intros h Hh.
    apply list_elem_of_In in Htos, Hh. specialize (H tos h Htos Hh). lia.
Qed.

(** The arcs listed by [arcs_from] are those of [arc]. *)
Lemma elem_of_arcs_from fr g u v :
  (u, v) ∈ arcs_from fr g ↔
  fr ≤ u ∧ ∃ tos h, g !! Z.to_nat (u - fr) = Some tos ∧ h ∈ tos ∧ To h = v.
Proof.
  revert fr. induction g as [|tos g IH]; intros fr; simpl.
  - split; [by intros ?%elem_of_nil|]. by intros (_ & ? & ? & ? & _).
  - rewrite elem_of_app, list_elem_of_fmap, IH. split.
    + intros [(h & [= -> ->] & Hh)|(Hle & tos' & h & Hl & Hh & Hv)].
      * split; [lia|]. exists tos, h. by rewrite Z.sub_diag.
      * split; [lia|]. exists tos', h. split_and!; [|done..].
        replace (Z.to_nat (u - fr)) with (S (Z.to_nat (u - (fr + 1)))) by lia.
        done.
    + intros (Hle & tos' & h & Hl & Hh & Hv).
      destruct (decide (u = fr)) as [->|Hne].
      * left. rewrite Z.sub_diag in Hl. simpl in Hl. injection Hl as ->.
        exists h. by rewrite Hv.
      * right. split; [lia|]. exists tos', h. split_and!; [|done..].
        replace (Z.to_nat (u - fr)) with (S (Z.to_nat (u - (fr + 1)))) in Hl by lia.
        done.
Qed.

Lemma elem_of_arcs g u v : (u, v) ∈ arcs g ↔ arc g u v.
Proof.
  unfold arcs, arc. rewrite elem_of_arcs_from. by rewrite Z.sub_0_r.
Qed.

Lemma arc_bounds g u v : BoundsOk g → arc g u v → 0 ≤ u < len g ∧ 0 ≤ v < len g.
Proof.
  intros Hb (Hu & tos & h & Hl & Hh & <-). split.
  - apply lookup_lt_Some in Hl. unfold len. lia.
  - apply (Hb tos h); [|done]. by eapply list_elem_of_lookup_2.
Qed.

(** ** Forest extraction *)

Section ForestFacts.
Import ForestExtraction.

Lemma scan_app l1 l2 paths :
  flat_scan (l1 ++ l2) paths =
  (do r <- flat_scan l1 paths;
   match r with
   | Next paths' => flat_scan l2 paths'
   | Return v => Ret (Return v)
   end).
Proof.
  revert paths. induction l1 as [|[fr to] l1 IH]; intros paths; simpl; [done|].
  destruct (at_ paths to) as [p| |]; simpl; [|done..].
  destruct (0 <=? From p); [done|].
  destruct (set_at paths to _); simpl; [|done..]. apply IH.
Qed.

Lemma scan_arcs_scan fr tos paths :
  scan_arcs fr tos paths = flat_scan (map (λ h, (fr, To h)) tos) paths.
Proof.
  revert paths. induction tos as [|h tos IH]; intros paths; simpl; [done|].
  destruct (at_ paths (To h)) as [p| |]; simpl; [|done..].
  destruct (0 <=? From p); [done|].
  destruct (set_at paths (To h) _); simpl; [|done..]. apply IH.
Qed.

Lemma scan_nodes_scan fr g paths :
  scan_nodes fr g paths = flat_scan (arcs_from fr g) paths.
Proof.
  revert fr paths. induction g as [|tos g IH]; intros fr paths; simpl; [done|].
  rewrite scan_app, scan_arcs_scan.
  destruct (flat_scan _ paths) as [[paths'|v]| |]; simpl; [|done..]. apply IH.
Qed.

Lemma recorded_init n :
  recorded (Z.of_nat n) [] (replicate n (mkPathEnd (-1) 0)).
Proof.
  split_and!.
  - apply len_replicate.
  - by intros u v ?%elem_of_nil.
  - intros v Hv _. rewrite lookup_replicate_2; [done|lia].
Qed.

Lemma scan_spec N l pre paths :
  recorded N pre paths → NoDup pre.*2 → arcs_ok N (pre ++ l) →
  (NoDup (pre ++ l).*2 ∧
     ∃ paths', flat_scan l paths = Ret (Next paths') ∧ recorded N (pre ++ l) paths')
  ∨ (∃ l1 u v l2, l = l1 ++ (u, v) :: l2 ∧ NoDup (pre ++ l1).*2 ∧
       v ∈ (pre ++ l1).*2 ∧ flat_scan l paths = Ret (Return v)).
Proof.
  revert pre paths. induction l as [|[u v] l IH]; intros pre paths Hrec Hnd Hok.
  - left. rewrite app_nil_r. split; [done|]. by exists paths.
  - destruct Hrec as (Hlen & Hin & Hout).
    destruct (Hok u v) as [Hu Hv]; [set_solver|].
    destruct (at_in_range paths v) as (p & Hp & Hat); [lia|].
    simpl. rewrite Hat. simpl.
    destruct (decide (v ∈ pre.*2)) as [Hvin|Hvout].
    + right. exists [], u, v, l. rewrite app_nil_r. split_and!; [done..|].
      apply list_elem_of_fmap in Hvin as ([u' v'] & Hv' & Hin').
      simpl in Hv'. subst v'.
      specialize (Hin _ _ Hin'). rewrite Hp in Hin.
      injection Hin as Hfrom. destruct (Hok u' v) as [Hu' _]; [set_solver|].
      destruct (Z.leb_spec 0 (From p)); [done|lia].
    + specialize (Hout v Hv Hvout) as Hm. rewrite Hp in Hm. injection Hm as Hm.
      rewrite Hm. simpl. rewrite set_at_in_range by lia. simpl.
      destruct (IH (pre ++ [(u, v)]) (<[Z.to_nat v := mkPathEnd u (Len p)]> paths))
        as [(Hnd' & paths' & Hscan & Hrec')|(l1 & u' & v' & l2 & -> & Hnd' & Hv' & Hscan)].
      * split_and!.
        -- by rewrite len_insert.
        -- intros u' v' [Hin'|[= -> ->]%list_elem_of_singleton]%elem_of_app.
           ++ rewrite list_lookup_insert_ne; [by apply Hin|].
              intros Heq. destruct (Hok u' v') as [_ Hv']; [set_solver|].
              assert (v = v') as -> by lia. apply Hvout.
              apply list_elem_of_fmap. by exists (u', v').
           ++ rewrite list_lookup_insert_eq; [done|]. unfold len in Hlen. lia.
        -- intros w Hw Hnin. rewrite fmap_app, elem_of_app in Hnin.
           rewrite list_lookup_insert_ne; [apply Hout; [done|tauto]|].
           intros Heq. assert (v = w) as -> by lia. apply Hnin. right. set_solver.
      * rewrite fmap_app. apply NoDup_app. split_and!; [done| |apply NoDup_singleton].
        intros w Hw [= ->]%list_elem_of_singleton. done.
      * by rewrite <- app_assoc.
      * left. rewrite <- app_assoc in Hnd', Hrec'. split; [done|]. by exists paths'.
      * right. exists ((u, v) :: l1), u', v', l2.
        rewrite <- app_assoc in Hnd', Hv'. by split_and!.
Qed.

(** What [FromList] returns, in terms of the arc list. *)
Lemma FromList_scan g :
  BoundsOk g →
  (NoDup (arcs g).*2 ∧
     ∃ paths, FromList g = Ret (Some (mkFromList paths 0 0), -1) ∧
              recorded (len g) (arcs g) paths)
  ∨ (∃ l1 u v l2, arcs g = l1 ++ (u, v) :: l2 ∧ NoDup l1.*2 ∧ v ∈ l1.*2 ∧
       FromList g = Ret (None, v)).
Proof.
  intros Hb. unfold FromList. rewrite scan_nodes_scan. fold (arcs g).
  destruct (scan_spec (len g) (arcs g) [] (replicate (length g) (mkPathEnd (-1) 0)))
    as [(Hnd & paths & Hscan & Hrec)|(l1 & u & v & l2 & Heq & Hnd & Hv & Hscan)].
  - apply recorded_init.
  - apply NoDup_nil_2.
  - intros u v Huv. simpl in Huv. apply elem_of_arcs in Huv.
    destruct (arc_bounds g u v Hb Huv). lia.
  - left. split; [done|]. exists paths. rewrite Hscan. done.
  - right. exists l1, u, v, l2. rewrite Hscan. done.
Qed.

Lemma multiple_incoming_NoDup g : multiple_incoming g ↔ ¬ NoDup (arcs g).*2.
Proof.
  unfold multiple_incoming, indegree. split.
  - intros [v Hv] H. apply NoDup_ListNoDup in H.
    apply (proj1 (List.NoDup_count_occ Z.eq_dec _)) with (x := v) in H. lia.
  - generalize (arcs g).*2. intros l. induction l as [|a l IH]; intros H.
    + destruct H. constructor.
    + destruct (decide (a ∈ l)) as [Hin|Hnin].
      * exists a. simpl. destruct (Z.eq_dec a a); [|done].
        apply list_elem_of_In, (List.count_occ_In Z.eq_dec) in Hin. lia.
      * destruct IH as [v Hv]; [intros Hnd; apply H; by constructor|].
        exists v. simpl. destruct (Z.eq_dec a v); lia.
Qed.

Lemma indegree_0 g v : indegree g v = 0%nat ↔ v ∉ (arcs g).*2.
Proof.
  unfold indegree. rewrite <- (List.count_occ_not_In Z.eq_dec).
  by rewrite list_elem_of_In.
Qed.

(** C7. On a graph whose arcs stay in bounds, [FromList] fails (a nil
    forest and a node) exactly when some node has two or more incoming
    arcs; the node returned is then the target [v] of the first arc of
    the scan whose target has been a target before.  Otherwise it
    succeeds with -1 and a forest in which every node with exactly one
    incoming arc [u → v] has [From = u], and every node without
    incoming arc has [From = -1]. *)
Theorem FromList_conflict_iff_multiple_incoming g :
  BoundsOk g →
  ((∃ v, FromList g = Ret (None, v)) ↔ multiple_incoming g) ∧
  (multiple_incoming g →
     ∃ l1 u v l2, FromList g = Ret (None, v) ∧
       arcs g = l1 ++ (u, v) :: l2 ∧ NoDup l1.*2 ∧ v ∈ l1.*2) ∧
  (¬ multiple_incoming g →
     ∃ f, FromList g = Ret (Some f, -1) ∧ len (Paths f) = len g ∧
       (∀ u v, indegree g v = 1%nat → arc g u v →
               From <$> Paths f !! Z.to_nat v = Some u) ∧
       (∀ v, 0 ≤ v < len g → indegree g v = 0%nat →
             From <$> Paths f !! Z.to_nat v = Some (-1))).
Proof.
  intros Hb.
  destruct (FromList_scan g Hb)
    as [(Hnd & paths & HF & Hlen & Hin & Hout)|(l1 & u & v & l2 & Heq & Hnd & Hv & HF)].
  - assert (¬ multiple_incoming g) as Hnm by (by intros Hm%multiple_incoming_NoDup).
    split_and!.
    + split; [|done]. intros [v Hv]. congruence.
    + done.
    + intros _. eexists. split; [exact HF|]. simpl. split_and!; [done| |].
      * intros u v _ Huv. by apply Hin, elem_of_arcs.
      * intros v Hv Hz. apply Hout; [done|]. by apply indegree_0.
  - assert (multiple_incoming g) as Hm.
    { apply multiple_incoming_NoDup. rewrite Heq, fmap_app. simpl.
      intros Hnd'. apply NoDup_app in Hnd' as (_ & Hdis & _).
      apply (Hdis v Hv). left. }
    split_and!.
    + split; [done|]. intros _. by exists v.
    + intros _. by exists l1, u, v, l2.
    + done.
Qed.

Lemma FromList_conflict_iff_multiple_incoming_witness :
  BoundsOk (unlabeled [[1; 2]; [2]; []]) ∧
  ((∃ v, FromList (unlabeled [[1; 2]; [2]; []]) = Ret (None, v)) ↔
   multiple_incoming (unlabeled [[1; 2]; [2]; []])).
Proof.
  assert (BoundsOk (unlabeled [[1; 2]; [2]; []])) as Hb
    by (apply BoundsOkb_spec; reflexivity).
  split; [exact Hb|].
  exact (proj1 (FromList_conflict_iff_multiple_incoming _ Hb)).
Defined.

(** C10. [FromList] succeeds, with a forest and -1, on every graph in
    which no node has two incoming arcs, also when the graph has a
    cycle; the graph with the arcs 0 → 1 and 1 → 0 is one. *)
Theorem FromList_succeeds_on_cyclic :
  (∀ g, BoundsOk g → (∀ v, (indegree g v ≤ 1)%nat) → Cyclic g →
        ∃ f, FromList g = Ret (Some f, -1)) ∧
  (∃ g, BoundsOk g ∧ (∀ v, (indegree g v ≤ 1)%nat) ∧ Cyclic g ∧
        ∃ f, FromList g = Ret (Some f, -1)).
Proof.
  split.
  - intros g Hb Hdeg _.
    destruct (FromList_scan g Hb)
      as [(_ & paths & HF & _)|(l1 & u & v & l2 & Heq & Hnd & Hv & _)].
    + by eexists.
    + assert (multiple_incoming g) as [w Hw]; [|specialize (Hdeg w); lia].
      apply multiple_incoming_NoDup. rewrite Heq, fmap_app. simpl.
      intros Hnd'. apply NoDup_app in Hnd' as (_ & Hdis & _).
      apply (Hdis v Hv). left.
  - exists (unlabeled [[1]; [0]]). split_and!.
    + by apply BoundsOkb_spec.
    + intros v. unfold indegree.
      apply (List.NoDup_count_occ Z.eq_dec), NoDup_ListNoDup.
      apply (bool_decide_unpack _). reflexivity.
    + exists 0. apply tc_l with 1; [|apply tc_once].
      * apply elem_of_arcs. set_solver.
      * apply elem_of_arcs. set_solver.
    + eexists. reflexivity.
Qed.

End ForestFacts.

(** ** Lists of nodes and bit sets *)

Lemma drop_insert_here {A} (l : list A) (k : nat) (x : A) :
  (k < length l)%nat → drop k (<[k := x]> l) = x :: drop (S k) l.
Proof.
  intros Hk. rewrite insert_take_drop by done.
  rewrite drop_app_length'; [done|]. rewrite length_take. lia.
Qed.

Lemma drop_insert_after {A} (l : list A) (k j : nat) (x : A) :
  (k < j)%nat → drop j (<[k := x]> l) = drop j l.
Proof. intros Hk. by apply drop_insert_lt. Qed.

Lemma clearbit_setbit a n :
  0 ≤ n → Z.testbit a n = false → Z.clearbit (Z.setbit a n) n = a.
Proof.
  intros Hn Ha. apply Z.bits_inj'. intros k Hk.
  destruct (decide (k = n)) as [->|Hne].
  - by rewrite Z.clearbit_eq.
  - rewrite Z.clearbit_neq, Z.setbit_neq by lia. done.
Qed.

Lemma testbit_setbit a n k :
  0 ≤ n → Z.testbit (Z.setbit a n) k = true ↔ k = n ∨ Z.testbit a k = true.
Proof.
  intros Hn. destruct (decide (k = n)) as [->|Hne].
  - rewrite Z.setbit_eq by done. tauto.
  - destruct (decide (0 ≤ k)).
    + rewrite Z.setbit_neq by lia. split; [tauto|]. by intros [?|?].
    + rewrite !Z.testbit_neg_r by lia. split; [done|]. by intros [?|?].
Qed.

Lemma testbit_true_nonneg a k : Z.testbit a k = true → 0 ≤ k.
Proof.
  intros H. destruct (decide (0 ≤ k)); [done|].
  rewrite Z.testbit_neg_r in H by lia. done.
Qed.

Lemma elem_of_node_range N v : v ∈ Ordering.node_range N ↔ 0 ≤ v < Z.of_nat N.
Proof.
  unfold Ordering.node_range. rewrite list_elem_of_fmap. split.
  - intros (k & -> & Hk%elem_of_seq). lia.
  - intros Hv. exists (Z.to_nat v). split; [lia|]. apply elem_of_seq. lia.
Qed.

Lemma NoDup_node_range N : NoDup (Ordering.node_range N).
Proof.
  unfold Ordering.node_range. apply NoDup_fmap; [apply _|apply NoDup_seq].
Qed.

Lemma length_node_range N : length (Ordering.node_range N) = N.
Proof. unfold Ordering.node_range. by rewrite length_fmap, length_seq. Qed.

(** A duplicate-free list of nodes of [0 .. N-1] has at most [N] elements. *)
Lemma NoDup_nodes_length N (l : list NI) :
  NoDup l → (∀ v, v ∈ l → 0 ≤ v < Z.of_nat N) → (length l ≤ N)%nat.
Proof.
  intros Hnd Hl. rewrite <- (length_node_range N).
  apply submseteq_length, NoDup_submseteq; [done|].
  intros v Hv. by apply elem_of_node_range, Hl.
Qed.

(** A duplicate-free list that holds every node of [0 .. N-1] and no
    other is a permutation of them. *)
Lemma NoDup_nodes_Permutation N (l : list NI) :
  NoDup l → (∀ v, v ∈ l ↔ 0 ≤ v < Z.of_nat N) → l ≡ₚ Ordering.node_range N.
Proof.
  intros Hnd Hl. apply NoDup_Permutation; [done|apply NoDup_node_range|].
  intros v. by rewrite Hl, elem_of_node_range.
Qed.

Lemma free_setbit_lt N T n :
  0 ≤ n < Z.of_nat N → Z.testbit T n = false →
  (free N (Z.setbit T n) < free N T)%nat.
Proof.
  intros Hn HT. unfold free.
  assert (filter (λ v, Z.testbit (Z.setbit T n) v = false) (Ordering.node_range N)
          = filter (λ v, v ≠ n)
              (filter (λ v, Z.testbit T v = false) (Ordering.node_range N))) as ->.
  { rewrite list_filter_filter. apply list_filter_iff. intros v. split.
    - intros Hv. split.
      + intros ->. rewrite Z.setbit_eq in Hv by lia. done.
      + destruct (Z.testbit T v) eqn:HTv; [|done].
        rewrite <- Hv. symmetry. apply testbit_setbit; [lia|]. by right.
    - intros [Hne Hv]. destruct (Z.testbit (Z.setbit T n) v) eqn:Hs; [|done].
      apply testbit_setbit in Hs as [?|?]; [done|congruence|lia]. }
  apply (length_filter_lt _ _ n).
  - apply list_elem_of_filter. split; [done|]. by apply elem_of_node_range.
  - by intros H.
Qed.

Lemma free_le N T : (free N T ≤ N)%nat.
Proof.
  unfold free. rewrite <- (length_node_range N) at 2. apply length_filter.
Qed.

(** ** Paths and cycles *)

Lemma path_cons g u l : path g (u :: l) → path g l.
Proof. destruct l as [|v l]; simpl; [done|]. by intros [_ ?]. Qed.

Lemma path_cons_head g u v l :
  head l = Some v → arc g u v → path g l → path g (u :: l).
Proof. destruct l as [|v' l]; simpl; [done|]. by intros [= ->]. Qed.

Lemma path_snoc g l z u :
  last l = Some z → path g (l ++ [u]) ↔ path g l ∧ arc g z u.
Proof.
  revert z. induction l as [|a l IH]; intros z Hl; [done|].
  destruct l as [|b l].
  - simpl in *. injection Hl as ->. tauto.
  - change ((a :: b :: l) ++ [u]) with (a :: (b :: l) ++ [u]).
    change (path g (a :: (b :: l) ++ [u]))
      with (arc g a b ∧ path g ((b :: l) ++ [u])).
    change (path g (a :: b :: l)) with (arc g a b ∧ path g (b :: l)).
    rewrite (IH z); [tauto|]. by rewrite last_cons_cons in Hl.
Qed.

(** A path from [u] that ends with an arc into [v]. *)
Lemma path_tc g l u z v :
  head l = Some u → last l = Some z → path g l → arc g z v → tc (arc g) u v.
Proof.
  revert u. induction l as [|a l IH]; intros u Hh Hl Hp Hz; [done|].
  injection Hh as ->. destruct l as [|b l].
  - injection Hl as ->. by apply tc_once.
  - destruct Hp as [Hab Hp]. rewrite last_cons_cons in Hl.
    apply tc_l with b; [done|]. by apply IH.
Qed.

Lemma is_cycle_Cyclic g c : is_cycle g c → Cyclic g.
Proof.
  intros (u & z & Hh & Hl & Hp & Hz). exists u. by eapply path_tc.
Qed.

(** Along an arc, and so along a path, a topologically sorted list that
    holds the source holds the target strictly later. *)
Lemma topo_sorted_tc g l u v :
  topo_sorted g l → NoDup l → tc (arc g) u v →
  ∀ l1 l2, l = l1 ++ u :: l2 → v ∈ l2.
Proof.
  intros Hs Hnd Htc. induction Htc as [u v Huv|u w v Huw _ IH];
    intros l1 l2 Hl.
  - by eapply Hs.
  - pose proof (Hs _ _ _ _ Hl Huw) as Hw.
    apply list_elem_of_split in Hw as (l3 & l4 & ->).
    specialize (IH (l1 ++ u :: l3) l4). rewrite <- app_assoc in IH.
    specialize (IH Hl). set_solver.
Qed.

Lemma topo_sorted_Acyclic g l :
  topo_sorted g l → NoDup l → (∀ u v, arc g u v → u ∈ l) → Acyclic g.
Proof.
  intros Hs Hnd Hall [u Hu].
  assert (u ∈ l) as Hin.
  { inversion Hu as [? ? Ha|? w ? Ha]; subst; by eapply Hall. }
  apply list_elem_of_split in Hin as (l1 & l2 & ->).
  pose proof (topo_sorted_tc _ _ _ _ Hs Hnd Hu l1 l2 eq_refl) as Hin.
  apply NoDup_app in Hnd as (_ & _ & Hnd). apply NoDup_cons in Hnd as [Hn _].
  done.
Qed.

(** ** Ordering engine: depth-first search *)

Section TopologicalFacts.
Import Ordering.

Lemma arc_of_lookup g n tos h :
  0 ≤ n → g !! Z.to_nat n = Some tos → h ∈ tos → arc g n (To h).
Proof. intros Hn Hg Hh. split; [done|]. by exists tos, h. Qed.

Lemma dfs_inv_suffix_range g s v :
  dfs_inv g s → v ∈ drop (Z.to_nat (i s)) (ordering s) → 0 ≤ v < len g.
Proof. intros Hinv Hv. by apply (inv_range g s Hinv), (inv_perm g s Hinv). Qed.

Lemma dfs_inv_suffix_length g s :
  dfs_inv g s →
  Z.of_nat (length (drop (Z.to_nat (i s)) (ordering s))) = len g - i s.
Proof.
  intros Hinv. rewrite length_drop.
  pose proof (inv_len g s Hinv) as Hl. pose proof (inv_i g s Hinv).
  unfold len in *. lia.
Qed.

(** Writing [n] just below the recorded part [w] of the cycle. *)
Lemma write_cycle (N : Z) (ord w : list NI) (n : NI) :
  len ord = N → drop (Z.to_nat (N - len w)) ord = w → len w < N →
  drop (Z.to_nat (N - 1 - len w)) (<[Z.to_nat (N - 1 - len w) := n]> ord)
  = n :: w.
Proof.
  intros Hlen Hw Hlt. pose proof (len_nonneg w). unfold len in *.
  rewrite drop_insert_here by lia.
  replace (S (Z.to_nat (N - 1 - Z.of_nat (length w))))
    with (Z.to_nat (N - Z.of_nat (length w))) by lia.
  by rewrite Hw.
Qed.

Lemma df_arcs_spec g rec fuel n T0 tos s :
  BoundsOk g → df_contract g rec fuel →
  dfs_inv g s → 0 ≤ n < len g →
  Z.testbit T0 n = false → temp s = Z.setbit T0 n →
  (free (length g) (temp s) < fuel)%nat →
  (∀ h, h ∈ tos → arc g n (To h)) →
  ∃ r, df_arcs rec n tos s = Ret r ∧
    match r with
    | Next s' =>
        dfs_inv g s' ∧ temp s' = temp s ∧
        (∀ h, h ∈ tos → Z.testbit (perm s') (To h) = true) ∧
        (∀ v, Z.testbit (perm s) v = true → Z.testbit (perm s') v = true)
    | Return s' => df_found g T0 n s'
    end.
Proof.
  intros Hb Hrec. revert s.
  induction tos as [|nb tos IH]; intros s Hinv Hn HT0 Htemp Hfree Harcs.
  { exists (Next s). split; [done|]. split_and!; [done..| |done].
    by intros h ?%elem_of_nil. }
  assert (arc g n (To nb)) as Hnb by (apply Harcs; left).
  destruct (arc_bounds _ _ _ Hb Hnb) as [_ Hto].
  destruct (Hrec (To nb) s Hinv Hto Hfree) as (s1 & Hcall & Hpost).
  simpl. rewrite Hcall. simpl.
  destruct Hpost as [(Hinv1 & Htemp1 & Hperm1 & Hmono1)|(Hfound & Hcyc)].
  - rewrite (inv_found g s1 Hinv1).
    destruct (IH s1) as (r & Hr & Hpost); [done..|congruence|congruence| |].
    { intros h Hh. apply Harcs. by right. }
    exists r. split; [done|]. destruct r as [s'|s']; [|done].
    destruct Hpost as (Hinv' & Htemp' & Hperm' & Hmono').
    split_and!; [done|congruence| |by auto].
    intros h [->|Hh]%elem_of_cons; [by apply Hmono'|by apply Hperm'].
  - rewrite Hfound.
    destruct Hcyc as [(w & Hc & Hval & Hlc & Hdrop & Hlen & Hhead & Hpath & Hnd & Hw)
                     |[Hstart Hcyc]].
    + pose proof (testbit_true_nonneg _ _ Hc) as Hc0.
      destruct (Z.leb_spec 0 (cycleStart s1)); [|lia].
      assert (n ∉ w) as Hnw.
      { intros Hin. destruct (Hw n Hin) as [_ Hf].
        rewrite Htemp, Z.setbit_eq in Hf by lia. done. }
      assert (len w < len g) as Hwlen.
      { assert (length (n :: w) ≤ length g)%nat as Hle.
        { apply NoDup_nodes_length; [by apply NoDup_cons|].
          intros v [->|Hv]%elem_of_cons; [done|]. by apply Hw. }
        simpl in Hle. unfold len. lia. }
      pose proof (len_nonneg w) as Hw0.
      rewrite Hlc, Hlen. rewrite set_at_in_range by lia. simpl.
      eexists. split; [done|]. split; [done|]. simpl.
      pose proof (write_cycle (len g) (ordering s1) w n Hlen Hdrop Hwlen) as Hwr.
      destruct (Z.eqb_spec n (cycleStart s1)) as [Heq|Hne].
      * right. split; [done|]. unfold cycle_val. simpl. rewrite Hwr.
        destruct w as [|a w].
        -- simpl in Hhead. injection Hhead as Hhead.
           exists n, n. split_and!; [done..|]. congruence.
        -- simpl in Hhead. injection Hhead as ->.
           destruct (last (To nb :: w)) as [z|] eqn:Hlast;
             [|by apply last_None in Hlast].
           apply (path_snoc _ _ z) in Hpath as [Hpath Hz]; [|done].
           exists n, z. split_and!; [done| |by split|congruence].
           by rewrite last_cons_cons.
      * left. exists (n :: w). simpl. split_and!.
        -- rewrite Htemp in Hc. apply testbit_setbit in Hc as [?|?]; [congruence|done|lia].
        -- unfold cycle_val. simpl. done.
        -- unfold len_cycle. simpl. rewrite len_insert, Hlen. unfold len. simpl. lia.
        -- replace (len g - len (n :: w)) with (len g - 1 - len w)
             by (unfold len; simpl; lia). done.
        -- by rewrite len_insert.
        -- done.
        -- destruct (w ++ [cycleStart s1]) eqn:Hwc; [done|].
           simpl in Hhead. injection Hhead as ->. by split.
        -- by apply NoDup_cons.
        -- intros v [->|Hv]%elem_of_cons; [done|].
           destruct (Hw v Hv) as [Hr Hf]. split; [done|].
           destruct (Z.testbit T0 v) eqn:HT; [|done].
           rewrite <- Hf, Htemp. symmetry. apply testbit_setbit; [lia|by right].
    + rewrite Hstart. simpl. eexists. split; [done|]. split; [done|]. by right.
Qed.

Lemma df_spec g : BoundsOk g → ∀ fuel, df_contract g (df fuel g) fuel.
Proof.
  intros Hb fuel. induction fuel as [|fuel IH]; intros n s Hinv Hn Hfree; [lia|].
  simpl. rewrite Bit_nonneg by lia. simpl.
  destruct (Z.testbit (temp s) n) eqn:Ht.
  { (* [n] is in progress: a cycle *)
    eexists. split; [done|]. right. split; [done|]. left. exists [].
    simpl. unfold cycle_val, len_cycle. simpl.
    pose proof (inv_len g s Hinv) as Hlen.
    rewrite (inv_cycle g s Hinv). split_and!; try done.
    - rewrite Z.sub_0_r. apply drop_ge. unfold len in *. lia.
    - apply NoDup_nil_2.
    - by intros v ?%elem_of_nil. }
  rewrite Bit_nonneg by lia. simpl.
  destruct (Z.testbit (perm s) n) eqn:Hp.
  { exists s. split; [done|]. left. by split_and!. }
  rewrite SetBit_nonneg by lia. simpl.
  destruct (at_in_range g n Hn) as (tos & Hg & ->). simpl.
  set (s1 := mkState (ordering s) (i s) (Z.setbit (temp s) n) (perm s)
                     (cycleFound s) (cycleStart s) (cycle s)).
  assert (dfs_inv g s1) as Hinv1.
  { destruct Hinv. split; simpl; try done.
    intros v [->|Hv]%testbit_setbit; [done|by auto|lia]. }
  destruct (df_arcs_spec g (df fuel g) fuel n (temp s) tos s1)
    as (r & -> & Hpost); [done..| |by intros; eapply arc_of_lookup; [lia|..]|].
  { simpl. pose proof (free_setbit_lt (length g) (temp s) n Hn Ht). lia. }
  simpl. destruct r as [s'|s']; [|exists s'; split; [done|by right]].
  destruct Hpost as (Hinv' & Htemp' & Hperm' & Hmono'). simpl in Htemp'.
  assert (Z.testbit (perm s') n = false) as Hpn.
  { apply (inv_temp g s' Hinv'). rewrite Htemp'. apply Z.setbit_eq. lia. }
  assert (n ∉ drop (Z.to_nat (i s')) (ordering s')) as Hnin.
  { intros Hin%(inv_perm g s' Hinv'). congruence. }
  assert (1 ≤ i s') as Hi.
  { assert (length (n :: drop (Z.to_nat (i s')) (ordering s')) ≤ length g)%nat as Hle.
    { apply NoDup_nodes_length.
      - apply NoDup_cons. split; [done|]. apply (inv_nodup g s' Hinv').
      - intros v [->|Hv]%elem_of_cons; [done|]. by eapply dfs_inv_suffix_range. }
    pose proof (dfs_inv_suffix_length g s' Hinv'). simpl in Hle.
    unfold len in *. lia. }
  pose proof (inv_len g s' Hinv') as Hlen. pose proof (inv_i g s' Hinv') as Hi'.
  rewrite !SetBit_nonneg by lia. simpl.
  rewrite set_at_in_range by lia. simpl.
  eexists. split; [done|]. left.
  assert (drop (Z.to_nat (i s' - 1)) (<[Z.to_nat (i s' - 1) := n]> (ordering s'))
          = n :: drop (Z.to_nat (i s')) (ordering s')) as Hsuffix.
  { rewrite drop_insert_here by (unfold len in *; lia).
    by replace (S (Z.to_nat (i s' - 1))) with (Z.to_nat (i s')) by lia. }
  assert (Z.clearbit (temp s') n = temp s) as Hclear.
  { rewrite Htemp'. apply clearbit_setbit; [lia|done]. }
  split_and!; simpl.
  - split; simpl.
    + by rewrite len_insert.
    + lia.
    + intros v. rewrite Hsuffix, elem_of_cons, testbit_setbit by lia.
      by rewrite (inv_perm g s' Hinv').
    + intros v [->|Hv]%testbit_setbit; [done| |lia].
      by apply (inv_range g s' Hinv').
    + rewrite Hsuffix. apply NoDup_cons. split; [done|].
      apply (inv_nodup g s' Hinv').
    + rewrite Hsuffix. intros l1 u l2 v Hl Huv.
      destruct l1 as [|a l1]; simpl in Hl; injection Hl as Hu Hl.
      * subst u l2. apply (inv_perm g s' Hinv').
        destruct Huv as (_ & tos' & h & Hg' & Hh & <-).
        rewrite Hg in Hg'. injection Hg' as <-. by apply Hperm'.
      * by eapply (inv_sorted g s' Hinv').
    + rewrite Hclear. intros v Hv.
      destruct (inv_temp g s Hinv v Hv) as [_ Hr]. split; [|done].
      assert (v ≠ n) as Hne by congruence.
      destruct (Z.testbit (Z.setbit (perm s') n) v) eqn:Hs; [|done].
      apply testbit_setbit in Hs as [?|Hs]; [done| |lia].
      destruct (inv_temp g s' Hinv' v) as [Hf _]; [|congruence].
      rewrite Htemp'. apply testbit_setbit; [lia|by right].
    + apply (inv_found g s' Hinv').
    + apply (inv_cycle g s' Hinv').
  - done.
  - apply Z.setbit_eq. lia.
  - intros v Hv. apply testbit_setbit; [lia|]. right. by apply Hmono'.
Qed.

(** The loop of [Topological] over the roots: either every root gets
    marked, or a closed cycle is returned with a nil ordering. *)
Lemma roots_spec g fuel ns s :
  BoundsOk g → (length g < fuel)%nat → dfs_inv g s → temp s = 0 →
  (∀ n, n ∈ ns → 0 ≤ n < len g) →
  ∃ r, roots fuel g ns s = Ret r ∧
    match r with
    | Next s' =>
        dfs_inv g s' ∧ temp s' = 0 ∧
        (∀ v, v ∈ ns → Z.testbit (perm s') v = true) ∧
        (∀ v, Z.testbit (perm s) v = true → Z.testbit (perm s') v = true)
    | Return (ord, c) => ord = [] ∧ is_cycle g c
    end.
Proof.
  intros Hb Hfuel. revert s.
  induction ns as [|n ns IH]; intros s Hinv Htemp Hns.
  { exists (Next s). split; [done|]. split_and!; [done..| |done].
    by intros v ?%elem_of_nil. }
  assert (0 ≤ n < len g) as Hn by (apply Hns; left).
  cbn [roots]. rewrite Bit_nonneg by lia. simpl.
  destruct (Z.testbit (perm s) n) eqn:Hp.
  - destruct (IH s) as (r & Hr & Hpost); [done..|by intros; apply Hns; right|].
    exists r. split; [done|]. destruct r as [s'|[ord c]]; [|done].
    destruct Hpost as (Hinv' & Htemp' & Hperm' & Hmono').
    split_and!; [done..| |done].
    intros v [->|Hv]%elem_of_cons; [by apply Hmono'|by apply Hperm'].
  - destruct (df_spec g Hb fuel n s Hinv Hn) as (s1 & Hcall & Hpost).
    { pose proof (free_le (length g) (temp s)). lia. }
    rewrite Hcall. simpl.
    destruct Hpost as [(Hinv1 & Htemp1 & Hperm1 & Hmono1)|(Hfound & Hcyc)].
    + rewrite (inv_found g s1 Hinv1).
      destruct (IH s1) as (r & Hr & Hpost);
        [done|congruence|by intros; apply Hns; right|].
      exists r. split; [done|]. destruct r as [s'|[ord c]]; [|done].
      destruct Hpost as (Hinv' & Htemp' & Hperm' & Hmono').
      split_and!; [done..| |by auto].
      intros v [->|Hv]%elem_of_cons; [by apply Hmono'|by apply Hperm'].
    + rewrite Hfound. eexists. split; [done|]. simpl. split; [done|].
      destruct Hcyc as [(w & Hc & _)|[_ Hcyc]]; [|done].
      rewrite Htemp, Z.bits_0 in Hc. done.
Qed.

Lemma dfs_inv_init g : dfs_inv g (init g).
Proof.
  split; simpl.
  - apply len_replicate.
  - pose proof (len_nonneg g). lia.
  - intros v. rewrite Z.bits_0, drop_ge; [|rewrite length_replicate; unfold len; lia].
    split; [done|]. by intros ?%elem_of_nil.
  - intros v. by rewrite Z.bits_0.
  - rewrite drop_ge; [|rewrite length_replicate; unfold len; lia]. apply NoDup_nil_2.
  - rewrite drop_ge; [|rewrite length_replicate; unfold len; lia].
    intros l1 u l2 v Hl. by destruct l1.
  - intros v. by rewrite Z.bits_0.
  - done.
  - done.
Qed.

(** What [Topological] returns on a graph whose arcs stay in bounds:
    the nodes, once each and topologically sorted, with a nil cycle; or
    a nil ordering with a cycle of the graph. *)
Lemma Topological_spec g :
  BoundsOk g →
  ∃ ord cyc, Topological g = Ret (ord, cyc) ∧
    ((cyc = [] ∧ NoDup ord ∧ (∀ v, v ∈ ord ↔ 0 ≤ v < len g) ∧ topo_sorted g ord)
     ∨ (ord = [] ∧ is_cycle g cyc)).
Proof.
  intros Hb. unfold Topological.
  destruct (roots_spec g (S (length g)) (node_range (length g)) (init g))
    as (r & -> & Hpost); [done|lia|apply dfs_inv_init|done| |].
  { intros n Hn%elem_of_node_range. unfold len. lia. }
  simpl. destruct r as [s'|[ord c]].
  - destruct Hpost as (Hinv & _ & Hperm & _).
    exists (ordering s'), []. split; [done|]. left.
    assert (∀ v, 0 ≤ v < len g →
                 v ∈ drop (Z.to_nat (i s')) (ordering s')) as Hall.
    { intros v Hv. apply (inv_perm g s' Hinv), Hperm, elem_of_node_range.
      unfold len in Hv. lia. }
    assert (i s' = 0) as Hi.
    { assert (length g ≤ length (drop (Z.to_nat (i s')) (ordering s')))%nat as Hle.
      { rewrite <- (length_node_range (length g)).
        apply submseteq_length, NoDup_submseteq; [apply NoDup_node_range|].
        intros v Hv%elem_of_node_range. apply Hall. unfold len. lia. }
      pose proof (dfs_inv_suffix_length g s' Hinv).
      pose proof (inv_i g s' Hinv). unfold len in *. lia. }
    pose proof (inv_nodup g s' Hinv) as Hnd.
    pose proof (inv_sorted g s' Hinv) as Hsorted.
    rewrite Hi in Hall, Hnd, Hsorted. simpl in Hall, Hnd, Hsorted.
    split_and!; [done..| |done].
    intros v. split; [|by apply Hall].
    intros Hv. apply (dfs_inv_suffix_range g s'); [done|]. by rewrite Hi.
  - destruct Hpost as [-> Hcyc]. exists [], c. split; [done|]. by right.
Qed.

(** A topologically sorted list without duplicates, read by positions. *)
Lemma topo_sorted_positions g (ord : list Z) u v (i j : nat) :
  topo_sorted g ord → NoDup ord → arc g u v →
  ord !! i = Some u → ord !! j = Some v → (i < j)%nat.
Proof.
  intros Hs Hnd Huv Hi Hj.
  pose proof (take_drop_middle ord i u Hi) as Hsplit. symmetry in Hsplit.
  pose proof (Hs _ _ _ _ Hsplit Huv) as Hv.
  apply list_elem_of_lookup in Hv as [k Hk]. rewrite lookup_drop in Hk.
  assert (j = (S i + k)%nat) as -> by (by eapply NoDup_lookup). lia.
Qed.

(** A nil cycle returned by [Topological] tells that the graph is acyclic. *)
Lemma Topological_nil_cycle_Acyclic g ord :
  BoundsOk g → Topological g = Ret (ord, []) → Acyclic g.
Proof.
  intros Hb Hrun.
  destruct (Topological_spec g Hb) as (ord' & cyc & Hrun' & Hres).
  rewrite Hrun in Hrun'. injection Hrun' as <- <-.
  destruct Hres as [(_ & Hnd & Hall & Hs)|[_ (u & z & Hh & _)]]; [|done].
  apply (topo_sorted_Acyclic g ord Hs Hnd).
  intros u v Huv. apply Hall. by apply (arc_bounds g u v).
Qed.

(** On a cyclic graph [Topological] returns a nil ordering and a cycle
    of the graph, listed from a node back to the node before it. *)
Lemma Topological_cycle_of_cyclic g :
  BoundsOk g → Cyclic g →
  ∃ cyc, Topological g = Ret ([], cyc) ∧ is_cycle g cyc.
Proof.
  intros Hb Hc.
  destruct (Topological_spec g Hb) as (ord & cyc & Hrun & Hres).
  destruct Hres as [(-> & Hnd & Hall & Hs)|[-> Hcyc]]; [|by exists cyc].
  destruct (Topological_nil_cycle_Acyclic g ord Hb Hrun Hc).
Qed.

(** C1. On an acyclic graph whose arcs stay in bounds, [Topological]
    returns an ordering that is a permutation of the node numbers
    [0 .. N-1], in which the source of every arc stands strictly before
    its target, together with an empty cycle. *)
Theorem Topological_sorts_acyclic g :
  BoundsOk g → Acyclic g →
  ∃ ord, Topological g = Ret (ord, []) ∧
    ord ≡ₚ node_range (length g) ∧
    ∀ u v (i j : nat), arc g u v →
      ord !! i = Some u → ord !! j = Some v → (i < j)%nat.
Proof.
  intros Hb Hac.
  destruct (Topological_spec g Hb) as (ord & cyc & Hrun & Hres).
  destruct Hres as [(-> & Hnd & Hall & Hs)|[_ Hcyc]].
  - exists ord. split_and!; [done| |].
    + apply NoDup_nodes_Permutation; [done|]. intros v. rewrite Hall.
      unfold len. lia.
    + intros u v i j. by apply topo_sorted_positions.
  - destruct Hac. by eapply is_cycle_Cyclic.
Qed.

Lemma Topological_sorts_acyclic_witness :
  ∃ ord, Topological (unlabeled [[]; [2]; []; [1; 2]; [3; 2]]) = Ret (ord, []) ∧
    ord ≡ₚ node_range 5 ∧
    ∀ u v (i j : nat), arc (unlabeled [[]; [2]; []; [1; 2]; [3; 2]]) u v →
      ord !! i = Some u → ord !! j = Some v → (i < j)%nat.
Proof.
  assert (BoundsOk (unlabeled [[]; [2]; []; [1; 2]; [3; 2]])) as Hb
    by (apply BoundsOkb_spec; reflexivity).
  apply (Topological_sorts_acyclic _ Hb).
  apply (Topological_nil_cycle_Acyclic _ [4; 3; 1; 2; 0] Hb). reflexivity.
Defined.

(** C9, as stated, fails on the graph without nodes: [Topological]
    returns an empty ordering and an empty cycle. *)
Lemma Topological_empty_graph_both_empty :
  Topological [] = Ret ([], []) ∧
  ¬ (∃ ord cyc, Topological [] = Ret (ord, cyc) ∧
       ((ord ≠ [] ∧ cyc = []) ∨ (cyc ≠ [] ∧ ord = []))).
Proof.
  split; [reflexivity|].
  intros (ord & cyc & [= <- <-] & [[? _]|[? _]]); done.
Qed.

(** C9, amended. On a graph with at least one node, whose arcs stay in
    bounds, [Topological] returns either an ordering of length [N] with
    an empty cycle, or a non-empty cycle with an empty ordering: exactly
    one of the two results is non-empty. *)
Theorem Topological_exactly_one_result g :
  BoundsOk g → g ≠ [] →
  ∃ ord cyc, Topological g = Ret (ord, cyc) ∧
    ((ord ≠ [] ∧ length ord = length g ∧ cyc = [])
     ∨ (cyc ≠ [] ∧ ord = [])).
Proof.
  intros Hb Hne.
  destruct (Topological_spec g Hb) as (ord & cyc & Hrun & Hres).
  exists ord, cyc. split; [done|].
  destruct Hres as [(-> & Hnd & Hall & Hs)|[-> (u & z & Hh & _)]].
  - left.
    assert (length ord = length g) as Hlen.
    { rewrite <- (length_node_range (length g)). apply Permutation_length.
      apply NoDup_nodes_Permutation; [done|]. intros v. rewrite Hall.
      unfold len. lia. }
    split_and!; [|done..]. intros ->. by destruct g.
  - right. split; [|done]. by intros ->.
Qed.

Lemma Topological_exactly_one_result_witness :
  ∃ ord cyc, Topological (unlabeled [[1]; [2]; [3; 0]; [1]]) = Ret (ord, cyc) ∧
    ((ord ≠ [] ∧ length ord = 4%nat ∧ cyc = []) ∨ (cyc ≠ [] ∧ ord = [])).
Proof.
  apply (Topological_exactly_one_result (unlabeled [[1]; [2]; [3; 0]; [1]])).
  - apply BoundsOkb_spec. reflexivity.
  - done.
Defined.

End TopologicalFacts.

(** ** Traversal engine: breadth-first search *)

Section TraversalFacts.
Import Traversal.

Variable g : AdjacencyList.
Variable s : Z.
Hypothesis Hbounds : BoundsOkU g.

Lemma BoundsOkUb_spec g' : BoundsOkUb g' = true ↔ BoundsOkU g'.
Proof.
  unfold BoundsOkUb, BoundsOkU. rewrite forallb_forall. split.
  - intros H tos t Htos Ht.
    apply list_elem_of_In, H in Htos. rewrite forallb_forall in Htos.
    apply list_elem_of_In, Htos in Ht. lia.
  - intros H tos Htos. apply forallb_forall. intros t Ht.
    apply list_elem_of_In in Htos, Ht. specialize (H tos t Htos Ht). lia.
Qed.

Lemma edge_bounds u v : edge g u v → 0 ≤ u < len g ∧ 0 ≤ v < len g.
Proof.
  intros (Hu & tos & Hl & Hv). split.
  - apply lookup_lt_Some in Hl. unfold len. lia.
  - apply (Hbounds tos v); [|done]. by eapply list_elem_of_lookup_2.
Qed.

Lemma dist_unique v k1 k2 : dist g s v k1 → dist g s v k2 → k1 = k2.
Proof.
  intros [H1 M1] [H2 M2].
  destruct (lt_eq_lt_dec k1 k2) as [[Hlt| ->]|Hlt]; [|done|].
  - destruct (M2 k1 Hlt H1).
  - destruct (M1 k2 Hlt H2).
Qed.

Lemma bfs_arcs_spec k V w tos v visits next :
  dist g s w k →
  (∀ j u, (j ≤ k)%nat → hops g s j u → u ∈ V) →
  bfs_state g s k V v visits next →
  (∀ t, t ∈ tos → edge g w t) →
  ∃ v' visits' next',
    bfs_arcs tos v visits next = Ret (v', visits', next') ∧
    bfs_state g s k V v' visits' next' ∧
    (∀ t, t ∈ tos → t ∈ visits') ∧
    (∀ u, u ∈ visits → u ∈ visits').
Proof.
  intros Hw HB. revert v visits next.
  induction tos as [|nb tos IH]; intros v visits next Hst Htos.
  { exists v, visits, next. split_and!; [done..| |done]. by intros t ?%elem_of_nil. }
  destruct Hst as (Hvis & Hlen & Hmark & Hnd & Hrange & Hnext).
  assert (edge g w nb) as Hnb by (apply Htos; left).
  destruct (edge_bounds _ _ Hnb) as [_ Hnbr].
  destruct (at_in_range v nb) as (b & Hb & Hat); [lia|].
  simpl. rewrite Hat. simpl. destruct b; simpl.
  - destruct (IH v visits next) as (v' & visits' & next' & Hrun & Hst' & Hin & Hmono).
    { by split_and!. }
    { intros t Ht. apply Htos. by right. }
    exists v', visits', next'. split_and!; [done..| |done].
    intros t [->|Ht]%elem_of_cons; [|by apply Hin].
    apply Hmono, Hmark; [lia|done].
  - rewrite set_at_in_range by lia. simpl.
    assert (nb ∉ visits) as Hfresh.
    { intros Hin%Hmark; [|lia]. congruence. }
    destruct (IH (<[Z.to_nat nb := true]> v) (visits ++ [nb]) (next ++ [nb]))
      as (v' & visits' & next' & Hrun & Hst' & Hin & Hmono).
    { split_and!.
      - rewrite Hvis. by rewrite <- app_assoc.
      - by rewrite len_insert.
      - intros u Hu. rewrite elem_of_app, list_elem_of_singleton.
        destruct (decide (u = nb)) as [->|Hne].
        + rewrite list_lookup_insert_eq; [tauto|]. unfold len in *. lia.
        + rewrite list_lookup_insert_ne by lia. rewrite (Hmark u Hu). tauto.
      - apply NoDup_app. split_and!; [done| |apply NoDup_singleton].
        intros u Hu ->%list_elem_of_singleton. done.
      - intros u [Hu| ->%list_elem_of_singleton]%elem_of_app; [by apply Hrange|done].
      - intros u [Hu| ->%list_elem_of_singleton]%elem_of_app; [by apply Hnext|].
        split.
        + apply hops_S with w; [apply Hw|done].
        + intros j Hj Hh. apply Hfresh. rewrite Hvis. apply elem_of_app. left.
          apply (HB j); [lia|done]. }
    { intros t Ht. apply Htos. by right. }
    exists v', visits', next'. split_and!; [done..| |].
    + intros t [->|Ht]%elem_of_cons; [|by apply Hin].
      apply Hmono. apply elem_of_app. right. by left.
    + intros u Hu. apply Hmono. apply elem_of_app. by left.
Qed.

Lemma bfs_frontier_spec k V F v visits next :
  (∀ w, w ∈ F → dist g s w k) →
  (∀ j u, (j ≤ k)%nat → hops g s j u → u ∈ V) →
  bfs_state g s k V v visits next →
  ∃ v' visits' next',
    bfs_frontier g F v visits next = Ret (v', visits', next') ∧
    bfs_state g s k V v' visits' next' ∧
    (∀ w t, w ∈ F → edge g w t → t ∈ visits') ∧
    (∀ u, u ∈ visits → u ∈ visits').
Proof.
  intros HF HB. revert v visits next.
  induction F as [|w F IH]; intros v visits next Hst.
  { exists v, visits, next. split_and!; [done..| |done]. by intros w t ?%elem_of_nil. }
  assert (dist g s w k) as Hw by (apply HF; left).
  assert (0 ≤ w < len g) as Hwr.
  { destruct Hst as (Hvis & _ & _ & _ & Hrange & _).
    apply Hrange. rewrite Hvis. apply elem_of_app. left.
    apply (HB k); [lia|apply Hw]. }
  destruct (at_in_range g w Hwr) as (tos & Hg & Hat).
  simpl. rewrite Hat. simpl.
  destruct (bfs_arcs_spec k V w tos v visits next)
    as (v1 & visits1 & next1 & -> & Hst1 & Hin1 & Hmono1); [done..| |].
  { intros t Ht. split; [lia|]. by exists tos. }
  simpl. destruct (IH (λ w' Hw', HF w' (list_elem_of_further _ _ _ Hw')) v1 visits1 next1 Hst1)
    as (v' & visits' & next' & Hrun & Hst' & Hin & Hmono).
  exists v', visits', next'. split_and!; [done..| |by auto].
  intros w' t [->|Hw']%elem_of_cons Hedge; [|by eapply Hin].
  apply Hmono, Hin1. destruct Hedge as (_ & tos' & Hg' & Ht).
  rewrite Hg in Hg'. by injection Hg' as <-.
Qed.

Lemma hops_S_inv k u :
  hops g s (S k) u → ∃ w, hops g s k w ∧ edge g w u.
Proof. intros Hh. inversion Hh as [|? w ? Hw He]; subst. by exists w. Qed.

Lemma bfs_level_closed k V :
  bfs_level g s k V [] → ∀ j u, hops g s j u → u ∈ V.
Proof.
  intros (HA & HB & HC & _) j u Hh. induction Hh as [|j w u Hw IH He].
  - apply (HB 0%nat); [lia|constructor].
  - destruct (HA w IH) as (j' & Hj' & Hd).
    destruct (decide (j' = k)) as [->|Hne].
    + apply HC in Hd. by apply elem_of_nil in Hd.
    + apply (HB (S j')); [lia|]. apply hops_S with w; [apply Hd|done].
Qed.

Lemma bfs_level_next k V F v' visits' next' :
  bfs_level g s k V F →
  bfs_state g s k V v' visits' next' →
  (∀ w t, w ∈ F → edge g w t → t ∈ visits') →
  bfs_level g s (S k) visits' next' ∧ bfs_state g s (S k) visits' v' visits' [].
Proof.
  intros (HA & HB & HC & HD) (Hvis & Hlen & Hmark & Hnd & Hrange & Hnext) Hexp.
  assert (∀ u, u ∈ visits' → ∃ j, (j ≤ S k)%nat ∧ dist g s u j) as HA'.
  { intros u. rewrite Hvis. intros [Hu|Hu]%elem_of_app.
    - destruct (HA u Hu) as (j & Hj & Hd). exists j. split; [lia|done].
    - exists (S k). split; [lia|]. by apply Hnext. }
  assert (∀ j u, (j ≤ S k)%nat → hops g s j u → u ∈ visits') as HB'.
  { intros j u Hj Hh. destruct (decide (j ≤ k)%nat) as [Hle|Hgt].
    { rewrite Hvis. apply elem_of_app. left. by apply (HB j). }
    assert (j = S k) as -> by lia.
    apply hops_S_inv in Hh as (w & Hw & He).
    destruct (HA w) as (j' & Hj' & Hd); [by apply (HB k)|].
    destruct (decide (j' = k)) as [->|Hne].
    - apply (Hexp w); [by apply HC|done].
    - rewrite Hvis. apply elem_of_app. left.
      apply (HB (S j')); [lia|]. apply hops_S with w; [apply Hd|done]. }
  split; [split_and!|split_and!]; try done.
  - intros u. split; [by apply Hnext|]. intros Hd.
    assert (u ∈ visits') as Hu by (apply (HB' (S k)); [lia|apply Hd]).
    rewrite Hvis in Hu. apply elem_of_app in Hu as [Hu|Hu]; [|done].
    destruct (HA u Hu) as (j & Hj & Hd').
    pose proof (dist_unique _ _ _ Hd Hd'). lia.
  - intros a b ka kb i j Ha Hb Hlt. rewrite Hvis. intros Hi Hj.
    destruct (decide (i < length V)%nat) as [Hi'|Hi'].
    + destruct (decide (j < length V)%nat) as [Hj'|Hj']; [|lia].
      rewrite lookup_app_l in Hi, Hj by done. by apply (HD a b ka kb).
    + rewrite lookup_app_r in Hi by lia.
      apply list_elem_of_lookup_2, Hnext in Hi.
      pose proof (dist_unique _ _ _ Ha Hi). subst ka.
      destruct (decide (j < length V)%nat) as [Hj'|Hj'].
      * rewrite lookup_app_l in Hj by done.
        apply list_elem_of_lookup_2, HA in Hj as (j' & Hj'' & Hd).
        pose proof (dist_unique _ _ _ Hb Hd). lia.
      * rewrite lookup_app_r in Hj by lia.
        apply list_elem_of_lookup_2, Hnext in Hj.
        pose proof (dist_unique _ _ _ Hb Hj). lia.
  - by rewrite app_nil_r.
  - by intros u ?%elem_of_nil.
Qed.

Lemma bfs_loop_spec fuel k V F v :
  bfs_level g s k V F → bfs_state g s k V v V [] →
  (1 ≤ fuel)%nat → (F ≠ [] → (length g + 2 ≤ fuel + length V)%nat) →
  ∃ visits ext,
    bfs_loop fuel g F v V [] = Ret visits ∧ visits = V ++ ext ∧
    NoDup visits ∧ (∀ u, u ∈ visits ↔ reachable g s u) ∧
    (∀ a b ka kb (i j : nat), dist g s a ka → dist g s b kb → (ka < kb)%nat →
       visits !! i = Some a → visits !! j = Some b → (i < j)%nat).
Proof.
  revert k V F v. induction fuel as [|fuel IH]; intros k V F v Hlev Hst Hf1 Hf2; [lia|].
  simpl. destruct F as [|w F].
  - simpl. exists V, []. rewrite app_nil_r.
    destruct Hst as (_ & _ & _ & Hnd & _).
    split_and!; [done..| |apply Hlev].
    intros u. split.
    + intros Hu. destruct Hlev as (HA & _). destruct (HA u Hu) as (j & _ & Hd).
      exists j. apply Hd.
    + intros [j Hj]. by eapply bfs_level_closed.
  - assert (0 <? len (w :: F) = true) as ->
      by (apply Z.ltb_lt; unfold len; simpl; lia).
    destruct (bfs_frontier_spec k V (w :: F) v V [])
      as (v' & visits' & next' & Hrun & Hst' & Hexp & Hmono); [| |done|].
    { intros u Hu. by apply Hlev. }
    { apply Hlev. }
    rewrite Hrun. simpl.
    destruct (bfs_level_next k V (w :: F) v' visits' next' Hlev Hst' Hexp)
      as [Hlev' Hst''].
    destruct Hst as (_ & _ & _ & HndV & HrV & _).
    pose proof (NoDup_nodes_length (length g) V HndV) as HlenV.
    destruct Hst' as (Hvis & _).
    destruct (IH (S k) visits' next' v' Hlev' Hst'')
      as (visits & ext & Hloop & Hext & Hres).
    + specialize (Hf2 ltac:(done)). specialize (HlenV HrV). lia.
    + intros Hne. specialize (Hf2 ltac:(done)).
      rewrite Hvis, length_app. destruct next'; [done|]. simpl. lia.
    + exists visits, (next' ++ ext). split_and!; [done| |apply Hres..].
      by rewrite Hext, Hvis, <- app_assoc.
Qed.

(** C6. On a graph whose arc targets lie in [0, N), from a start node
    [s < N], [BreadthFirstTraverse] calls [visit] exactly once on every
    node reachable from [s] and on no other node, on [s] first, and on
    no node before a node that is strictly closer to [s] in hops. *)
Theorem BreadthFirstTraverse_level_order :
  0 ≤ s < len g →
  ∃ visits, BreadthFirstTraverse g s = Ret visits ∧
    NoDup visits ∧
    (∀ u, u ∈ visits ↔ reachable g s u) ∧
    head visits = Some s ∧
    (∀ a b ka kb (i j : nat), dist g s a ka → dist g s b kb → (ka < kb)%nat →
       visits !! i = Some a → visits !! j = Some b → (i < j)%nat).
Proof.
  intros Hs. unfold BreadthFirstTraverse.
  rewrite set_at_in_range by (by rewrite len_replicate). simpl.
  assert (∀ u, hops g s 0 u → u = s) as H0 by (intros u Hu; by inversion Hu).
  assert (dist g s s 0) as Hd0 by (split; [constructor|lia]).
  destruct (bfs_loop_spec (S (length g)) 0 [s] [s]
              (<[Z.to_nat s := true]> (replicate (length g) false)))
    as (visits & ext & Hloop & Hext & Hnd & Hreach & Hord).
  - split_and!.
    + intros u ->%list_elem_of_singleton. exists 0%nat. by split.
    + intros j u Hj Hh. assert (j = 0%nat) as -> by lia.
      apply list_elem_of_singleton. by apply H0.
    + intros u. rewrite list_elem_of_singleton. split; [by intros ->|].
      intros [Hh _]. by apply H0.
    + intros a b ka kb i j Ha Hb Hlt Hi Hj.
      apply list_elem_of_lookup_2, list_elem_of_singleton in Hi, Hj. subst.
      pose proof (dist_unique _ _ _ Ha Hb). lia.
  - split_and!.
    + done.
    + by rewrite len_insert, len_replicate.
    + intros u Hu. rewrite list_elem_of_singleton.
      destruct (decide (u = s)) as [->|Hne].
      * rewrite list_lookup_insert_eq; [done|]. rewrite length_replicate.
        unfold len in Hs. lia.
      * rewrite list_lookup_insert_ne by lia. split; [|done].
        intros [[=] _]%lookup_replicate.
    + apply NoDup_singleton.
    + by intros u ->%list_elem_of_singleton.
    + by intros u ?%elem_of_nil.
  - lia.
  - intros _. simpl. lia.
  - exists visits. split_and!; [done..| |done]. by rewrite Hext.
Qed.

End TraversalFacts.

Lemma BreadthFirstTraverse_level_order_witness :
  ∃ visits,
    Traversal.BreadthFirstTraverse
      [[1]; [4; 2; 5]; [3; 6]; [2; 7]; [5; 0]; [6]; [5]; [3; 6]] 2 = Ret visits ∧
    NoDup visits ∧ head visits = Some 2.
Proof.
  destruct (BreadthFirstTraverse_level_order
              [[1]; [4; 2; 5]; [3; 6]; [2; 7]; [5; 0]; [6]; [5]; [3; 6]] 2)
    as (visits & Hrun & Hnd & _ & Hhead & _).
  - apply BoundsOkUb_spec. reflexivity.
  - unfold len. simpl. lia.
  - exists visits. exact (conj Hrun (conj Hnd Hhead)).
Defined.

(** ** Ordering engine: Kahn's algorithm *)

Section KahnFacts.
Import Ordering.

Lemma filter_all {A} (P : A → Prop) `{!∀ x, Decision (P x)} (l : list A) :
  (∀ x, x ∈ l → P x) → filter P l = l.
Proof.
  induction l as [|a l IH]; intros Hall; [done|].
  rewrite filter_cons_True by (apply Hall; left).
  f_equal. apply IH. intros x Hx. apply Hall. by right.
Qed.

Lemma filter_none {A} (P : A → Prop) `{!∀ x, Decision (P x)} (l : list A) :
  (∀ x, x ∈ l → ¬ P x) → filter P l = [].
Proof.
  induction l as [|a l IH]; intros Hall; [done|].
  rewrite filter_cons_False by (apply Hall; left).
  apply IH. intros x Hx. apply Hall. by right.
Qed.

Lemma length_filter_split {A} (P Q : A → Prop)
    `{!∀ x, Decision (P x), !∀ x, Decision (Q x)} (l : list A) :
  length (filter P l)
  = (length (filter (λ x, Q x ∧ P x) l)
     + length (filter (λ x, ¬ Q x ∧ P x) l))%nat.
Proof.
  rewrite <- !list_filter_filter, <- length_app.
  apply Permutation_length. symmetry. apply filter_app_complement.
Qed.

Lemma length_filter_fmap {A B} (f : A → B) (P : B → Prop)
    `{!∀ y, Decision (P y)} (l : list A) :
  length (filter P (f <$> l)) = length (filter (λ x, P (f x)) l).
Proof.
  induction l as [|a l IH]; [done|]. rewrite fmap_cons, !filter_cons.
  destruct (decide (P (f a))); simpl; by rewrite IH.
Qed.

(** The arcs that leave [n], as the scan lists them. *)
Lemma arcs_from_source fr g n tos :
  fr ≤ n → g !! Z.to_nat (n - fr) = Some tos →
  filter (λ a, a.1 = n) (arcs_from fr g) = (λ h, (n, To h)) <$> tos.
Proof.
  revert fr. induction g as [|tos0 g IH]; intros fr Hle Hg; [done|].
  simpl. rewrite filter_app. destruct (decide (n = fr)) as [->|Hne].
  - rewrite Z.sub_diag in Hg. injection Hg as ->.
    rewrite filter_all, filter_none.
    + by rewrite app_nil_r.
    + intros [u v] (Hu & _)%elem_of_arcs_from. simpl. lia.
    + by intros [u v] (h & [= -> _] & _)%list_elem_of_fmap.
  - rewrite filter_none.
    + simpl. apply IH; [lia|].
      replace (Z.to_nat (n - fr)) with (S (Z.to_nat (n - (fr + 1)))) in Hg by lia.
      done.
    + intros [u v] (h & [= -> _] & _)%list_elem_of_fmap. simpl. lia.
Qed.

Lemma arcs_source g n tos :
  0 ≤ n → g !! Z.to_nat n = Some tos →
  filter (λ a, a.1 = n) (arcs g) = (λ h, (n, To h)) <$> tos.
Proof. intros Hn Hg. apply arcs_from_source; [done|]. by rewrite Z.sub_0_r. Qed.

(** Adding [n] to [L] takes the arcs that leave [n] out of the count. *)
Lemma indeg_rem_snoc g L n tos v :
  0 ≤ n → g !! Z.to_nat n = Some tos → n ∉ L →
  indeg_rem g L v = (indeg_rem g (L ++ [n]) v + into tos v)%nat.
Proof.
  intros Hn Hg HnL. unfold indeg_rem, into.
  rewrite (length_filter_split _ (λ a, a.1 = n)). rewrite Nat.add_comm. f_equal.
  - f_equal. apply list_filter_iff. intros [u w]. simpl.
    rewrite elem_of_app, list_elem_of_singleton. tauto.
  - assert (filter (λ a, a.1 = n ∧ a.2 = v ∧ a.1 ∉ L) (arcs g)
            = filter (λ a, a.2 = v) (filter (λ a, a.1 = n) (arcs g))) as ->.
    { rewrite list_filter_filter. apply list_filter_iff. intros [u w]. simpl.
      split; [tauto|]. intros [-> ->]. done. }
    rewrite (arcs_source g n tos Hn Hg). by rewrite length_filter_fmap.
Qed.

Lemma indeg_rem_nil g v : indeg_rem g [] v = length (filter (λ a, a.2 = v) (arcs g)).
Proof.
  unfold indeg_rem. f_equal. apply list_filter_iff. intros a.
  split; [tauto|]. intros ->. split; [done|]. by intros ?%elem_of_nil.
Qed.

Lemma unlabeled_lookup (tr : list (list Z)) k fr :
  tr !! k = Some fr → unlabeled tr !! k = Some ((λ t, mkHalf t 0) <$> fr).
Proof. intros H. unfold unlabeled. by rewrite list_lookup_fmap, H. Qed.

(** The in-degree of [v] in [g] is the length of the arc list of [v] in
    the transpose. *)
Lemma IsTranspose_indegree g tr v fr :
  IsTranspose g tr → 0 ≤ v → tr !! Z.to_nat v = Some fr →
  indeg_rem g [] v = length fr.
Proof.
  intros [_ Hperm] Hv Hfr. rewrite indeg_rem_nil.
  transitivity (length (filter (λ a : Z * Z, a.1 = v) ((λ a, (a.2, a.1)) <$> arcs g))).
  { by rewrite length_filter_fmap. }
  rewrite <- Hperm. unfold arcsU.
  rewrite (arcs_source _ v _ Hv (unlabeled_lookup _ _ _ Hfr)).
  by rewrite !length_fmap.
Qed.

Lemma pop_None {A} (l : list A) : pop l = None ↔ l = [].
Proof.
  destruct l as [|a l]; [done|]. simpl.
  by destruct (pop l) as [[r z]|].
Qed.

Lemma pop_Some {A} (l r : list A) (z : A) : pop l = Some (r, z) → l = r ++ [z].
Proof.
  revert r. induction l as [|a l IH]; intros r; [done|]. simpl.
  destruct (pop l) as [[r' z']|] eqn:Hp.
  - intros [= <- <-]. by rewrite (IH r' eq_refl).
  - intros [= <- <-]. apply pop_None in Hp. by subst.
Qed.

Lemma into_cons m todo v :
  into (m :: todo) v = ((if decide (To m = v) then 1 else 0) + into todo v)%nat.
Proof. unfold into. rewrite filter_cons. by destruct (decide (To m = v)). Qed.

Lemma kahn_arcs_spec g L todo S0 rem :
  kahn_inv g L S0 rem todo → (∀ h, h ∈ todo → 0 ≤ To h < len g) →
  ∃ S1 rem', kahn_arcs todo S0 rem = Ret (S1, rem') ∧ kahn_inv g L S1 rem' [].
Proof.
  revert S0 rem. induction todo as [|m todo IH]; intros S0 rem Hinv Hr.
  { by exists S0, rem. }
  destruct Hinv as [Hlen Hrem Hnd Hrange Hzero Hord].
  assert (0 ≤ To m < len g) as Hm by (apply Hr; left).
  pose proof (Hrem (To m) Hm) as Hrm.
  rewrite into_cons, decide_True in Hrm by done.
  set (k := (indeg_rem g L (To m) + into todo (To m))%nat).
  assert (rem !! Z.to_nat (To m) = Some (Z.of_nat k + 1)) as Hrm2.
  { rewrite Hrm. f_equal. unfold k. lia. }
  cbn [kahn_arcs]. rewrite (at_lookup _ _ _ (proj1 Hm) Hrm2). cbn [bindR].
  assert (0 <? Z.of_nat k + 1 = true) as -> by (apply Z.ltb_lt; lia).
  rewrite set_at_in_range by lia. cbn [bindR].
  replace (Z.of_nat k + 1 - 1) with (Z.of_nat k) by lia.
  set (rem' := <[Z.to_nat (To m) := Z.of_nat k]> rem).
  assert (rem' !! Z.to_nat (To m) = Some (Z.of_nat k)) as Hrm'.
  { unfold rem'. apply list_lookup_insert_eq. unfold len in *. lia. }
  rewrite (at_lookup _ _ _ (proj1 Hm) Hrm'). cbn [bindR].
  assert (To m ∉ L ++ S0) as Hfresh.
  { intros Hin. apply (Hzero _ Hm) in Hin.
    rewrite into_cons, decide_True in Hin by done. lia. }
  assert (∀ v, 0 ≤ v < len g →
            rem' !! Z.to_nat v = Some (Z.of_nat (indeg_rem g L v + into todo v)))
    as Hrem'.
  { intros v Hv. destruct (decide (v = To m)) as [->|Hne]; [done|].
    unfold rem'. rewrite list_lookup_insert_ne by lia.
    rewrite (Hrem v Hv), into_cons, decide_False by done. done. }
  assert (∀ v, 0 ≤ v < len g → v ≠ To m →
            (v ∈ L ++ S0 ↔ (indeg_rem g L v + into todo v = 0)%nat)) as Hzero'.
  { intros v Hv Hne. rewrite (Hzero v Hv), into_cons, decide_False by done. done. }
  assert (∀ h, h ∈ todo → 0 ≤ To h < len g) as Hr'
    by (intros h Hh; apply Hr; by right).
  destruct (Z.eqb_spec (Z.of_nat k) 0) as [Hz|Hnz]; unfold k in *.
  - apply IH; [|done]. split; try done.
    + unfold rem'. by rewrite len_insert.
    + rewrite app_assoc. apply NoDup_app. split_and!; [done| |apply NoDup_singleton].
      by intros v Hv ->%list_elem_of_singleton.
    + rewrite app_assoc. intros v [Hv| ->%list_elem_of_singleton]%elem_of_app;
        [by apply Hrange|done].
    + intros v Hv. rewrite app_assoc, elem_of_app, list_elem_of_singleton.
      destruct (decide (v = To m)) as [->|Hne].
      * split; [lia|by right].
      * rewrite (Hzero' v Hv Hne). split; [by intros [?|?]|by left].
  - apply IH; [|done]. split; try done.
    + unfold rem'. by rewrite len_insert.
    + intros v Hv. destruct (decide (v = To m)) as [->|Hne].
      * split; [done|lia].
      * by apply Hzero'.
Qed.

Lemma kahn_sorted_snoc g L n :
  kahn_sorted g L → (∀ u, arc g u n → u ∈ L) → kahn_sorted g (L ++ [n]).
Proof.
  intros Hs Hn l1 v l2 u Hl Huv.
  destruct l2 as [|z l2 _] using rev_ind.
  - apply app_inj_tail in Hl as [-> ->]. by apply Hn.
  - change (l1 ++ v :: l2 ++ [z]) with (l1 ++ (v :: l2) ++ [z]) in Hl.
    rewrite app_assoc in Hl. apply app_inj_tail in Hl as [-> _].
    by eapply Hs.
Qed.

Lemma indeg_rem_0 g L v u :
  indeg_rem g L v = 0%nat → arc g u v → u ∈ L.
Proof.
  intros Hz Huv. apply length_zero_iff_nil in Hz.
  destruct (decide (u ∈ L)) as [|Hu]; [done|].
  apply elem_of_arcs in Huv.
  destruct (filter_nil_not_elem_of _ _ (u, v) Hz); done.
Qed.

Lemma indeg_rem_pos g L v :
  indeg_rem g L v ≠ 0%nat → ∃ u, arc g u v ∧ u ∉ L.
Proof.
  unfold indeg_rem. intros Hnz.
  destruct (filter _ (arcs g)) as [|[u w] l] eqn:Hf; [done|].
  assert ((u, w) ∈ filter (λ a, a.2 = v ∧ a.1 ∉ L) (arcs g)) as Hin
    by (rewrite Hf; left).
  apply list_elem_of_filter in Hin as [[Hw Hu] Hin]. simpl in *. subst w.
  exists u. split; [by apply elem_of_arcs|done].
Qed.

Lemma kahn_loop_spec g fuel L S0 rem :
  BoundsOk g → kahn_inv g L S0 rem [] →
  (length g + 1 ≤ fuel + length L)%nat →
  ∃ L' rem', kahn_loop fuel g L S0 rem = Ret (L', rem') ∧
             kahn_inv g L' [] rem' [].
Proof.
  intros Hb. revert L S0 rem.
  induction fuel as [|fuel IH]; intros L S0 rem Hinv Hfuel.
  { destruct Hinv as [_ _ Hnd Hrange _ _].
    apply NoDup_app in Hnd as (Hnd & _ & _).
    pose proof (NoDup_nodes_length (length g) L Hnd) as Hle.
    assert (length L ≤ length g)%nat; [|lia].
    apply Hle. intros v Hv. apply Hrange, elem_of_app. by left. }
  simpl. destruct (pop S0) as [[S1 n]|] eqn:Hpop.
  2:{ apply pop_None in Hpop as ->. by exists L, rem. }
  apply pop_Some in Hpop as ->.
  destruct Hinv as [Hlen Hrem Hnd Hrange Hzero Hord].
  assert (0 ≤ n < len g) as Hn.
  { apply Hrange. rewrite !elem_of_app, list_elem_of_singleton. tauto. }
  destruct (at_in_range g n Hn) as (tos & Hg & ->). simpl.
  assert (n ∉ L) as HnL.
  { apply NoDup_app in Hnd as (_ & Hdis & _). intros Hin.
    apply (Hdis n Hin). rewrite elem_of_app, list_elem_of_singleton. tauto. }
  assert (indeg_rem g L n = 0%nat) as Hn0.
  { assert (n ∈ L ++ S1 ++ [n]) as Hin
      by (rewrite !elem_of_app, list_elem_of_singleton; tauto).
    apply (Hzero n Hn) in Hin. lia. }
  destruct (kahn_arcs_spec g (L ++ [n]) tos S1 rem)
    as (S2 & rem' & -> & Hinv').
  { split.
    - done.
    - intros v Hv. rewrite (Hrem v Hv). do 2 f_equal.
      rewrite (indeg_rem_snoc g L n tos v); [|lia|done..].
      unfold into at 2. simpl. lia.
    - rewrite <- app_assoc. by rewrite (Permutation_app_comm [n] S1).
    - intros v Hv. apply Hrange. rewrite <- app_assoc in Hv.
      by rewrite (Permutation_app_comm S1 [n]).
    - intros v Hv. rewrite <- (indeg_rem_snoc g L n tos v); [|lia|done..].
      specialize (Hzero v Hv). unfold into in Hzero. simpl in Hzero.
      rewrite Nat.add_0_r in Hzero. rewrite <- Hzero.
      rewrite !elem_of_app, list_elem_of_singleton. tauto.
    - apply kahn_sorted_snoc; [done|]. intros u. by apply indeg_rem_0. }
  { intros h Hh. apply (Hb tos h); [|done]. by eapply list_elem_of_lookup_2. }
  simpl. apply IH; [done|]. rewrite length_app. simpl. lia.
Qed.

Lemma kahn_init_spec tr tr1 tr2 S0 rem :
  tr = tr1 ++ tr2 → len rem = len tr → NoDup S0 →
  (∀ v, v ∈ S0 ↔ 0 ≤ v < len tr1 ∧ tr !! Z.to_nat v = Some []) →
  (∀ v fr, 0 ≤ v → tr !! Z.to_nat v = Some fr →
     rem !! Z.to_nat v = Some (if decide (v < len tr1) then len fr else 0)) →
  ∃ S1 rem', kahn_init (len tr1) tr2 S0 rem = Ret (S1, rem') ∧
    len rem' = len tr ∧ NoDup S1 ∧
    (∀ v, v ∈ S1 ↔ 0 ≤ v < len tr ∧ tr !! Z.to_nat v = Some []) ∧
    (∀ v fr, 0 ≤ v → tr !! Z.to_nat v = Some fr →
       rem' !! Z.to_nat v = Some (len fr)).
Proof.
  revert tr1 S0 rem. induction tr2 as [|fr tr2 IH];
    intros tr1 S0 rem Htr Hlen Hnd HS Hrem.
  { rewrite app_nil_r in Htr. subst tr1. exists S0, rem.
    split_and!; [done..|]. intros v fr' Hv Hfr. rewrite (Hrem v fr' Hv Hfr).
    apply lookup_lt_Some in Hfr. rewrite decide_True; [done|unfold len; lia]. }
  assert (tr !! Z.to_nat (len tr1) = Some fr) as Hfr.
  { rewrite Htr. unfold len. rewrite Nat2Z.id. by apply list_lookup_middle. }
  assert (len (tr1 ++ [fr]) = len tr1 + 1) as Hlen1
    by (unfold len; rewrite length_app; simpl; lia).
  assert (tr = (tr1 ++ [fr]) ++ tr2) as Htr' by (by rewrite <- app_assoc).
  pose proof (len_nonneg tr1) as H0.
  assert (len tr1 < len tr) as Hlt.
  { apply lookup_lt_Some in Hfr. unfold len in *. lia. }
  cbn [kahn_init]. destruct (Z.eqb_spec (len fr) 0) as [Hz|Hnz].
  - assert (fr = []) as -> by (destruct fr; [done|unfold len in Hz; simpl in Hz; lia]).
    rewrite <- Hlen1. apply IH; [done..| | |].
    + apply NoDup_app. split_and!; [done| |apply NoDup_singleton].
      intros v [Hv _]%HS ->%list_elem_of_singleton. lia.
    + intros v. rewrite elem_of_app, list_elem_of_singleton, HS, Hlen1.
      split.
      * intros [[Hv Hl]| ->]; [split; [lia|done]|split; [lia|done]].
      * intros [Hv Hl]. destruct (decide (v = len tr1)) as [->|Hne]; [by right|].
        left. split; [lia|done].
    + intros v fr' Hv Hfr'. rewrite (Hrem v fr' Hv Hfr'), Hlen1.
      destruct (decide (v = len tr1)) as [->|Hne].
      * rewrite Hfr in Hfr'. injection Hfr' as <-.
        rewrite decide_False, decide_True by lia. done.
      * destruct (decide (v < len tr1)).
        -- by rewrite decide_True by lia.
        -- by rewrite decide_False by lia.
  - rewrite set_at_in_range by lia. cbn [bindR].
    rewrite <- Hlen1. apply IH; [done|by rewrite len_insert|done| |].
    + intros v. rewrite HS, Hlen1. split.
      * intros [Hv Hl]. split; [lia|done].
      * intros [Hv Hl]. split; [|done].
        destruct (decide (v = len tr1)) as [->|Hne]; [|lia].
        rewrite Hfr in Hl. injection Hl as ->. done.
    + intros v fr' Hv Hfr'. rewrite Hlen1.
      destruct (decide (v = len tr1)) as [->|Hne].
      * rewrite Hfr in Hfr'. injection Hfr' as <-.
        rewrite list_lookup_insert_eq by (unfold len in *; lia).
        by rewrite decide_True by lia.
      * rewrite list_lookup_insert_ne by lia. rewrite (Hrem v fr' Hv Hfr').
        destruct (decide (v < len tr1)).
        -- by rewrite decide_True by lia.
        -- by rewrite decide_False by lia.
Qed.

Lemma kahn_inv_init g tr :
  IsTranspose g tr →
  ∃ S0 rem, kahn_init 0 tr [] (replicate (length g) 0) = Ret (S0, rem) ∧
            kahn_inv g [] S0 rem [].
Proof.
  intros Htr. pose proof Htr as [Hlen _].
  destruct (kahn_init_spec tr [] tr [] (replicate (length g) 0))
    as (S0 & rem & Hrun & Hlen' & Hnd & HS & Hrem).
  - done.
  - rewrite len_replicate. unfold len. lia.
  - apply NoDup_nil_2.
  - intros v. split; [by intros ?%elem_of_nil|]. unfold len. simpl. lia.
  - intros v fr Hv Hfr. apply lookup_lt_Some in Hfr.
    rewrite lookup_replicate_2 by lia. by rewrite decide_False by (unfold len; simpl; lia).
  - exists S0, rem. split; [done|].
    assert (len tr = len g) as Hl by (unfold len; lia).
    assert (∀ v, 0 ≤ v < len g → ∃ fr, tr !! Z.to_nat v = Some fr ∧
              indeg_rem g [] v = length fr) as Hdeg.
    { intros v Hv. destruct (lookup_lt_is_Some_2 tr (Z.to_nat v)) as [fr Hfr];
        [unfold len in *; lia|].
      exists fr. split; [done|]. apply (IsTranspose_indegree g tr); [done|lia|done]. }
    split.
    + congruence.
    + intros v Hv. destruct (Hdeg v Hv) as (fr & Hfr & ->).
      rewrite (Hrem v fr) by (done || lia). unfold into, len. simpl.
      by rewrite Nat.add_0_r.
    + done.
    + intros v Hv%HS. lia.
    + intros v Hv. simpl. rewrite HS. destruct (Hdeg v Hv) as (fr & Hfr & ->).
      unfold into. simpl. rewrite Nat.add_0_r, Hfr. split.
      * by intros [_ [= ->]].
      * intros ->%length_zero_iff_nil. split; [lia|done].
    + intros l1 v l2 u Hl1. by destruct l1.
Qed.

Lemma kahn_live_spec tos rem :
  (∀ h, h ∈ tos → 0 ≤ To h < len rem) →
  ∃ b, kahn_live tos rem = Ret b ∧
       (b = true ↔ ∃ h r, h ∈ tos ∧ rem !! Z.to_nat (To h) = Some r ∧ 0 < r).
Proof.
  induction tos as [|nb tos IH]; intros Hr.
  { exists false. split; [done|]. split; [done|]. by intros (h & r & ?%elem_of_nil & _). }
  destruct (at_in_range rem (To nb)) as (r & Hl & Hat); [apply Hr; left|].
  cbn [kahn_live]. rewrite Hat. cbn [bindR].
  destruct (Z.ltb_spec 0 r) as [Hpos|Hle].
  - exists true. split; [done|]. split; [|done]. intros _. exists nb, r.
    split_and!; [left|done..].
  - destruct IH as (b & Hrun & Hb); [intros h Hh; apply Hr; by right|].
    exists b. split; [done|]. rewrite Hb. split.
    + intros (h & r' & Hh & Hr'). exists h, r'. split; [by right|done].
    + intros (h & r' & [->|Hh]%elem_of_cons & Hl' & Hr').
      * rewrite Hl in Hl'. injection Hl' as <-. lia.
      * by exists h, r'.
Qed.

Lemma kahn_cycle_spec g rem c ins acc :
  BoundsOk g → len rem = len g → 0 ≤ c → ins = drop (Z.to_nat c) rem →
  ∃ cyc, kahn_cycle g c ins rem acc = Ret cyc ∧
         ∀ x, x ∈ cyc ↔ x ∈ acc ∨ (c ≤ x ∧ kahn_live_node g rem x).
Proof.
  intros Hb Hlen. revert c acc.
  induction ins as [|in_ ins IH]; intros c acc Hc Hins.
  { exists acc. split; [done|]. intros x. split; [by left|].
    intros [?|[Hx ((_ & Hx') & _)]]; [done|].
    assert (length (drop (Z.to_nat c) rem) = 0%nat) as Hd by (by rewrite <- Hins).
    rewrite length_drop in Hd. unfold len in *. lia. }
  assert (rem !! Z.to_nat c = Some in_) as Hin.
  { pose proof (lookup_drop rem (Z.to_nat c) 0) as Hd.
    rewrite <- Hins, Nat.add_0_r in Hd. by rewrite <- Hd. }
  assert (ins = drop (Z.to_nat (c + 1)) rem) as Hins'.
  { replace (Z.to_nat (c + 1)) with (Z.to_nat c + 1)%nat by lia.
    rewrite <- drop_drop, <- Hins. done. }
  assert (0 ≤ c < len g) as Hcr.
  { apply lookup_lt_Some in Hin. unfold len in *. lia. }
  assert (∀ b : bool,
    (b = true ↔ 0 < in_ ∧ ∃ v r, arc g c v ∧ rem !! Z.to_nat v = Some r ∧ 0 < r) →
    ∀ (acc' : list Z) x, (∀ y, y ∈ acc' ↔ y ∈ acc ∨ (b = true ∧ y = c)) →
      (x ∈ acc' ∨ c + 1 ≤ x ∧ kahn_live_node g rem x) ↔
      (x ∈ acc ∨ c ≤ x ∧ kahn_live_node g rem x)) as Hstep.
  { intros b Hb' acc' x Hacc. rewrite Hacc. split.
    - intros [[?|[Hbt ->]]|[? ?]]; [by left| |right; split; [lia|done]].
      right. split; [lia|]. apply Hb' in Hbt as [Hpos Harc].
      split_and!; [lia..| |done]. by exists in_.
    - intros [?|[Hx Hlive]]; [by left; left|].
      destruct (decide (x = c)) as [->|Hne]; [|right; split; [lia|done]].
      left. right. split; [|done]. apply Hb'.
      destruct Hlive as (_ & (r & Hr & Hpos) & Harc).
      rewrite Hin in Hr. injection Hr as <-. done. }
  cbn [kahn_cycle]. destruct (Z.ltb_spec 0 in_) as [Hpos|Hle].
  - destruct (at_in_range g c Hcr) as (tos & Hg & ->). cbn [bindR].
    destruct (kahn_live_spec tos rem) as (b & -> & Hbspec).
    { intros h Hh. rewrite Hlen. apply (Hb tos h); [|done].
      by eapply list_elem_of_lookup_2. }
    cbn [bindR].
    destruct (IH (c + 1) (if b then acc ++ [c] else acc)) as (cyc & Hrun & Hcyc);
      [lia|done|].
    exists cyc. split; [done|]. intros x. rewrite Hcyc.
    apply (Hstep b).
    + rewrite Hbspec. split.
      * intros (h & r & Hh & Hr & Hp). split; [done|]. exists (To h), r.
        split_and!; [|done..]. by apply (arc_of_lookup g c tos); [lia|..].
      * intros (_ & v & r & (_ & tos' & h & Hg' & Hh & <-) & Hr & Hp).
        rewrite Hg in Hg'. injection Hg' as <-. by exists h, r.
    + intros y. destruct b.
      * rewrite elem_of_app, list_elem_of_singleton. tauto.
      * split; [by left|]. by intros [?|[? _]].
  - destruct (IH (c + 1) acc) as (cyc & Hrun & Hcyc); [lia|done|].
    exists cyc. split; [done|]. intros x. rewrite Hcyc.
    apply (Hstep false).
    + split; [done|]. lia.
    + intros y. split; [by left|]. by intros [?|[? _]].
Qed.

Lemma not_NoDup_split (l : list Z) :
  ¬ NoDup l → ∃ l1 x l2 l3, l = l1 ++ x :: l2 ++ x :: l3.
Proof.
  induction l as [|a l IH]; intros Hnd.
  { destruct Hnd. constructor. }
  destruct (decide (a ∈ l)) as [Hin|Hnin].
  - apply list_elem_of_split in Hin as (l2 & l3 & ->). by exists [], a, l2, l3.
  - destruct IH as (l1 & x & l2 & l3 & ->); [intros ?; apply Hnd; by constructor|].
    by exists (a :: l1), x, l2, l3.
Qed.

Lemma path_app g l1 l2 : path g (l1 ++ l2) → path g l1 ∧ path g l2.
Proof.
  induction l1 as [|a l1 IH]; [done|]. intros Hp.
  destruct l1 as [|b l1].
  - split; [done|]. by eapply path_cons.
  - destruct Hp as [Hab Hp]. destruct (IH Hp) as [H1 H2]. by split.
Qed.

(** A non-empty set of nodes in which every node has a predecessor
    holds a cycle. *)
Lemma pred_closed_Cyclic g (R : Z → Prop) :
  (∀ v, R v → 0 ≤ v < len g) →
  (∀ v, R v → ∃ u, R u ∧ arc g u v) →
  (∃ v, R v) → Cyclic g.
Proof.
  intros Hrange Hpred [v0 Hv0].
  assert (∀ k : nat, ∃ l, length l = S k ∧ (∀ x, x ∈ l → R x) ∧ path g l) as Hchain.
  { induction k as [|k (l & Hlen & HR & Hp)].
    - exists [v0]. split_and!; [done| |done]. by intros x ->%list_elem_of_singleton.
    - destruct l as [|h l]; [done|].
      destruct (Hpred h) as (u & Hu & Huh); [apply HR; left|].
      exists (u :: h :: l). split_and!.
      + simpl in *. lia.
      + intros x [->|Hx]%elem_of_cons; [done|by apply HR].
      + by split. }
  destruct (Hchain (length g)) as (l & Hlen & HR & Hp).
  destruct (not_NoDup_split l) as (l1 & x & l2 & l3 & ->).
  { intros Hnd. apply (NoDup_nodes_length (length g)) in Hnd; [lia|].
    intros v Hv. by apply Hrange, HR. }
  apply path_app in Hp as [_ Hp].
  change (x :: l2 ++ x :: l3) with ((x :: l2) ++ x :: l3) in Hp.
  rewrite (cons_middle x (x :: l2) l3), app_assoc in Hp.
  apply path_app in Hp as [Hp _].
  destruct (last (x :: l2)) as [z|] eqn:Hlast; [|by apply last_None in Hlast].
  apply (path_snoc _ _ z) in Hp as [Hp Hz]; [|done].
  exists x. by apply (path_tc g (x :: l2) x z x).
Qed.

Lemma kahn_sorted_tc g L a b :
  kahn_sorted g L → tc (arc g) a b → ∀ l1 l2, L = l1 ++ b :: l2 → a ∈ l1.
Proof.
  intros Hs Htc. induction Htc as [a b Hab|a w b Haw _ IH]; intros l1 l2 HL.
  - by eapply Hs.
  - pose proof (IH l1 l2 HL) as Hw.
    apply list_elem_of_split in Hw as (l3 & l4 & ->).
    rewrite <- app_assoc in HL. simpl in HL.
    pose proof (Hs _ _ _ _ HL Haw). set_solver.
Qed.

Lemma tc_cycle_step g u :
  tc (arc g) u u → ∃ u', arc g u u' ∧ tc (arc g) u' u'.
Proof.
  intros Htc. inversion Htc as [? ? Ha|? w ? Ha Hw]; subst.
  - by exists u.
  - exists w. split; [done|]. by eapply tc_r.
Qed.

Lemma kahn_run_spec g tr :
  BoundsOk g → IsTranspose g tr →
  ∃ L rem, kahn_run g tr = Ret (L, rem) ∧ kahn_inv g L [] rem [].
Proof.
  intros Hb Htr. unfold kahn_run.
  destruct (kahn_inv_init g tr Htr) as (S0 & rem & -> & Hinv). cbn [bindR].
  apply kahn_loop_spec; [done..|]. simpl. lia.
Qed.

(** What is left when the frontier is exhausted: the nodes outside [L]
    are those with a positive count, and each has a predecessor
    outside [L]. *)
Lemma kahn_final_rem g L rem v :
  kahn_inv g L [] rem [] → 0 ≤ v < len g →
  ∃ r, rem !! Z.to_nat v = Some r ∧ 0 ≤ r ∧ (v ∈ L ↔ r = 0) ∧
       (r ≠ 0 → ∃ u, arc g u v ∧ u ∉ L).
Proof.
  intros [_ Hrem _ _ Hzero _] Hv.
  specialize (Hrem v Hv). specialize (Hzero v Hv).
  unfold into in *. simpl in *. rewrite Nat.add_0_r, app_nil_r in *.
  eexists. split; [done|]. split_and!; [lia| |].
  - rewrite Hzero. lia.
  - intros Hr. apply indeg_rem_pos. lia.
Qed.

(** A node on a cycle never enters [L]. *)
Lemma kahn_cycle_node_out g L u :
  kahn_sorted g L → NoDup L → tc (arc g) u u → u ∉ L.
Proof.
  intros Hs Hnd Htc Hin.
  apply list_elem_of_split in Hin as (l1 & l2 & ->).
  pose proof (kahn_sorted_tc g _ u u Hs Htc l1 l2 eq_refl) as Hu.
  apply NoDup_app in Hnd as (_ & Hdis & _). apply (Hdis u Hu). left.
Qed.

(** C3, amended. For a graph [g] whose arcs stay in bounds and its
    transpose [tr]: if [g] is acyclic, [TopologicalKahn] returns an
    ordering that holds the [N] nodes, the source of every arc before
    its target, and an empty cycle; if [g] has a cycle, it returns an
    empty ordering and a non-empty cycle that consists exactly of the
    nodes whose count in [rem] is positive when the frontier is
    exhausted and that have an arc to a node, itself or another, whose
    count is positive. *)
Theorem TopologicalKahn_orders_or_reports g tr :
  BoundsOk g → IsTranspose g tr →
  (Acyclic g →
     ∃ L, TopologicalKahn g tr = Ret (L, []) ∧
       L ≡ₚ node_range (length g) ∧
       ∀ u v (i j : nat), arc g u v →
         L !! i = Some u → L !! j = Some v → (i < j)%nat) ∧
  (Cyclic g →
     ∃ L rem cyc, kahn_run g tr = Ret (L, rem) ∧
       TopologicalKahn g tr = Ret ([], cyc) ∧ cyc ≠ [] ∧
       ∀ c, c ∈ cyc ↔ kahn_live_node g rem c).
Proof.
  intros Hb Htr.
  destruct (kahn_run_spec g tr Hb Htr) as (L & rem & Hrun & Hinv).
  destruct (kahn_cycle_spec g rem 0 rem [] Hb (kahn_len _ _ _ _ _ Hinv))
    as (cyc & Hcyc & Hmem); [done..|].
  assert (∀ c, c ∈ cyc ↔ kahn_live_node g rem c) as Hmem'.
  { intros c. rewrite Hmem. split.
    - by intros [?%elem_of_nil|[_ ?]].
    - intros Hl. right. split; [apply Hl|done]. }
  pose proof (kahn_nodup _ _ _ _ _ Hinv) as Hnd. rewrite app_nil_r in Hnd.
  pose proof (kahn_order _ _ _ _ _ Hinv) as Hord.
  unfold TopologicalKahn. rewrite Hrun. cbn [bindR]. rewrite Hcyc. cbn [bindR].
  split.
  - intros Hac.
    assert (∀ v, 0 ≤ v < len g → v ∈ L) as Hall.
    { intros v Hv. destruct (decide (v ∈ L)) as [|Hout]; [done|].
      destruct Hac. apply (pred_closed_Cyclic g (λ w, 0 ≤ w < len g ∧ w ∉ L)).
      - by intros w [? _].
      - intros w [Hw HwL].
        destruct (kahn_final_rem g L rem w Hinv Hw) as (r & _ & _ & Hz & Hpred).
        destruct Hpred as (u & Huw & Hu); [by rewrite <- Hz|].
        exists u. split; [|done]. split; [|done]. by apply (arc_bounds g u w).
      - by exists v. }
    assert (cyc = []) as ->.
    { destruct cyc as [|c cyc]; [done|].
      assert (kahn_live_node g rem c) as (Hc & (r & Hr & Hpos) & _)
        by (apply Hmem'; left).
      destruct (kahn_final_rem g L rem c Hinv Hc) as (r' & Hr' & _ & Hz & _).
      rewrite Hr in Hr'. injection Hr' as <-.
      apply Hz in Hall; [lia|done]. }
    exists L. split_and!; [done| |].
    + apply NoDup_nodes_Permutation; [done|]. intros v. split.
      * intros Hv. pose proof (kahn_range _ _ _ _ _ Hinv v) as Hr.
        rewrite app_nil_r in Hr. specialize (Hr Hv). unfold len in Hr. lia.
      * intros Hv. apply Hall. unfold len. lia.
    + intros u v i j Huv Hi Hj.
      pose proof (take_drop_middle L j v Hj) as Hsplit. symmetry in Hsplit.
      pose proof (Hord _ _ _ _ Hsplit Huv) as Hu.
      apply list_elem_of_lookup in Hu as [k Hk].
      pose proof (lookup_lt_Some _ _ _ Hk) as Hlt. rewrite length_take in Hlt.
      rewrite lookup_take_lt in Hk by lia.
      assert (i = k) as -> by (by eapply NoDup_lookup). lia.
  - intros [u Hu].
    assert (∀ w, tc (arc g) w w → ∃ r, rem !! Z.to_nat w = Some r ∧ 0 < r) as Hpos.
    { intros w Hw. destruct (tc_cycle_step g w Hw) as (w' & Hww' & _).
      destruct (arc_bounds g w w' Hb Hww') as [Hwr _].
      destruct (kahn_final_rem g L rem w Hinv Hwr) as (r & Hr & Hr0 & Hz & _).
      exists r. split; [done|].
      assert (r ≠ 0); [|lia]. intros Hr1. apply Hz in Hr1.
      by apply (kahn_cycle_node_out g L w). }
    assert (u ∈ cyc) as Hin.
    { apply Hmem'. destruct (tc_cycle_step g u Hu) as (u' & Huu' & Hu').
      split; [|split].
      - by apply (arc_bounds g u u').
      - by apply Hpos.
      - destruct (Hpos u' Hu') as (r & Hr & Hp). by exists u', r. }
    exists L, rem, cyc.
    destruct (Z.ltb_spec 0 (len cyc)) as [_|Hle].
    + split_and!; [done..| |done]. intros ->. by apply elem_of_nil in Hin.
    + destruct cyc; [by apply elem_of_nil in Hin|].
      unfold len in Hle. simpl in Hle. lia.
Qed.

Lemma TopologicalKahn_orders_or_reports_witness :
  ∃ L, TopologicalKahn (unlabeled [[]; [2]; []; [1; 2]; [3; 2]])
         [[]; [3]; [1; 3; 4]; [4]; []] = Ret (L, []) ∧
       L ≡ₚ node_range 5.
Proof.
  assert (BoundsOk (unlabeled [[]; [2]; []; [1; 2]; [3; 2]])) as Hb
    by (apply BoundsOkb_spec; reflexivity).
  destruct (TopologicalKahn_orders_or_reports
              (unlabeled [[]; [2]; []; [1; 2]; [3; 2]])
              [[]; [3]; [1; 3; 4]; [4]; []] Hb) as [Hac _].
  - split; [reflexivity|]. apply (bool_decide_unpack _). reflexivity.
  - destruct Hac as (L & Hrun & Hperm & _).
    + apply (Topological_nil_cycle_Acyclic _ [4; 3; 1; 2; 0] Hb). reflexivity.
    + by exists L.
Defined.

(** C3, as stated, fails on the graph with the single arc 0 → 0: node 0
    is reported, and it has no arc to another node. *)
Lemma TopologicalKahn_self_loop_reported :
  BoundsOk (unlabeled [[0]]) ∧ IsTranspose (unlabeled [[0]]) [[0]] ∧
  Cyclic (unlabeled [[0]]) ∧
  kahn_run (unlabeled [[0]]) [[0]] = Ret ([], [1]) ∧
  TopologicalKahn (unlabeled [[0]]) [[0]] = Ret ([], [0]) ∧
  ¬ (∀ c, c ∈ [0] ↔
          (∃ r, [1] !! Z.to_nat c = Some r ∧ 0 < r) ∧
          ∃ v r, v ≠ c ∧ arc (unlabeled [[0]]) c v ∧
                 [1] !! Z.to_nat v = Some r ∧ 0 < r).
Proof.
  split_and!.
  - apply BoundsOkb_spec. reflexivity.
  - split; [reflexivity|]. apply (bool_decide_unpack _). reflexivity.
  - exists 0. apply tc_once, elem_of_arcs. set_solver.
  - reflexivity.
  - reflexivity.
  - intros H. destruct (proj1 (H 0)) as (_ & v & r & Hne & Harc & _); [left|].
    apply elem_of_arcs in Harc. set_solver.
Qed.

(** C4 on [TopologicalKahn]: on the cyclic graph with the arcs 0 → 2,
    2 → 1 and 1 → 0 it returns the nodes 0, 1, 2 in index order, which
    is no walk: the graph has no arc 0 → 1. *)
Lemma TopologicalKahn_cycle_not_a_walk :
  BoundsOk (unlabeled [[2]; [0]; [1]]) ∧
  IsTranspose (unlabeled [[2]; [0]; [1]]) [[1]; [2]; [0]] ∧
  Cyclic (unlabeled [[2]; [0]; [1]]) ∧
  TopologicalKahn (unlabeled [[2]; [0]; [1]]) [[1]; [2]; [0]]
    = Ret ([], [0; 1; 2]) ∧
  ¬ is_cycle (unlabeled [[2]; [0]; [1]]) [0; 1; 2].
Proof.
  split_and!.
  - apply BoundsOkb_spec. reflexivity.
  - split; [reflexivity|]. apply (bool_decide_unpack _). reflexivity.
  - exists 0. apply tc_l with 2; [apply elem_of_arcs; set_solver|].
    apply tc_l with 1; [apply elem_of_arcs; set_solver|].
    apply tc_once, elem_of_arcs. set_solver.
  - reflexivity.
  - intros (u & z & _ & _ & [Harc _] & _).
    apply elem_of_arcs in Harc. set_solver.
Qed.

End KahnFacts.

(** ** SCC engine: Tarjan's algorithm *)

Section TarjanFacts.
Import SCC.
Context {E : Type}.
Variable g : LabeledAdjacencyList.
Variable emit : list Z → E → bool * E.
Variable e0 : E.
Hypothesis Hbounds : BoundsOk g.

Local Abbreviation Tinv := (tarjan_inv g emit e0).
Local Abbreviation state := (@state E).

Lemma at_default (s : list Z) (n : Z) :
  0 ≤ n < len s → at_ s n = Ret (default 0 (s !! Z.to_nat n)).
Proof. intros Hn. destruct (at_in_range s n Hn) as (a & -> & ->). done. Qed.

Lemma default_insert_eq (s : list Z) (n : Z) (v : Z) :
  0 ≤ n < len s → default 0 (<[Z.to_nat n := v]> s !! Z.to_nat n) = v.
Proof.
  intros Hn. rewrite list_lookup_insert_eq; [done|]. unfold len in Hn. lia.
Qed.

Lemma default_insert_ne (s : list Z) (n w : Z) (v : Z) :
  0 ≤ n → 0 ≤ w → w ≠ n →
  default 0 (<[Z.to_nat n := v]> s !! Z.to_nat w) = default 0 (s !! Z.to_nat w).
Proof. intros Hn Hw Hne. rewrite list_lookup_insert_ne; [done|lia]. Qed.

Lemma isIdx_nonneg (st : state) v : isIdx st v → 0 ≤ v.
Proof. apply testbit_true_nonneg. Qed.

Lemma isStk_nonneg (st : state) v : isStk st v → 0 ≤ v.
Proof. apply testbit_true_nonneg. Qed.

Lemma lower_spec (st : state) (n v : Z) :
  0 ≤ n < len (lowlink st) → lower st n v = Ret (lowered st n v).
Proof.
  intros Hn. unfold lower, lowered. rewrite at_default by done. cbn [bindR].
  fold (ll st n). destruct (Z.ltb_spec v (ll st n)) as [Hlt|Hge].
  - rewrite set_at_in_range by done. cbn [bindR]. by rewrite Z.min_r by lia.
  - rewrite Z.min_l by done. unfold ll.
    destruct (at_in_range (lowlink st) n Hn) as (a & Ha & _). rewrite Ha. simpl.
    rewrite list_insert_id by done. by destruct st.
Qed.

Lemma ll_lowered_eq (st : state) (n v : Z) :
  0 ≤ n < len (lowlink st) → ll (lowered st n v) n = Z.min (ll st n) v.
Proof. intros Hn. unfold ll at 1. simpl. by apply default_insert_eq. Qed.

Lemma ll_lowered_ne (st : state) (n v w : Z) :
  0 ≤ n → 0 ≤ w → w ≠ n → ll (lowered st n v) w = ll st w.
Proof. intros Hn Hw Hne. unfold ll at 1. simpl. by apply default_insert_ne. Qed.

Lemma ext_refl (st : state) : ext st st.
Proof. split; done || lia. Qed.

Lemma ext_trans (st0 st1 st2 : state) : ext st0 st1 → ext st1 st2 → ext st0 st2.
Proof.
  intros [I1 X1 L1 K1 x1 N1] [I2 X2 L2 K2 x2 N2]. split.
  - auto.
  - intros v Hv. rewrite X2 by auto. auto.
  - intros v Hv. rewrite L2 by auto. auto.
  - intros v Hv. rewrite K2 by auto. auto.
  - lia.
  - intros v Hv Hn. destruct (decide (isIdx st1 v)) as [H1|H1].
    + rewrite X2 by done. auto.
    + specialize (N2 v Hv H1). lia.
Qed.

Lemma testbit_clear_all l stk v :
  Z.testbit (clear_all l stk) v = true ↔ Z.testbit stk v = true ∧ v ∉ l.
Proof.
  unfold clear_all. revert stk. induction l as [|a l IH]; intros stk; simpl.
  { split; [|tauto]. intros H. split; [done|]. by intros ?%elem_of_nil. }
  rewrite IH, not_elem_of_cons.
  destruct (decide (v = a)) as [->|Hne].
  - rewrite Z.clearbit_eq. split; [by intros [? _]|]. by intros [_ [? _]].
  - rewrite Z.clearbit_neq by done. tauto.
Qed.

(** The inner loop of [sc] pops the stack down to [n]. *)
Lemma pop_to_spec n seg rest stk c :
  n ∉ seg → (∀ w, w ∈ seg → 0 ≤ w) → 0 ≤ n →
  pop_to n (seg ++ n :: rest) stk c
  = Ret (rest, clear_all (seg ++ [n]) stk, c ++ seg ++ [n]).
Proof.
  revert stk c. induction seg as [|w seg IH]; intros stk c Hn Hseg Hn0.
  - simpl. rewrite SetBit_nonneg by done. cbn [bindR]. by rewrite Z.eqb_refl.
  - simpl. rewrite SetBit_nonneg by (apply Hseg; left). cbn [bindR].
    destruct (Z.eqb_spec w n) as [->|Hne]; [destruct Hn; left|].
    rewrite IH; [|by intros ?; apply Hn; right|by intros ??; apply Hseg; right|done].
    by rewrite <- app_assoc.
Qed.

Lemma free_mono N a b :
  (∀ v, Z.testbit a v = true → Z.testbit b v = true) → (free N b ≤ free N a)%nat.
Proof.
  intros Hab. unfold free.
  rewrite <- (list_filter_filter_l (λ v, Z.testbit b v = false)
                (λ v, Z.testbit a v = false)).
  - apply length_filter.
  - intros v Hv. destruct (Z.testbit a v) eqn:Ha; [|done].
    rewrite (Hab v Ha) in Hv. done.
Qed.

Lemma stack_nonneg (st : state) w : Tinv st → w ∈ S_ st → 0 ≤ w < len g.
Proof.
  intros Hinv Hw. apply (ti_range _ _ _ _ Hinv), (ti_nodes _ _ _ _ Hinv).
  apply elem_of_app. by left.
Qed.

Lemma tinv_lowered (st : state) n v :
  Tinv st → n ∈ S_ st → (∀ s rest, S_ st = s :: rest → ix st s ≤ v) →
  Tinv (lowered st n v).
Proof.
  intros Hinv Hn Hv. pose proof (stack_nonneg st n Hinv Hn) as Hnr.
  pose proof (ti_len_lowlink _ _ _ _ Hinv) as Hlen.
  destruct Hinv. split; try done.
  - simpl. by rewrite len_insert.
  - intros w Hw. change (ix (lowered st n v) w) with (ix st w).
    destruct (decide (w = n)) as [->|Hne].
    + rewrite ll_lowered_eq by lia. specialize (ti_low_le0 n Hw). lia.
    + rewrite ll_lowered_ne; [by apply ti_low_le0|lia| |done].
      apply (stack_nonneg st w); [by split|done].
  - intros s rest w HS Hw. change (ix (lowered st n v) s) with (ix st s).
    change (S_ (lowered st n v)) with (S_ st) in HS, Hw.
    destruct (decide (w = n)) as [->|Hne].
    + rewrite ll_lowered_eq by lia.
      specialize (ti_bottom0 s rest n HS Hw). specialize (Hv s rest HS). lia.
    + rewrite ll_lowered_ne; [by eapply ti_bottom0|lia| |done].
      apply (stack_nonneg st w); [by split|done].
Qed.

Lemma fin_lowered (st : state) n v w :
  0 ≤ n → 0 ≤ w → w ≠ n → fin g st w → fin g (lowered st n v) w.
Proof.
  intros Hn Hw Hne Hfin u Hu. rewrite ll_lowered_ne by done. by apply Hfin.
Qed.

Lemma fin_ext (st st' : state) w :
  ext st st' → isIdx st w → fin g st w → fin g st' w.
Proof.
  intros Hext Hw Hfin v Hv. destruct (Hfin v Hv) as [Hi Hs]. split.
  - by apply (ext_indexed _ _ Hext).
  - intros Hs'. apply (ext_stacked _ _ Hext v Hi) in Hs'.
    rewrite (ext_lowlink _ _ Hext w Hw), (ext_index _ _ Hext v Hi). auto.
Qed.

Lemma loop_inv_lowered (st0 st : state) n seen v h :
  Tinv st → ext st0 st → ¬ isIdx st0 n → isIdx st n → ix st n = x st0 →
  (∃ seg, S_ st = S_ st0 ++ n :: seg ∧
          ∀ w, w ∈ seg → fin g st w ∧ Z.min (ll st n) v ≤ ll st w) →
  (∀ h', h' ∈ seen →
     isIdx st (To h') ∧ (isStk st (To h') → ll st n ≤ ix st (To h'))) →
  (∀ s rest, S_ st = s :: rest → ix st s ≤ v) →
  isIdx st (To h) → (isStk st (To h) → v ≤ ix st (To h)) →
  sc_loop_inv g emit e0 st0 n (seen ++ [h]) (lowered st n v).
Proof.
  intros Hinv Hext Hn0 Hn Hix (seg & HS & Hseg) Hseen Hbot Hh Hhs.
  assert (n ∈ S_ st) as HnS by (rewrite HS; set_solver).
  pose proof (stack_nonneg st n Hinv HnS) as Hnr.
  pose proof (ti_len_lowlink _ _ _ _ Hinv) as Hlen.
  split.
  - by apply tinv_lowered.
  - destruct Hext. split; try done.
    intros w Hw. rewrite <- (ext_lowlink0 w Hw).
    apply ll_lowered_ne; [lia|by eapply isIdx_nonneg|]. by intros ->.
  - done.
  - done.
  - exists seg. split; [done|]. intros w Hw. destruct (Hseg w Hw) as [Hfin Hle].
    assert (w ∈ S_ st) as HwS by (rewrite HS; set_solver).
    pose proof (stack_nonneg st w Hinv HwS) as Hwr.
    assert (w ≠ n) as Hne.
    { intros ->. pose proof (ti_nodup _ _ _ _ Hinv) as Hnd.
      rewrite HS in Hnd. apply NoDup_app in Hnd as (Hnd & _).
      apply NoDup_app in Hnd as (_ & _ & Hnd). apply NoDup_cons in Hnd as [Hnd _].
      done. }
    split; [apply fin_lowered; [lia..|done|done]|].
    rewrite ll_lowered_eq by lia. rewrite ll_lowered_ne by lia. done.
  - intros h' [Hh'| ->%list_elem_of_singleton]%elem_of_app.
    + destruct (Hseen h' Hh') as [Hi Hs]. split; [done|]. intros Hs'.
      rewrite ll_lowered_eq by lia. specialize (Hs Hs').
      change (ix (lowered st n v) (To h')) with (ix st (To h')). lia.
    + split; [done|]. intros Hs'. rewrite ll_lowered_eq by lia.
      specialize (Hhs Hs'). change (ix (lowered st n v) (To h)) with (ix st (To h)).
      lia.
Qed.

Lemma loop_inv_free (st0 st : state) n seen fuel :
  sc_loop_inv g emit e0 st0 n seen st → 0 ≤ n < len g → ¬ isIdx st0 n →
  (free (length g) (indexed st0) ≤ S fuel)%nat →
  (free (length g) (indexed st) ≤ fuel)%nat.
Proof.
  intros Hli Hn Hn0 Hfree.
  assert (free (length g) (indexed st) ≤ free (length g) (Z.setbit (indexed st0) n))%nat.
  { apply free_mono. intros v [->|Hv]%testbit_setbit; [| |lia].
    - apply (li_idx _ _ _ _ _ _ _ Hli).
    - by apply (ext_indexed _ _ (li_ext _ _ _ _ _ _ _ Hli)). }
  assert (free (length g) (Z.setbit (indexed st0) n) < free (length g) (indexed st0))%nat.
  { apply free_setbit_lt; [unfold len in Hn; lia|].
    unfold isIdx in Hn0. by destruct (Z.testbit (indexed st0) n). }
  lia.
Qed.

Lemma sc_arcs_spec rec fuel (st0 : state) n todo seen st :
  sc_contract g emit e0 rec fuel →
  Tinv st0 → 0 ≤ n < len g → ¬ isIdx st0 n →
  (free (length g) (indexed st0) ≤ S fuel)%nat →
  sc_loop_inv g emit e0 st0 n seen st →
  (∀ h, h ∈ todo → 0 ≤ To h < len g) →
  ∃ r, sc_arcs rec n todo st = Ret r ∧
       match r with
       | Next st' => sc_loop_inv g emit e0 st0 n (seen ++ todo) st'
       | Return st' => declined emit st'
       end.
Proof.
  intros Hrec Hinv0 Hn Hn0 Hfree. revert seen st.
  induction todo as [|nb todo IH]; intros seen st Hli Htodo.
  { exists (Next st). rewrite app_nil_r. by split. }
  assert (0 ≤ To nb < len g) as Hnb by (apply Htodo; left).
  assert (∀ h, h ∈ todo → 0 ≤ To h < len g) as Htodo'
    by (intros h Hh; apply Htodo; by right).
  pose proof Hli as [Hinv Hext Hidx Hix (seg & HS & Hseg) Hseen].
  pose proof (ti_len_index _ _ _ _ Hinv) as Hlenix.
  pose proof (ti_len_lowlink _ _ _ _ Hinv) as Hlenll.
  assert (n ∈ S_ st) as HnS by (rewrite HS; set_solver).
  assert (∀ r, sc_loop_inv g emit e0 st0 n (seen ++ [nb]) r →
            ∃ r', sc_arcs rec n todo r = Ret r' ∧
              match r' with
              | Next st' => sc_loop_inv g emit e0 st0 n (seen ++ nb :: todo) st'
              | Return st' => declined emit st'
              end) as Hcont.
  { intros r Hr. destruct (IH (seen ++ [nb]) r Hr Htodo') as (r' & Hrun & Hpost).
    exists r'. split; [done|]. by rewrite <- app_assoc in Hpost. }
  cbn [sc_arcs]. rewrite Bit_nonneg by lia. cbn [bindR].
  destruct (Z.testbit (indexed st) (To nb)) eqn:Hib; cbn [negb].
  - (* already indexed *)
    rewrite Bit_nonneg by lia. cbn [bindR].
    destruct (Z.testbit (stacked st) (To nb)) eqn:Hsb.
    + rewrite at_default by lia. cbn [bindR]. fold (ix st (To nb)).
      rewrite lower_spec by lia. cbn [bindR].
      apply Hcont. apply loop_inv_lowered; try done.
      * exists seg. split; [done|]. intros w Hw. destruct (Hseg w Hw). split; [done|lia].
      * intros s rest HS'.
        assert (To nb ∈ S_ st) as HnbS by (by apply (ti_stacked _ _ _ _ Hinv)).
        pose proof (ti_bottom _ _ _ _ Hinv s rest (To nb) HS' HnbS).
        pose proof (ti_low_le _ _ _ _ Hinv (To nb) HnbS). lia.
    + apply Hcont. destruct Hli. split; try done.
      intros h [Hh| ->%list_elem_of_singleton]%elem_of_app; [by auto|].
      split; [done|]. unfold isStk. by rewrite Hsb.
  - (* not indexed yet: recursive call *)
    destruct (Hrec (To nb) st Hinv Hnb) as (ok & st1 & -> & Hpost).
    { unfold isIdx. by rewrite Hib. }
    { by eapply loop_inv_free. }
    cbn [bindR]. destruct ok; cbn [negb].
    2:{ exists (Return st1). by split. }
    destruct Hpost as (Hinv1 & Hext1 & Hidx1 & Hix1 & segv & HS1 & Hsegv & Hroot).
    pose proof (ti_len_lowlink _ _ _ _ Hinv1) as Hlenll1.
    rewrite at_default by lia. cbn [bindR]. fold (ll st1 (To nb)).
    rewrite lower_spec by lia. cbn [bindR].
    assert (ll st1 n = ll st n) as Hlln by (by apply (ext_lowlink _ _ Hext1)).
    apply Hcont. apply loop_inv_lowered; try done.
    + by eapply ext_trans.
    + by apply (ext_indexed _ _ Hext1).
    + by rewrite (ext_index _ _ Hext1).
    + exists (seg ++ segv). split; [by rewrite HS1, HS, <- app_assoc|].
      intros w [Hw|Hw]%elem_of_app.
      * destruct (Hseg w Hw) as [Hfin Hle].
        assert (isIdx st w) as Hwi.
        { apply (ti_nodes _ _ _ _ Hinv). rewrite HS. set_solver. }
        split; [by eapply fin_ext|].
        rewrite (ext_lowlink _ _ Hext1 w Hwi). lia.
      * destruct (Hsegv w Hw) as [Hfin Hle]. split; [done|lia].
    + intros h Hh. destruct (Hseen h Hh) as [Hi Hs]. split.
      * by apply (ext_indexed _ _ Hext1).
      * intros Hs'%(ext_stacked _ _ Hext1 _ Hi).
        rewrite Hlln, (ext_index _ _ Hext1 _ Hi). auto.
    + intros s rest HS'.
      assert (∃ rest0, S_ st = s :: rest0) as [rest0 HS0].
      { rewrite HS1 in HS'. destruct (S_ st) as [|s' rest0]; [set_solver|].
        injection HS' as -> _. by exists rest0. }
      assert (s ∈ S_ st) as Hs by (rewrite HS0; left).
      assert (isIdx st s) as Hsi.
      { apply (ti_nodes _ _ _ _ Hinv). apply elem_of_app. by left. }
      pose proof (ti_index_lt _ _ _ _ Hinv s Hsi) as Hlt.
      rewrite (ext_index _ _ Hext1 s Hsi).
      destruct Hroot as [[_ Heq]|(seg' & Hseg' & _)].
      * rewrite Heq, Hix1. lia.
      * assert (To nb ∈ S_ st1) as HnbS by (rewrite HS1, Hseg'; set_solver).
        pose proof (ti_bottom _ _ _ _ Hinv1 s rest (To nb) HS' HnbS) as Hb1.
        rewrite (ext_index _ _ Hext1 s Hsi) in Hb1. done.
    + intros Hs. apply (ti_low_le _ _ _ _ Hinv1).
      by apply (ti_stacked _ _ _ _ Hinv1).
Qed.

(** The state [sc n] enters its loop in. *)
Lemma loop_inv_enter (st : state) n :
  Tinv st → 0 ≤ n < len g → ¬ isIdx st n →
  sc_loop_inv g emit e0 st n []
    (mkState (Z.setbit (indexed st) n) (Z.setbit (stacked st) n)
       (<[Z.to_nat n := x st]> (index st)) (<[Z.to_nat n := x st]> (lowlink st))
       (x st + 1) (S_ st ++ [n]) (env st) (calls st)).
Proof.
  intros Hinv Hn Hn0.
  set (st1 := mkState _ _ _ _ _ _ _ _).
  pose proof (ti_len_index _ _ _ _ Hinv) as Hlenix.
  pose proof (ti_len_lowlink _ _ _ _ Hinv) as Hlenll.
  assert (∀ v, isIdx st1 v ↔ v = n ∨ isIdx st v) as Hidx.
  { intros v. unfold isIdx. simpl. apply testbit_setbit. lia. }
  assert (∀ v, isStk st1 v ↔ v = n ∨ isStk st v) as Hstk.
  { intros v. unfold isStk. simpl. apply testbit_setbit. lia. }
  assert (ix st1 n = x st) as Hixn.
  { unfold ix. simpl. apply default_insert_eq. lia. }
  assert (ll st1 n = x st) as Hlln.
  { unfold ll. simpl. apply default_insert_eq. lia. }
  assert (∀ v, isIdx st v → ix st1 v = ix st v ∧ ll st1 v = ll st v ∧ v ≠ n) as Hold.
  { intros v Hv. assert (v ≠ n) as Hne by (by intros ->).
    pose proof (isIdx_nonneg _ _ Hv).
    unfold ix, ll. simpl. rewrite !default_insert_ne by lia. done. }
  assert (∀ v, v ∈ S_ st → isIdx st v) as HSidx.
  { intros v Hv. apply (ti_nodes _ _ _ _ Hinv), elem_of_app. by left. }
  split.
  - split.
    + simpl. by rewrite len_insert.
    + simpl. by rewrite len_insert.
    + intros v [->|Hv]%Hidx; [done|]. by apply (ti_range _ _ _ _ Hinv).
    + intros v. rewrite Hidx, (ti_nodes _ _ _ _ Hinv). simpl.
      rewrite !elem_of_app, list_elem_of_singleton. tauto.
    + intros v. rewrite Hstk, (ti_stacked _ _ _ _ Hinv). simpl.
      rewrite elem_of_app, list_elem_of_singleton. tauto.
    + simpl. rewrite <- app_assoc. simpl.
      rewrite <- Permutation_middle. apply NoDup_cons. split.
      * by intros Hin%(ti_nodes _ _ _ _ Hinv).
      * apply (ti_nodup _ _ _ _ Hinv).
    + intros v [->|Hv]%Hidx; simpl.
      * rewrite Hixn. lia.
      * destruct (Hold v Hv) as (-> & _). pose proof (ti_index_lt _ _ _ _ Hinv v Hv). lia.
    + simpl. intros w [Hw| ->%list_elem_of_singleton]%elem_of_app.
      * destruct (Hold w (HSidx w Hw)) as (-> & -> & _).
        by apply (ti_low_le _ _ _ _ Hinv).
      * rewrite Hixn, Hlln. lia.
    + simpl. intros s rest w HS Hw.
      destruct (S_ st) as [|s' rest'] eqn:HSt.
      * simpl in HS. injection HS as <- <-.
        apply list_elem_of_singleton in Hw as ->. rewrite Hixn, Hlln. lia.
      * simpl in HS. injection HS as -> <-.
        assert (isIdx st s) as Hsi by (apply HSidx; left).
        destruct (Hold s Hsi) as (-> & _).
        change (s :: rest' ++ [n]) with ((s :: rest') ++ [n]) in Hw.
        apply elem_of_app in Hw as [Hw| ->%list_elem_of_singleton].
        -- destruct (Hold w (HSidx w Hw)) as (_ & -> & _).
           apply (ti_bottom _ _ _ _ Hinv s rest' w HSt). by rewrite HSt.
        -- rewrite Hlln. pose proof (ti_index_lt _ _ _ _ Hinv s Hsi). lia.
    + apply (ti_order _ _ _ _ Hinv).
    + apply (ti_nonempty _ _ _ _ Hinv).
    + apply (ti_calls _ _ _ _ Hinv).
    + apply (ti_env _ _ _ _ Hinv).
  - split.
    + intros v Hv. apply Hidx. by right.
    + intros v Hv. by destruct (Hold v Hv) as (-> & _).
    + intros v Hv. by destruct (Hold v Hv) as (_ & -> & _).
    + intros v Hv. rewrite Hstk. destruct (Hold v Hv) as (_ & _ & Hne). tauto.
    + simpl. lia.
    + intros v [->|Hv]%Hidx Hv0; [|done]. rewrite Hixn. lia.
  - apply Hidx. by left.
  - done.
  - exists []. split; [done|]. by intros w ?%elem_of_nil.
  - by intros h ?%elem_of_nil.
Qed.

Lemma rev_reverse {A} (l : list A) : rev l = reverse l.
Proof. unfold reverse. by rewrite rev_append_rev, app_nil_r. Qed.

Lemma run_emit_snoc e cs c :
  run_emit emit e (cs ++ [c]) = (emit c (run_emit emit e cs)).2.
Proof. unfold run_emit. by rewrite foldl_snoc. Qed.

(** [n] is a root: the stack segment from [n] up becomes a component. *)
Lemma sc_root (st0 st : state) n tos seg e :
  Tinv st0 → ¬ isIdx st0 n → g !! Z.to_nat n = Some tos → 0 ≤ n →
  sc_loop_inv g emit e0 st0 n tos st →
  S_ st = S_ st0 ++ n :: seg →
  (∀ w, w ∈ seg → fin g st w ∧ ll st n ≤ ll st w) →
  ll st n = ix st n →
  emit (reverse seg ++ [n]) (env st) = (true, e) →
  sc_done g emit e0 st0 n
    (mkState (indexed st) (clear_all (reverse seg ++ [n]) (stacked st))
       (index st) (lowlink st) (x st) (S_ st0) e
       (calls st ++ [(reverse seg ++ [n], true)])).
Proof.
  intros Hinv0 Hn0 Hg Hnn [Hinv Hext Hidx Hix _ Hseen] HS Hseg Hroot Hemit.
  set (c := reverse seg ++ [n]). set (st2 := mkState _ _ _ _ _ _ _ _).
  assert (∀ v, v ∈ c ↔ v ∈ n :: seg) as Hc.
  { intros v. unfold c. rewrite elem_of_app, elem_of_reverse, list_elem_of_singleton,
      elem_of_cons. tauto. }
  assert (comps st2 = comps st ++ [c]) as Hcomps.
  { unfold comps. simpl. by rewrite fmap_app. }
  assert (concat (comps st2) ≡ₚ c ++ concat (comps st)) as Hconcat.
  { rewrite Hcomps, concat_app. simpl. rewrite app_nil_r. apply Permutation_app_comm. }
  pose proof (ti_nodup _ _ _ _ Hinv) as Hnd. rewrite HS in Hnd.
  assert (S_ st0 ++ concat (comps st2) ≡ₚ (S_ st0 ++ n :: seg) ++ concat (comps st))
    as Hperm.
  { rewrite Hconcat, <- app_assoc. apply Permutation_app_head.
    apply Permutation_app_tail. unfold c.
    rewrite reverse_Permutation. by rewrite <- Permutation_cons_append. }
  assert (∀ v, isStk st2 v ↔ v ∈ S_ st0) as Hstk.
  { intros v. unfold isStk. simpl. rewrite testbit_clear_all. fold (isStk st v).
    rewrite (ti_stacked _ _ _ _ Hinv), HS, Hc.
    apply NoDup_app in Hnd as (Hnd & _). apply NoDup_app in Hnd as (_ & Hdis & _).
    rewrite elem_of_app. split; [tauto|]. intros Hv. split; [by left|by apply Hdis]. }
  assert (fin g st n) as Hfinn.
  { intros v (_ & tos' & h & Hg' & Hh & <-).
    rewrite Hg in Hg'. injection Hg' as <-. by apply Hseen. }
  assert (∀ v, v ∈ S_ st0 → isIdx st0 v) as HS0.
  { intros v Hv. apply (ti_nodes _ _ _ _ Hinv0), elem_of_app. by left. }
  assert (∀ v, v ∈ c → ¬ isIdx st0 v) as Hcnew.
  { intros v [->|Hv]%Hc%elem_of_cons; [done|]. intros Hi.
    assert (isStk st v) as Hs
      by (apply (ti_stacked _ _ _ _ Hinv); rewrite HS; set_solver).
    apply (ext_stacked _ _ Hext v Hi), (ti_stacked _ _ _ _ Hinv0) in Hs.
    apply NoDup_app in Hnd as (Hnd & _). apply NoDup_app in Hnd as (_ & Hdis & _).
    apply (Hdis v Hs). by right. }
  split_and!.
  - split; try apply Hinv.
    + intros v. change (isIdx st2 v) with (isIdx st v).
      rewrite (ti_nodes _ _ _ _ Hinv). simpl S_. rewrite Hperm, HS. done.
    + done.
    + simpl S_. rewrite Hperm. done.
    + simpl. intros w Hw. apply (ti_low_le _ _ _ _ Hinv). rewrite HS. set_solver.
    + simpl. intros s rest w HS0' Hw.
      apply (ti_bottom _ _ _ _ Hinv s (rest ++ n :: seg) w).
      * by rewrite HS, HS0'.
      * rewrite HS. set_solver.
    + intros cs1 c' cs2 u v Hcs Hu Huv. rewrite Hcomps in Hcs.
      destruct cs2 as [|c2 cs2 _] using rev_ind.
      * apply app_inj_tail in Hcs as [<- <-].
        assert (fin g st u ∧ ll st n ≤ ll st u) as [Hfin Hle].
        { apply Hc in Hu. apply elem_of_cons in Hu as [->|Hu]; [|by apply Hseg].
          split; [done|lia]. }
        destruct (Hfin v Huv) as [Hvi Hvs].
        rewrite concat_app. simpl. rewrite app_nil_r, elem_of_app.
        destruct (decide (isStk st v)) as [Hs|Hs].
        -- right. apply Hc. specialize (Hvs Hs).
           apply (ti_stacked _ _ _ _ Hinv) in Hs. rewrite HS in Hs.
           apply elem_of_app in Hs as [Hs|Hs]; [|done].
           pose proof (ti_index_lt _ _ _ _ Hinv0 v (HS0 v Hs)) as Hlt.
           rewrite <- (ext_index _ _ Hext v (HS0 v Hs)) in Hlt. lia.
        -- left. apply (ti_nodes _ _ _ _ Hinv) in Hvi.
           apply elem_of_app in Hvi as [Hvi|Hvi]; [|done].
           by apply (ti_stacked _ _ _ _ Hinv) in Hvi.
      * change (cs1 ++ c' :: cs2 ++ [c2]) with (cs1 ++ (c' :: cs2) ++ [c2]) in Hcs.
        rewrite app_assoc in Hcs. apply app_inj_tail in Hcs as [Hcs _].
        by apply (ti_order _ _ _ _ Hinv cs1 c' cs2 u v).
    + intros c'. rewrite Hcomps, elem_of_app, list_elem_of_singleton.
      intros [Hc'| ->]; [by apply (ti_nonempty _ _ _ _ Hinv)|].
      unfold c. by destruct (reverse seg).
    + simpl. intros c' ok [Hc'|[= -> ->]%list_elem_of_singleton]%elem_of_app; [|done].
      by apply (ti_calls _ _ _ _ Hinv c').
    + simpl env. rewrite Hcomps, run_emit_snoc, <- (ti_env _ _ _ _ Hinv).
      fold c in Hemit. by rewrite Hemit.
  - destruct Hext. split; try done.
    intros v Hv. rewrite Hstk, <- (ti_stacked _ _ _ _ Hinv0). done.
  - done.
  - done.
  - exists []. split_and!; [by rewrite app_nil_r|by intros w ?%elem_of_nil|].
    by left.
Qed.

Lemma sc_spec fuel : sc_contract g emit e0 (sc emit fuel g) fuel.
Proof.
  induction fuel as [|fuel IH]; intros n st Hinv Hn Hn0 Hfree.
  { assert (free (length g) (Z.setbit (indexed st) n) < free (length g) (indexed st))%nat.
    { apply free_setbit_lt; [unfold len in Hn; lia|].
      unfold isIdx in Hn0. by destruct (Z.testbit (indexed st) n). }
    lia. }
  pose proof (ti_len_index _ _ _ _ Hinv) as Hlenix.
  pose proof (ti_len_lowlink _ _ _ _ Hinv) as Hlenll.
  cbn [sc]. rewrite set_at_in_range by lia. cbn [bindR].
  rewrite SetBit_nonneg by lia. cbn [bindR].
  rewrite set_at_in_range by lia. cbn [bindR].
  rewrite SetBit_nonneg by lia. cbn [bindR].
  destruct (at_in_range g n Hn) as (tos & Hg & ->). cbn [bindR].
  destruct (sc_arcs_spec (sc emit fuel g) fuel st n tos [] _ IH Hinv Hn Hn0 Hfree
              (loop_inv_enter st n Hinv Hn Hn0))
    as (r & -> & Hpost).
  { intros h Hh. apply (Hbounds tos h); [|done]. by eapply list_elem_of_lookup_2. }
  cbn [bindR]. destruct r as [st'|st']; [|by exists false, st'].
  simpl in Hpost. pose proof Hpost as [Hinv' Hext' Hidx' Hix' (seg & HS & Hseg) Hseen'].
  rewrite !at_default
    by (rewrite ?(ti_len_index _ _ _ _ Hinv'), ?(ti_len_lowlink _ _ _ _ Hinv'); lia).
  cbn [bindR]. fold (ll st' n) (ix st' n).
  destruct (Z.eqb_spec (ll st' n) (ix st' n)) as [Hroot|Hnroot].
  - assert (n ∉ reverse seg) as Hnseg.
    { rewrite elem_of_reverse. pose proof (ti_nodup _ _ _ _ Hinv') as Hnd.
      rewrite HS in Hnd. apply NoDup_app in Hnd as (Hnd & _).
      apply NoDup_app in Hnd as (_ & _ & Hnd). by apply NoDup_cons in Hnd as [? _]. }
    rewrite HS, rev_app_distr. simpl. rewrite <- app_assoc. simpl.
    rewrite (rev_reverse seg). rewrite pop_to_spec; [|done| |lia].
    2:{ intros w Hw%elem_of_reverse.
        apply (stack_nonneg st' w Hinv'). rewrite HS. set_solver. }
    cbn [bindR]. simpl app. rewrite rev_involutive.
    destruct (emit (reverse seg ++ [n]) (env st')) as [ok e] eqn:Hemit.
    exists ok. eexists. split; [done|]. destruct ok.
    + apply (sc_root st st' n tos seg e); [done|done|done|lia|done..].
    + exists (calls st'), (reverse seg ++ [n]), (env st').
      split_and!; [done|by rewrite Hemit|]. apply (ti_calls _ _ _ _ Hinv').
  - exists true, st'. split; [done|]. split_and!; [done..|].
    exists (n :: seg). split_and!; [done| |].
    + intros w [->|Hw]%elem_of_cons; [|by apply Hseg].
      split; [|lia]. intros v (_ & tos' & h & Hg' & Hh & <-).
      rewrite Hg in Hg'. injection Hg' as <-. by apply Hseen'.
    + right. exists seg. split; [done|].
      assert (n ∈ S_ st') as HnS by (rewrite HS; set_solver).
      pose proof (ti_low_le _ _ _ _ Hinv' n HnS). lia.
Qed.

(** The loop of [Tarjan] over the roots: the stack is empty between
    two roots. *)
Lemma tarjan_roots_spec fuel ns (st : state) :
  (length g ≤ fuel)%nat → Tinv st → S_ st = [] →
  (∀ n, n ∈ ns → 0 ≤ n < len g) →
  ∃ st', tarjan_roots emit fuel g ns st = Ret st' ∧
         (declined emit st' ∨
          (Tinv st' ∧ S_ st' = [] ∧ (∀ v, v ∈ ns → isIdx st' v) ∧
           (∀ v, isIdx st v → isIdx st' v))).
Proof.
  intros Hfuel. revert st. induction ns as [|n ns IH]; intros st Hinv HS Hns.
  { exists st. split; [done|]. right. split_and!; [done..| |done].
    by intros v ?%elem_of_nil. }
  assert (0 ≤ n < len g) as Hn by (apply Hns; left).
  assert (∀ n', n' ∈ ns → 0 ≤ n' < len g) as Hns'
    by (intros n' Hn'; apply Hns; by right).
  cbn [tarjan_roots]. rewrite Bit_nonneg by lia. cbn [bindR].
  destruct (Z.testbit (indexed st) n) eqn:Hib.
  - destruct (IH st Hinv HS Hns') as (st' & Hrun & Hpost).
    exists st'. split; [done|]. destruct Hpost as [?|(? & ? & Hall & Hmono)]; [by left|].
    right. split_and!; [done..| |done].
    intros v [->|Hv]%elem_of_cons; [by apply Hmono|by apply Hall].
  - destruct (sc_spec fuel n st Hinv Hn) as (ok & st1 & -> & Hpost).
    { unfold isIdx. by rewrite Hib. }
    { pose proof (free_le (length g) (indexed st)). lia. }
    cbn [bindR]. destruct ok; [|exists st1; split; [done|by left]].
    destruct Hpost as (Hinv1 & Hext1 & Hidx1 & Hix1 & seg & HS1 & Hseg & Hroot).
    rewrite HS in HS1. simpl in HS1.
    assert (seg = []) as ->.
    { destruct Hroot as [[-> _]|(seg' & -> & Hlt)]; [done|].
      assert (n ∈ S_ st1) as HnS by (rewrite HS1; left).
      pose proof (ti_bottom _ _ _ _ Hinv1 n seg' n HS1 HnS). lia. }
    destruct (IH st1 Hinv1 HS1 Hns') as (st' & Hrun & Hpost).
    exists st'. split; [done|]. destruct Hpost as [?|(? & ? & Hall & Hmono)]; [by left|].
    right. split_and!; [done..| |].
    + intros v [->|Hv]%elem_of_cons; [by apply Hmono|by apply Hall].
    + intros v Hv. by apply Hmono, (ext_indexed _ _ Hext1).
Qed.

Lemma tarjan_inv_init : Tinv (init g e0).
Proof.
  split; simpl; try done.
  - apply len_replicate.
  - apply len_replicate.
  - intros v Hv. unfold isIdx in Hv. simpl in Hv. by rewrite Z.bits_0 in Hv.
  - intros v. unfold isIdx. simpl. rewrite Z.bits_0. split; [done|].
    by intros ?%elem_of_nil.
  - intros v. unfold isStk. simpl. rewrite Z.bits_0. split; [done|].
    by intros ?%elem_of_nil.
  - apply NoDup_nil_2.
  - intros v Hv. unfold isIdx in Hv. simpl in Hv. by rewrite Z.bits_0 in Hv.
  - intros cs1 c cs2 u v Hcs. by destruct cs1.
  - by intros c ?%elem_of_nil.
  - by intros c ok ?%elem_of_nil.
Qed.

(** What a run of [Tarjan] leaves: either a call of [emit] returned
    [false] and was the last one, or every node has been emitted. *)
Lemma Tarjan_spec :
  ∃ st, tarjan_roots emit (length g) g (Ordering.node_range (length g)) (init g e0)
          = Ret st ∧
        Tarjan emit g e0 = Ret (env st, calls st) ∧
        (declined emit st ∨
         (Tinv st ∧ S_ st = [] ∧ ∀ v, 0 ≤ v < len g → isIdx st v)).
Proof.
  destruct (tarjan_roots_spec (length g) (Ordering.node_range (length g)) (init g e0))
    as (st & Hrun & Hpost); [lia|apply tarjan_inv_init|done| |].
  { intros n Hn%elem_of_node_range. unfold len. lia. }
  exists st. split; [done|]. unfold Tarjan. rewrite Hrun. split; [done|].
  destruct Hpost as [?|(Hinv & HS & Hall & _)]; [by left|].
  right. split_and!; [done..|]. intros v Hv. apply Hall, elem_of_node_range.
  unfold len in Hv. lia.
Qed.

(** C8. In a run of [Tarjan] on a graph whose arcs stay in bounds, a
    call of [emit] that returns [false] is the last call of [emit]: no
    component is emitted after it. *)
Theorem Tarjan_stops_when_emit_declines :
  ∃ e calls, Tarjan emit g e0 = Ret (e, calls) ∧
    ∀ pre c post, calls = pre ++ (c, false) :: post → post = [].
Proof.
  destruct Tarjan_spec as (st & _ & Hrun & Hpost).
  exists (env st), (calls st). split; [done|].
  intros pre c post Hcalls.
  destruct Hpost as [(pre' & c' & e & Hc & _ & Hok)|(Hinv & _)].
  - rewrite Hc in Hcalls.
    destruct post as [|p post _] using rev_ind; [done|].
    change (pre ++ (c, false) :: post ++ [p])
      with (pre ++ ((c, false) :: post) ++ [p]) in Hcalls.
    rewrite app_assoc in Hcalls. apply app_inj_tail in Hcalls as [-> _].
    assert ((c, false) ∈ pre ++ (c, false) :: post) as Hin by set_solver.
    by apply Hok in Hin.
  - assert ((c, false) ∈ calls st) as Hin by (rewrite Hcalls; set_solver).
    by apply (ti_calls _ _ _ _ Hinv) in Hin.
Qed.

End TarjanFacts.

Lemma Tarjan_stops_when_emit_declines_witness :
  ∃ e calls,
    SCC.Tarjan (λ c (k : Z), (k <? 1, k + 1))
      (unlabeled [[1]; [4; 2; 5]; [3; 6]; [2; 7]; [5; 0]; [6]; [5]; [3; 6]]) 0
    = Ret (e, calls) ∧
    ∀ pre c post, calls = pre ++ (c, false) :: post → post = [].
Proof.
  apply Tarjan_stops_when_emit_declines.
  apply BoundsOkb_spec. reflexivity.
Defined.

(** ** SCC engine: [TarjanForward] *)

Section TarjanForwardFacts.
Import SCC.

Lemma run_emit_collect r cs : run_emit collect r cs = r ++ cs.
Proof.
  revert r. induction cs as [|c cs IH]; intros r; simpl.
  - by rewrite app_nil_r.
  - rewrite IH. unfold collect. simpl. by rewrite <- app_assoc.
Qed.

Lemma calls_all_true (calls : list (list Z * bool)) :
  (∀ c ok, (c, ok) ∈ calls → ok = true) → calls = (λ c, (c, true)) <$> calls.*1.
Proof.
  induction calls as [|[c ok] calls IH]; intros Hok; [done|].
  simpl. rewrite (Hok c ok) by left. f_equal. apply IH.
  intros c' ok' Hin. apply (Hok c'). by right.
Qed.

Lemma reverse_into_spec (seen r : list (list Z)) :
  reverse_into (len (seen ++ r) - 1) (len seen) r
    (replicate (length r) [] ++ reverse seen)
  = Ret (reverse (seen ++ r)).
Proof.
  revert seen. induction r as [|ci r IH]; intros seen.
  { simpl. by rewrite app_nil_r. }
  cbn [reverse_into].
  assert (len (seen ++ ci :: r) - 1 - len seen = len r) as ->
    by (unfold len; rewrite length_app; simpl; lia).
  rewrite set_at_in_range.
  2:{ pose proof (len_nonneg r). unfold len in *.
      rewrite length_app, length_replicate. simpl. lia. }
  cbn [bindR].
  assert (<[Z.to_nat (len r) := ci]> (replicate (length (ci :: r)) [] ++ reverse seen)
          = replicate (length r) [] ++ reverse (seen ++ [ci])) as ->.
  { simpl length. rewrite replicate_S_end, <- app_assoc. simpl.
    unfold len. rewrite Nat2Z.id, insert_app_r_alt by (by rewrite length_replicate).
    rewrite length_replicate, Nat.sub_diag. simpl. by rewrite reverse_snoc. }
  specialize (IH (seen ++ [ci])).
  assert (len (seen ++ [ci]) = len seen + 1) as Hl
    by (unfold len; rewrite length_app; simpl; lia).
  rewrite Hl, <- app_assoc in IH. done.
Qed.

Lemma concat_NoDup_unique (cs : list (list Z)) (a b : nat) ca cb v :
  NoDup (concat cs) → cs !! a = Some ca → cs !! b = Some cb →
  v ∈ ca → v ∈ cb → a = b.
Proof.
  revert a b. induction cs as [|c0 cs IH]; intros a b Hnd Ha Hb Hva Hvb; [done|].
  simpl in Hnd. apply NoDup_app in Hnd as (_ & Hdis & Hnd).
  assert (∀ k c, cs !! k = Some c → v ∈ c → v ∈ concat cs) as Hin.
  { intros k c Hk Hv. apply list_elem_of_In, in_concat. exists c.
    split; apply list_elem_of_In; [by eapply list_elem_of_lookup_2|done]. }
  destruct a as [|a], b as [|b]; simpl in Ha, Hb.
  - done.
  - injection Ha as ->. destruct (Hdis v Hva). by eapply Hin.
  - injection Hb as ->. destruct (Hdis v Hvb). by eapply Hin.
  - f_equal. by eapply IH.
Qed.

(** What [TarjanForward] returns, in terms of the final state of
    [Tarjan]. *)
Lemma TarjanForward_spec g :
  BoundsOk g →
  ∃ st : @state (list (list Z)),
    tarjan_inv g collect [] st ∧ S_ st = [] ∧
    (∀ v, 0 ≤ v < len g → isIdx st v) ∧
    Tarjan collect g [] = Ret (comps st, (λ c, (c, true)) <$> comps st) ∧
    TarjanForward g = Ret (reverse (comps st)).
Proof.
  intros Hb. destruct (Tarjan_spec g collect [] Hb) as (st & _ & Hrun & Hpost).
  destruct Hpost as [(pre & c & e & _ & Hfalse & _)|(Hinv & HS & Hall)]; [done|].
  exists st. split_and!; [done..| |].
  - rewrite Hrun. f_equal. f_equal.
    + by rewrite (ti_env _ _ _ _ Hinv), run_emit_collect.
    + apply calls_all_true, (ti_calls _ _ _ _ Hinv).
  - unfold TarjanForward. fold collect. rewrite Hrun. cbn [bindR].
    rewrite (ti_env _ _ _ _ Hinv), run_emit_collect. simpl.
    pose proof (reverse_into_spec [] (comps st)) as Hrev. simpl in Hrev.
    rewrite app_nil_r in Hrev. done.
Qed.

(** The components [TarjanForward] returns, and the order [Tarjan]
    emits them in. *)
Lemma TarjanForward_components g :
  BoundsOk g →
  ∃ scc, TarjanForward g = Ret scc ∧
    Tarjan collect g [] = Ret (reverse scc, (λ c, (c, true)) <$> reverse scc) ∧
    NoDup (concat scc) ∧
    (∀ v, v ∈ concat scc ↔ 0 ≤ v < len g) ∧
    (∀ c, c ∈ scc → c ≠ []) ∧
    (∀ (i j : nat) ci cj u v,
       scc !! i = Some ci → scc !! j = Some cj → u ∈ ci → v ∈ cj →
       arc g u v → (i ≤ j)%nat).
Proof.
  intros Hb.
  destruct (TarjanForward_spec g Hb) as (st & Hinv & HS & Hall & Hrun & Hfw).
  exists (reverse (comps st)). rewrite reverse_involutive.
  pose proof (ti_nodup _ _ _ _ Hinv) as Hnd. rewrite HS in Hnd. simpl in Hnd.
  assert (concat (reverse (comps st)) ≡ₚ concat (comps st)) as Hperm.
  { generalize (comps st). intros cs. induction cs as [|c cs IH]; [done|].
    rewrite reverse_cons, concat_app. simpl. rewrite app_nil_r, IH.
    apply Permutation_app_comm. }
  split_and!; [done..| | | |].
  - by rewrite Hperm.
  - intros v. rewrite Hperm. split.
    + intros Hv. apply (ti_range _ _ _ _ Hinv), (ti_nodes _ _ _ _ Hinv).
      by rewrite HS.
    + intros Hv. apply Hall, (ti_nodes _ _ _ _ Hinv) in Hv. by rewrite HS in Hv.
  - intros c Hc. apply (ti_nonempty _ _ _ _ Hinv c).
    by apply (proj1 (elem_of_reverse c (comps st))).
  - intros i j ci cj u v Hi Hj Hu Hv Huv.
    pose proof (lookup_lt_Some _ _ _ Hi) as Hil.
    pose proof (lookup_lt_Some _ _ _ Hj) as Hjl.
    rewrite length_reverse in Hil, Hjl.
    rewrite reverse_lookup in Hi, Hj by done.
    set (a := (length (comps st) - S i)%nat) in *.
    set (b := (length (comps st) - S j)%nat) in *.
    pose proof (take_drop_middle _ _ _ Hi) as Hsplit. symmetry in Hsplit.
    pose proof (ti_order _ _ _ _ Hinv _ _ _ u v Hsplit Hu Huv) as Hin.
    apply list_elem_of_In, in_concat in Hin as (c' & Hc' & Hvc').
    apply list_elem_of_In, list_elem_of_lookup in Hc' as [k Hk].
    apply list_elem_of_In in Hvc'.
    assert (k ≤ a)%nat as Hka.
    { apply lookup_lt_Some in Hk. rewrite length_app, length_take in Hk.
      simpl in Hk. lia. }
    assert (comps st !! k = Some c') as Hk'.
    { rewrite Hsplit. destruct (decide (k < a)%nat) as [Hlt|Hge].
      - rewrite lookup_app_l in Hk by (rewrite length_take; lia).
        rewrite lookup_app_l by (rewrite length_take; lia). done.
      - assert (k = a) as -> by lia.
        rewrite lookup_app_r in Hk by (rewrite length_take; lia).
        rewrite length_take in Hk.
        replace (a - a `min` length (comps st))%nat with 0%nat in Hk by lia.
        simpl in Hk. injection Hk as <-. by rewrite <- Hsplit. }
    assert (k = b) by (by eapply (concat_NoDup_unique (comps st))).
    unfold a, b in *. lia.
Qed.


End TarjanForwardFacts.

(** ** SCC engine: [TarjanCondensation] *)

Section CondensationFacts.
Import SCC.

Variable g : list (list Half).
Variable scc : list (list Z).
Hypothesis Hbounds : BoundsOk g.
Hypothesis Hnodup : NoDup (concat scc).
Hypothesis Hnodes : ∀ v, v ∈ concat scc ↔ 0 ≤ v < len g.
Hypothesis Horder : ∀ (i j : nat) ci cj u v,
  scc !! i = Some ci → scc !! j = Some cj → u ∈ ci → v ∈ cj →
  arc g u v → (i ≤ j)%nat.

Lemma member_range (k : nat) c v : scc !! k = Some c → v ∈ c → 0 ≤ v < len g.
Proof.
  intros Hk Hv. apply Hnodes, list_elem_of_In, in_concat. exists c.
  split; apply list_elem_of_In; [by eapply list_elem_of_lookup_2|done].
Qed.

Lemma node_component v :
  0 ≤ v < len g → ∃ (j : nat) c, scc !! j = Some c ∧ v ∈ c.
Proof.
  intros Hv%Hnodes. apply list_elem_of_In, in_concat in Hv as (c & Hc & Hv).
  apply list_elem_of_In, list_elem_of_lookup in Hc as [j Hj].
  exists j, c. split; [done|]. by apply list_elem_of_In.
Qed.

Lemma cond_mark_spec cn c cond :
  (∀ v, v ∈ c → 0 ≤ v < len cond) →
  ∃ cond', cond_mark cn c cond = Ret cond' ∧ len cond' = len cond ∧
    (∀ v, v ∈ c → cond' !! Z.to_nat v = Some cn) ∧
    (∀ v, 0 ≤ v → v ∉ c → cond' !! Z.to_nat v = cond !! Z.to_nat v).
Proof.
  revert cond. induction c as [|n c IH]; intros cond Hc.
  { exists cond. split_and!; [done..| |done]. by intros v ?%elem_of_nil. }
  assert (0 ≤ n < len cond) as Hn by (apply Hc; left).
  cbn [cond_mark]. rewrite set_at_in_range by done. cbn [bindR].
  destruct (IH (<[Z.to_nat n := cn]> cond)) as (cond' & Hrun & Hlen & Hin & Hout).
  { intros v Hv. rewrite len_insert. apply Hc. by right. }
  exists cond'. rewrite len_insert in Hlen. split_and!; [done..| |].
  - intros v [->|Hv]%elem_of_cons; [|by apply Hin].
    destruct (decide (n ∈ c)) as [Hnc|Hnc]; [by apply Hin|].
    rewrite Hout by (done || lia).
    apply list_lookup_insert_eq. unfold len in Hn. lia.
  - intros v Hv [Hne Hvc]%not_elem_of_cons. rewrite Hout by done.
    apply list_lookup_insert_ne. lia.
Qed.

Lemma cond_arcs_spec cn cond arcs_n m tos :
  tos_map cn m tos →
  (∀ to, to ∈ arcs_n → ∃ ct, cond !! Z.to_nat (To to) = Some ct ∧ 0 ≤ ct ∧ 0 ≤ To to) →
  ∃ m' tos', cond_arcs cond arcs_n m tos = Ret (m', tos') ∧ tos_map cn m' tos' ∧
    ∀ Y, Y ∈ tos' ↔
         Y ∈ tos ∨ (Y ≠ cn ∧ ∃ to, to ∈ arcs_n ∧ cond !! Z.to_nat (To to) = Some Y).
Proof.
  revert m tos. induction arcs_n as [|to arcs_n IH]; intros m tos Hmap Harcs.
  { exists m, tos. split_and!; [done..|]. intros Y. split; [by left|].
    by intros [?|(_ & to & ?%elem_of_nil & _)]. }
  destruct (Harcs to) as (ct & Hct & Hct0 & Hto0); [left|].
  assert (∀ to', to' ∈ arcs_n →
            ∃ ct, cond !! Z.to_nat (To to') = Some ct ∧ 0 ≤ ct ∧ 0 ≤ To to') as Harcs'
    by (intros to' Hto'; apply Harcs; by right).
  cbn [cond_arcs]. rewrite (at_lookup _ _ _ Hto0 Hct). cbn [bindR].
  rewrite Bit_nonneg by done. cbn [bindR].
  destruct Hmap as (Hnd & Hcn & Hm).
  destruct (Z.testbit m ct) eqn:Hb; cbn [negb].
  - destruct (IH m tos) as (m' & tos' & Hrun & Hmap' & Hiff); [done..|].
    exists m', tos'. split_and!; [done..|]. intros Y. rewrite Hiff. split.
    + intros [?|(Hne & to' & Hto' & HY)]; [by left|].
      right. split; [done|]. exists to'. split; [by right|done].
    + intros [?|(Hne & to' & [->|Hto']%elem_of_cons & HY)]; [by left| |].
      * left. rewrite Hct in HY. injection HY as <-.
        apply Hm in Hb as [?|?]; done.
      * right. split; [done|]. by exists to'.
  - rewrite SetBit_nonneg by done. cbn [bindR].
    assert (ct ≠ cn ∧ ct ∉ tos) as [Hne Hnin].
    { split; intros Hx; assert (Z.testbit m ct = true) as Ht
        by (apply Hm; auto); congruence. }
    destruct (IH (Z.setbit m ct) (tos ++ [ct])) as (m' & tos' & Hrun & Hmap' & Hiff);
      [|done|].
    { split_and!.
      - apply NoDup_app. split_and!; [done| |apply NoDup_singleton].
        by intros Y HY ->%list_elem_of_singleton.
      - rewrite elem_of_app, list_elem_of_singleton. intros [?|?]; [done|].
        by apply Hne.
      - intros Y. rewrite testbit_setbit by done.
        rewrite Hm, elem_of_app, list_elem_of_singleton. tauto. }
    exists m', tos'. split_and!; [done..|]. intros Y. rewrite Hiff.
    rewrite elem_of_app, list_elem_of_singleton. split.
    + intros [[?| ->]|(Hne' & to' & Hto' & HY)]; [by left| |].
      * right. split; [done|]. exists to. split; [left|done].
      * right. split; [done|]. exists to'. split; [by right|done].
    + intros [?|(Hne' & to' & [->|Hto']%elem_of_cons & HY)]; [by left; left| |].
      * left. right. rewrite Hct in HY. by injection HY.
      * right. split; [done|]. by exists to'.
Qed.

Lemma cond_members_spec cn cond c m tos :
  tos_map cn m tos →
  (∀ n, n ∈ c → 0 ≤ n < len g) →
  (∀ v, 0 ≤ v < len g → ∃ ct, cond !! Z.to_nat v = Some ct ∧ 0 ≤ ct) →
  ∃ m' tos', cond_members g cond c m tos = Ret (m', tos') ∧ tos_map cn m' tos' ∧
    ∀ Y, Y ∈ tos' ↔
         Y ∈ tos ∨ (Y ≠ cn ∧ ∃ n v, n ∈ c ∧ arc g n v ∧
                                   cond !! Z.to_nat v = Some Y).
Proof.
  intros Hmap Hc Hcond. revert m tos Hmap.
  induction c as [|n c IH]; intros m tos Hmap.
  { exists m, tos. split_and!; [done..|]. intros Y. split; [by left|].
    by intros [?|(_ & n & v & ?%elem_of_nil & _)]. }
  assert (0 ≤ n < len g) as Hn by (apply Hc; left).
  destruct (at_in_range g n Hn) as (arcs_n & Hg & Hat).
  cbn [cond_members]. rewrite Hat. cbn [bindR].
  destruct (cond_arcs_spec cn cond arcs_n m tos Hmap)
    as (m1 & tos1 & -> & Hmap1 & Hiff1).
  { intros to Hto.
    assert (0 ≤ To to < len g) as Hr
      by (apply (Hbounds arcs_n to); [by eapply list_elem_of_lookup_2|done]).
    destruct (Hcond (To to) Hr) as (ct & Hct & Hct0). exists ct.
    split_and!; [done..|lia]. }
  cbn [bindR].
  destruct (IH (λ n' Hn', Hc n' (list_elem_of_further _ _ _ Hn')) m1 tos1 Hmap1)
    as (m' & tos' & Hrun & Hmap' & Hiff).
  exists m', tos'. split_and!; [done..|]. intros Y. rewrite Hiff, Hiff1. split.
  - intros [[?|(Hne & to & Hto & HY)]|(Hne & n' & v & Hn' & Hnv & HY)].
    + by left.
    + right. split; [done|]. exists n, (To to). split_and!; [left| |done].
      by apply (arc_of_lookup g n arcs_n); [lia|..].
    + right. split; [done|]. exists n', v. split_and!; [by right|done..].
  - intros [?|(Hne & n' & v & [->|Hn']%elem_of_cons & Hnv & HY)].
    + by left; left.
    + left. right. split; [done|].
      destruct Hnv as (_ & arcs' & h & Hg' & Hh & <-).
      rewrite Hg in Hg'. injection Hg' as <-. by exists h.
    + right. split; [done|]. by exists n', v.
Qed.

Lemma cond_loop_spec (k : nat) cd cond :
  (k ≤ length scc)%nat → length cd = length scc → len cond = len g →
  marked scc k cond →
  (∀ v, 0 ≤ v < len g → ∃ ct, cond !! Z.to_nat v = Some ct ∧ 0 ≤ ct) →
  (∀ (X : nat) tosX, (k ≤ X)%nat → cd !! X = Some tosX →
     tos_of g scc (Z.of_nat X) tosX) →
  ∃ cd', cond_loop k g scc cd cond = Ret cd' ∧ length cd' = length scc ∧
    ∀ (X : nat) tosX, cd' !! X = Some tosX → tos_of g scc (Z.of_nat X) tosX.
Proof.
  revert cd cond. induction k as [|k IH]; intros cd cond Hk Hcd Hcond Hmark Hnn Hgood.
  { exists cd. split_and!; [done..|]. intros X tosX. apply Hgood. lia. }
  cbn [cond_loop].
  destruct (at_in_range scc (Z.of_nat k)) as (c & Hc & ->); [unfold len; lia|].
  rewrite Nat2Z.id in Hc. cbn [bindR].
  assert (∀ v, v ∈ c → 0 ≤ v < len g) as Hcr
    by (intros v Hv; by eapply member_range).
  destruct (cond_mark_spec (Z.of_nat k) c cond)
    as (cond' & -> & Hlen' & Hin & Hout); [by rewrite Hcond|].
  cbn [bindR]. rewrite SetBit_nonneg by lia. cbn [bindR].
  assert (marked scc k cond') as Hmark'.
  { intros j cj v Hj Hcj Hv. destruct (decide (j = k)) as [->|Hne].
    - rewrite Hc in Hcj. injection Hcj as <-. by apply Hin.
    - rewrite Hout.
      + apply (Hmark j cj); [lia|done..].
      + by eapply (member_range j cj).
      + intros Hvc. apply Hne. by eapply (concat_NoDup_unique scc j k cj c v). }
  assert (∀ v, 0 ≤ v < len g → ∃ ct, cond' !! Z.to_nat v = Some ct ∧ 0 ≤ ct) as Hnn'.
  { intros v Hv. destruct (decide (v ∈ c)) as [Hvc|Hvc].
    - exists (Z.of_nat k). split; [by apply Hin|lia].
    - rewrite Hout by (done || lia). by apply Hnn. }
  destruct (cond_members_spec (Z.of_nat k) cond' c (Z.setbit 0 (Z.of_nat k)) [])
    as (m' & tos & -> & (Hnd & _ & _) & Hiff); [|done..|].
  { split_and!; [apply NoDup_nil_2|by intros ?%elem_of_nil|].
    intros Y. rewrite testbit_setbit, Z.bits_0 by lia. split.
    - intros [?|?]; [by left|done].
    - intros [?|?%elem_of_nil]; [by left|done]. }
  cbn [bindR]. rewrite set_at_in_range by (unfold len; lia). cbn [bindR].
  rewrite Nat2Z.id.
  apply IH; [lia|by rewrite length_insert|by rewrite Hlen'|..].
  - intros j cj v Hj. apply Hmark'. lia.
  - done.
  - intros X tosX HX. destruct (decide (X = k)) as [->|Hne].
    + rewrite list_lookup_insert_eq by lia. intros [= <-]. split; [done|].
      intros Y. rewrite Hiff. split.
      * intros [?%elem_of_nil|(Hne & n & v & Hn & Hnv & HY)]; [done|].
        split; [done|].
        destruct (arc_bounds g n v Hbounds Hnv) as [_ Hvr].
        destruct (node_component v Hvr) as (j & cj & Hj & Hvj).
        pose proof (Horder k j c cj n v Hc Hj Hn Hvj Hnv) as Hkj.
        rewrite (Hmark' j cj v Hkj Hj Hvj) in HY. injection HY as <-.
        exists c, cj, n, v. rewrite !Nat2Z.id. split_and!; (done || lia).
      * intros (Hne & cX & cY & u & v & _ & HY0 & HcX & HcY & Hu & Hv & Huv).
        right. split; [done|]. rewrite Nat2Z.id in HcX.
        rewrite Hc in HcX. injection HcX as <-.
        exists u, v. split_and!; [done..|].
        pose proof (Horder k (Z.to_nat Y) c cY u v Hc HcY Hu Hv Huv) as Hkj.
        rewrite (Hmark' (Z.to_nat Y) cY v Hkj HcY Hv). f_equal. lia.
    + rewrite list_lookup_insert_ne by done. apply Hgood. lia.
Qed.

End CondensationFacts.

Section TarjanCondensationFacts.
Import SCC.

Lemma arc_unlabeled (cd : list (list Z)) X Y :
  arc (unlabeled cd) X Y ↔
  0 ≤ X ∧ ∃ tos, cd !! Z.to_nat X = Some tos ∧ Y ∈ tos.
Proof.
  unfold arc, unlabeled. split.
  - intros (HX & tos & h & Hl & Hh & <-). split; [done|].
    rewrite list_lookup_fmap in Hl.
    destruct (cd !! Z.to_nat X) as [tosX|]; [|done]. injection Hl as <-.
    exists tosX. split; [done|].
    by apply list_elem_of_fmap in Hh as (t & -> & Ht).
  - intros (HX & tos & Hl & HY). split; [done|].
    exists ((λ t, mkHalf t 0) <$> tos), (mkHalf Y 0).
    rewrite list_lookup_fmap, Hl. split_and!; [done| |done].
    apply list_elem_of_fmap. by exists Y.
Qed.

(** What [TarjanCondensation] returns. *)
Lemma TarjanCondensation_spec g :
  BoundsOk g →
  ∃ scc cd, TarjanCondensation g = Ret (scc, cd) ∧
    TarjanForward g = Ret scc ∧ length cd = length scc ∧
    (∀ (i j : nat) ci cj u v,
       scc !! i = Some ci → scc !! j = Some cj → u ∈ ci → v ∈ cj →
       arc g u v → (i ≤ j)%nat) ∧
    ∀ (X : nat) tosX, cd !! X = Some tosX → tos_of g scc (Z.of_nat X) tosX.
Proof.
  intros Hb.
  destruct (TarjanForward_components g Hb)
    as (scc & Hfw & _ & Hnd & Hnodes & _ & Hord).
  destruct (cond_loop_spec g scc Hb Hnd Hnodes Hord (length scc)
              (replicate (length scc) []) (replicate (length g) 0))
    as (cd & Hrun & Hlen & Hgood).
  - done.
  - by rewrite length_replicate.
  - by rewrite len_replicate.
  - intros j c v Hj Hc. apply lookup_lt_Some in Hc. lia.
  - intros v Hv. exists 0. split; [|done].
    apply lookup_replicate_2. unfold len in Hv. lia.
  - intros X tosX HX Hl. apply lookup_lt_Some in Hl.
    rewrite length_replicate in Hl. lia.
  - exists scc, cd. unfold TarjanCondensation. rewrite Hfw. cbn [bindR].
    rewrite Hrun. by split_and!.
Qed.

(** C5. On a graph whose arcs stay in bounds, the condensation graph
    returned by [TarjanCondensation] has an arc from component [X] to
    component [Y] exactly when [X] differs from [Y] and some arc of the
    graph leads from a node of [X] to a node of [Y]; no arc list holds
    a component twice; it has no self-arc, and it is acyclic. *)
Theorem TarjanCondensation_acyclic_without_duplicates g :
  BoundsOk g →
  ∃ scc cd, TarjanCondensation g = Ret (scc, cd) ∧
    TarjanForward g = Ret scc ∧ length cd = length scc ∧
    (∀ X Y, arc (unlabeled cd) X Y ↔ X ≠ Y ∧ cond_arc g scc X Y) ∧
    (∀ (X : nat) tosX, cd !! X = Some tosX → NoDup tosX) ∧
    (∀ X, ¬ arc (unlabeled cd) X X) ∧
    Acyclic (unlabeled cd).
Proof.
  intros Hb.
  destruct (TarjanCondensation_spec g Hb)
    as (scc & cd & Hrun & Hfw & Hlen & Hord & Hgood).
  exists scc, cd.
  assert (∀ X Y, arc (unlabeled cd) X Y ↔ X ≠ Y ∧ cond_arc g scc X Y) as Harc.
  { intros X Y. rewrite arc_unlabeled. split.
    - intros (HX & tos & Hl & HY).
      destruct (Hgood _ _ Hl) as [_ Hiff]. rewrite Z2Nat.id in Hiff by done.
      apply Hiff in HY as [Hne Hca]. by split.
    - intros (Hne & Hca). pose proof Hca as (cX & _ & _ & _ & HX & _ & HcX & _).
      split; [done|].
      destruct (lookup_lt_is_Some_2 cd (Z.to_nat X)) as [tos Hl].
      { apply lookup_lt_Some in HcX. lia. }
      exists tos. split; [done|].
      destruct (Hgood _ _ Hl) as [_ Hiff]. rewrite Z2Nat.id in Hiff by done.
      apply Hiff. by split. }
  assert (∀ X Y, arc (unlabeled cd) X Y → X < Y) as Hlt.
  { intros X Y [Hne (cX & cY & u & v & HX & HY & HcX & HcY & Hu & Hv & Huv)]%Harc.
    pose proof (Hord _ _ _ _ _ _ HcX HcY Hu Hv Huv). lia. }
  split_and!; [done..| | |].
  - intros X tosX Hl. by destruct (Hgood _ _ Hl).
  - intros X HX%Hlt. lia.
  - intros [X HX].
    assert (∀ A B, tc (arc (unlabeled cd)) A B → A < B) as Htc.
    { intros A B Hab. induction Hab as [A B Hab|A C B Hac _ IH].
      - by apply Hlt.
      - apply Hlt in Hac. lia. }
    apply Htc in HX. lia.
Qed.

Lemma TarjanCondensation_acyclic_without_duplicates_witness :
  ∃ scc cd,
    TarjanCondensation
      (unlabeled [[1]; [4; 2; 5]; [3; 6]; [2; 7]; [5; 0]; [6]; [5]; [3; 6]])
    = Ret (scc, cd) ∧ length cd = length scc ∧ Acyclic (unlabeled cd).
Proof.
  destruct (TarjanCondensation_acyclic_without_duplicates
              (unlabeled [[1]; [4; 2; 5]; [3; 6]; [2; 7]; [5; 0]; [6]; [5]; [3; 6]]))
    as (scc & cd & Hrun & _ & Hlen & _ & _ & _ & Hac).
  - apply BoundsOkb_spec. reflexivity.
  - exists scc, cd. exact (conj Hrun (conj Hlen Hac)).
Defined.

End TarjanCondensationFacts.


(** ** Read-only methods of [AdjacencyList] *)

Section ReadOnlyFacts.
Import ReadOnly.

Lemma arcs_from_unlabeled_cons fr (tos : list Z) (g : list (list Z)) :
  arcs_from fr (unlabeled (tos :: g))
  = ((λ t, (fr, t)) <$> tos) ++ arcs_from (fr + 1) (unlabeled g).
Proof.
  unfold unlabeled. simpl. f_equal. rewrite map_map. done.
Qed.

Lemma edge_arc (g : list (list Z)) u v : edge g u v ↔ arc (unlabeled g) u v.
Proof. by rewrite arc_unlabeled. Qed.

Lemma elem_of_arcsU (g : list (list Z)) u v : (u, v) ∈ arcsU g ↔ edge g u v.
Proof. unfold arcsU. by rewrite elem_of_arcs, edge_arc. Qed.

Lemma BoundsOkU_arcsU (g : list (list Z)) :
  BoundsOkU g ↔ ∀ u v, (u, v) ∈ arcsU g → 0 ≤ v < len g.
Proof.
  split.
  - intros Hb u v (Hu & tos & Hl & Hv)%elem_of_arcsU.
    apply (Hb tos v); [by eapply list_elem_of_lookup_2|done].
  - intros H tos t Htos Ht. apply list_elem_of_lookup in Htos as [k Hk].
    apply (H (Z.of_nat k) t), elem_of_arcsU. split; [lia|].
    exists tos. by rewrite Nat2Z.id.
Qed.

Lemma bounds_arcs_spec n (tos : list Z) :
  match bounds_arcs n tos with
  | None => ∀ t, t ∈ tos → 0 ≤ t < n
  | Some to => ∃ l1 l2, tos = l1 ++ to :: l2 ∧ (∀ t, t ∈ l1 → 0 ≤ t < n) ∧
                        ¬ (0 ≤ to < n)
  end.
Proof.
  induction tos as [|t tos IH]; simpl; [by intros t ?%elem_of_nil|].
  destruct (Z.ltb_spec t 0); simpl.
  { exists [], tos. split_and!; [done|by intros ? ?%elem_of_nil|lia]. }
  destruct (Z.leb_spec n t); simpl.
  { exists [], tos. split_and!; [done|by intros ? ?%elem_of_nil|lia]. }
  destruct (bounds_arcs n tos) as [to|].
  - destruct IH as (l1 & l2 & -> & Hl1 & Hto). exists (t :: l1), l2.
    split_and!; [done| |done]. intros t' [->|Ht']%elem_of_cons; [lia|by apply Hl1].
  - intros t' [->|Ht']%elem_of_cons; [lia|by apply IH].
Qed.

Lemma bounds_nodes_spec n fr (g : list (list Z)) :
  match bounds_nodes n fr g with
  | None => ∀ u v, (u, v) ∈ arcs_from fr (unlabeled g) → 0 ≤ v < n
  | Some (fr', to) =>
      ∃ l1 l2, arcs_from fr (unlabeled g) = l1 ++ (fr', to) :: l2 ∧
               (∀ u v, (u, v) ∈ l1 → 0 ≤ v < n) ∧ ¬ (0 ≤ to < n)
  end.
Proof.
  revert fr. induction g as [|tos g IH]; intros fr.
  { simpl. by intros u v ?%elem_of_nil. }
  cbn [bounds_nodes]. rewrite arcs_from_unlabeled_cons.
  pose proof (bounds_arcs_spec n tos) as Harcs.
  destruct (bounds_arcs n tos) as [to|].
  - destruct Harcs as (l1 & l2 & -> & Hl1 & Hto).
    exists ((λ t, (fr, t)) <$> l1), (((λ t, (fr, t)) <$> l2) ++ arcs_from (fr + 1) (unlabeled g)).
    split_and!; [|  |done].
    + rewrite fmap_app, fmap_cons, <- app_assoc. done.
    + intros u v (t & [= -> ->] & Ht)%list_elem_of_fmap. by apply Hl1.
  - specialize (IH (fr + 1)).
    destruct (bounds_nodes n (fr + 1) g) as [[fr' to]|].
    + destruct IH as (l1 & l2 & Heq & Hl1 & Hto).
      exists (((λ t, (fr, t)) <$> tos) ++ l1), l2. split_and!; [| |done].
      * by rewrite Heq, <- app_assoc.
      * intros u v [(t & [= -> ->] & Ht)%list_elem_of_fmap|Hin]%elem_of_app;
          [by apply Harcs|by eapply Hl1].
    + intros u v [(t & [= -> ->] & Ht)%list_elem_of_fmap|Hin]%elem_of_app;
        [by apply Harcs|by eapply IH].
Qed.

(** X1. [BoundsOk] returns [(true, -1, 0)] exactly when every arc target
    lies in [0, len g); otherwise it returns [false] with the first arc
    of the scan whose target is out of bounds. *)
Theorem BoundsOk_reports_first_arc_out_of_bounds (g : list (list Z)) :
  (ReadOnly.BoundsOk g = (true, -1, 0) ↔ BoundsOkU g) ∧
  (¬ BoundsOkU g →
     ∃ fr to l1 l2, ReadOnly.BoundsOk g = (false, fr, to) ∧
       arcsU g = l1 ++ (fr, to) :: l2 ∧
       (∀ u v, (u, v) ∈ l1 → 0 ≤ v < len g) ∧ ¬ (0 ≤ to < len g)).
Proof.
  unfold ReadOnly.BoundsOk.
  pose proof (bounds_nodes_spec (len g) 0 g) as Hspec.
  change (arcs_from 0 (unlabeled g)) with (arcsU g) in Hspec.
  destruct (bounds_nodes (len g) 0 g) as [[fr to]|].
  - destruct Hspec as (l1 & l2 & Heq & Hl1 & Hto).
    assert (¬ BoundsOkU g) as Hnb.
    { intros Hb. apply Hto, (proj1 (BoundsOkU_arcsU g) Hb fr).
      rewrite Heq. set_solver. }
    split; [by split|]. intros _. by exists fr, to, l1, l2.
  - apply BoundsOkU_arcsU in Hspec. split; [by split|]. by intros [].
Qed.

Lemma has_arc_loop_spec (x : nat) (tos : list Z) to :
  (to ∉ tos ∧ has_arc_loop (Z.of_nat x) tos to = (false, -1)) ∨
  ∃ k : nat, has_arc_loop (Z.of_nat x) tos to = (true, Z.of_nat (x + k)) ∧
    tos !! k = Some to ∧ ∀ j : nat, (j < k)%nat → tos !! j ≠ Some to.
Proof.
  revert x. induction tos as [|h tos IH]; intros x.
  { left. split; [by intros ?%elem_of_nil|done]. }
  simpl. destruct (Z.eqb_spec h to) as [->|Hne].
  - right. exists 0%nat. rewrite Nat.add_0_r. split_and!; [done..|]. lia.
  - replace (Z.of_nat x + 1) with (Z.of_nat (S x)) by lia.
    destruct (IH (S x)) as [[Hnin ->]|(k & -> & Hk & Hmin)].
    + left. split; [|done]. by intros [?|?]%elem_of_cons.
    + right. exists (S k). split_and!; [f_equal; lia|done|].
      intros [|j] Hj; simpl; [by intros [= ?]|]. apply Hmin. lia.
Qed.

(** X2. [HasArc] panics when [fr] is no node of [g]; otherwise it
    returns [(false, -1)] when [g[fr]] holds no arc to [to], and [true]
    with the least index of such an arc when it holds one. *)
Theorem HasArc_least_index (g : list (list Z)) fr to :
  (¬ (0 ≤ fr < len g) → HasArc g fr to = Panic) ∧
  (∀ tos, 0 ≤ fr → g !! Z.to_nat fr = Some tos →
     (to ∉ tos ∧ HasArc g fr to = Ret (false, -1)) ∨
     ∃ k : nat, HasArc g fr to = Ret (true, Z.of_nat k) ∧
       tos !! k = Some to ∧ ∀ j : nat, (j < k)%nat → tos !! j ≠ Some to).
Proof.
  split.
  - intros Hfr. unfold HasArc, at_. destruct (Z.ltb_spec fr 0); [done|].
    assert (g !! Z.to_nat fr = None) as ->; [|done].
    apply lookup_ge_None. unfold len in Hfr. lia.
  - intros tos Hfr Hg. unfold HasArc. rewrite (at_lookup _ _ _ Hfr Hg). cbn [bindR].
    destruct (has_arc_loop_spec 0 tos to) as [[Hnin Hr]|(k & Hr & Hk & Hmin)];
      change (Z.of_nat 0) with 0 in Hr; rewrite Hr.
    + by left.
    + right. exists k. by split_and!.
Qed.

Lemma parallel_loop_app x (tos : list Z) to p :
  parallel_loop x tos to p = p ++ parallel_loop x tos to [].
Proof.
  revert x p. induction tos as [|h tos IH]; intros x p; simpl.
  { by rewrite app_nil_r. }
  destruct (h =? to); [|apply IH].
  rewrite (IH _ (p ++ [x])), (IH _ [x]). by rewrite <- app_assoc.
Qed.

Lemma parallel_loop_spec (x : nat) (tos : list Z) to :
  let p := parallel_loop (Z.of_nat x) tos to [] in
  (∀ y, y ∈ p ↔ ∃ k : nat, y = Z.of_nat (x + k) ∧ tos !! k = Some to) ∧
  (∀ (i j : nat) a b, p !! i = Some a → p !! j = Some b → (i < j)%nat → a < b) ∧
  length p = count_occ Z.eq_dec tos to.
Proof.
  revert x. induction tos as [|h tos IH]; intros x; simpl.
  { split_and!; [|done..]. intros y. split; [by intros ?%elem_of_nil|].
    by intros (k & _ & ?). }
  replace (Z.of_nat x + 1) with (Z.of_nat (S x)) by lia.
  destruct (IH (S x)) as (Hmem & Hsort & Hlen).
  assert (∀ y, (∃ k : nat, y = Z.of_nat (S x + k) ∧ tos !! k = Some to) ↔
               (∃ k : nat, y = Z.of_nat (x + S k) ∧ tos !! k = Some to)) as Hshift.
  { intros y. split; intros (k & -> & Hk); exists k; (split; [f_equal; lia|done]). }
  destruct (Z.eqb_spec h to) as [->|Hne].
  - rewrite parallel_loop_app. simpl. split_and!.
    + intros y. rewrite elem_of_cons, Hmem, Hshift. split.
      * intros [->|(k & -> & Hk)]; [exists 0%nat|exists (S k)]; (split; [f_equal; lia|done]).
      * intros ([|k] & -> & Hk); [left; f_equal; lia|right; by exists k].
    + intros [|i] [|j] a b Hi Hj Hij; simpl in *; try lia.
      * injection Hi as <-. apply list_elem_of_lookup_2, Hmem in Hj as (k & -> & _). lia.
      * apply (Hsort i j); [done..|lia].
    + destruct (Z.eq_dec to to); [|done]. by rewrite Hlen.
  - split_and!.
    + intros y. rewrite Hmem, Hshift. split.
      * intros (k & -> & Hk). exists (S k). split; [f_equal; lia|done].
      * intros ([|k] & -> & Hk); [simpl in Hk; congruence|by exists k].
    + done.
    + destruct (Z.eq_dec h to); [done|]. by rewrite Hlen.
Qed.

(** X3. [ParallelArcs] returns the indices at which [g[fr]] holds an
    arc to [to]: all of them, in increasing order, as many as there are
    such arcs. *)
Theorem ParallelArcs_lists_all_indices (g : list (list Z)) fr to tos :
  0 ≤ fr → g !! Z.to_nat fr = Some tos →
  ∃ p, ParallelArcs g fr to = Ret p ∧
    (∀ y, y ∈ p ↔ ∃ k : nat, y = Z.of_nat k ∧ tos !! k = Some to) ∧
    (∀ (i j : nat) a b, p !! i = Some a → p !! j = Some b → (i < j)%nat → a < b) ∧
    length p = count_occ Z.eq_dec tos to.
Proof.
  intros Hfr Hg. unfold ParallelArcs. rewrite (at_lookup _ _ _ Hfr Hg). cbn [bindR].
  eexists. split; [done|]. apply (parallel_loop_spec 0 tos to).
Qed.

Lemma ParallelArcs_lists_all_indices_witness :
  ∃ p, ParallelArcs [[1; 2; 1]; [0]; [1]] 0 1 = Ret p ∧ length p = 2%nat.
Proof.
  destruct (ParallelArcs_lists_all_indices [[1; 2; 1]; [0]; [1]] 0 1 [1; 2; 1])
    as (p & Hrun & _ & _ & Hlen); [lia|reflexivity|].
  exists p. exact (conj Hrun Hlen).
Defined.

Lemma has_arc_parallel_loop x (tos : list Z) to :
  (has_arc_loop x tos to = (false, -1) ∧ parallel_loop x tos to [] = []) ∨
  ∃ y, has_arc_loop x tos to = (true, y) ∧
       head (parallel_loop x tos to []) = Some y.
Proof.
  revert x. induction tos as [|h tos IH]; intros x; simpl; [by left|].
  destruct (h =? to).
  - right. exists x. split; [done|]. by rewrite parallel_loop_app.
  - apply IH.
Qed.

(** X4. [HasArc] and [ParallelArcs] agree: [HasArc] finds no arc
    exactly when [ParallelArcs] returns an empty list, and the index it
    returns otherwise is the first one [ParallelArcs] lists. *)
Theorem HasArc_agrees_with_ParallelArcs (g : list (list Z)) fr to :
  0 ≤ fr < len g →
  (HasArc g fr to = Ret (false, -1) ∧ ParallelArcs g fr to = Ret []) ∨
  ∃ x p, HasArc g fr to = Ret (true, x) ∧ ParallelArcs g fr to = Ret (x :: p).
Proof.
  intros Hfr. destruct (at_in_range g fr Hfr) as (tos & _ & Hat).
  unfold HasArc, ParallelArcs. rewrite Hat. cbn [bindR].
  destruct (has_arc_parallel_loop 0 tos to) as [[-> ->]|(y & -> & Hhead)]; [by left|].
  right. destruct (parallel_loop 0 tos to []) as [|y' p]; [done|].
  injection Hhead as ->. by exists y, p.
Qed.

Lemma HasArc_agrees_with_ParallelArcs_witness :
  ∃ x p, HasArc [[1; 2; 1]; [0]; [1]] 0 1 = Ret (true, x) ∧
         ParallelArcs [[1; 2; 1]; [0]; [1]] 0 1 = Ret (x :: p).
Proof.
  destruct (HasArc_agrees_with_ParallelArcs [[1; 2; 1]; [0]; [1]] 0 1)
    as [[Hh _]|Hres]; [unfold len; simpl; lia|discriminate Hh|exact Hres].
Defined.

Lemma loop_arcs_spec fr (tos : list Z) :
  match loop_arcs fr tos with
  | None => fr ∉ tos
  | Some to => to = fr ∧ fr ∈ tos
  end.
Proof.
  induction tos as [|t tos IH]; simpl; [by intros ?%elem_of_nil|].
  destruct (Z.eqb_spec fr t) as [->|Hne]; [split; [done|left]|].
  destruct (loop_arcs fr tos).
  - destruct IH as [-> ?]. split; [done|by right].
  - by intros [?|?]%elem_of_cons.
Qed.

Lemma loop_nodes_spec (fr : nat) (g : list (list Z)) :
  (loop_nodes (Z.of_nat fr) g = (false, -1) ∧
   ∀ (k : nat) tos, g !! k = Some tos → Z.of_nat (fr + k) ∉ tos) ∨
  ∃ (k : nat) tos, loop_nodes (Z.of_nat fr) g = (true, Z.of_nat (fr + k)) ∧
    g !! k = Some tos ∧ Z.of_nat (fr + k) ∈ tos ∧
    ∀ (j : nat) tos', (j < k)%nat → g !! j = Some tos' → Z.of_nat (fr + j) ∉ tos'.
Proof.
  revert fr. induction g as [|tos g IH]; intros fr; simpl.
  { left. split; [done|]. by intros k tos. }
  pose proof (loop_arcs_spec (Z.of_nat fr) tos) as Harcs.
  destruct (loop_arcs (Z.of_nat fr) tos) as [to|].
  - destruct Harcs as [-> Hin]. right. exists 0%nat, tos.
    rewrite Nat.add_0_r. split_and!; [done..|]. lia.
  - replace (Z.of_nat fr + 1) with (Z.of_nat (S fr)) by lia.
    destruct (IH (S fr)) as [[-> Hno]|(k & tos' & -> & Hk & Hin & Hmin)].
    + left. split; [done|]. intros [|k] tos'; simpl.
      * intros [= <-]. by rewrite Nat.add_0_r.
      * intros Hk. replace (fr + S k)%nat with (S fr + k)%nat by lia. by eapply Hno.
    + right. exists (S k), tos'.
      replace (fr + S k)%nat with (S fr + k)%nat by lia. split_and!; [done..|].
      intros [|j] tos'' Hj; simpl.
      * intros [= <-]. by rewrite Nat.add_0_r.
      * intros Hl. replace (fr + S j)%nat with (S fr + j)%nat by lia.
        eapply Hmin; [|done]. lia.
Qed.

(** X5. [AnyLoop] returns [(false, -1)] exactly when no node has an arc
    to itself, and otherwise [true] with the least node that has one. *)
Theorem AnyLoop_finds_least_loop (g : list (list Z)) :
  (AnyLoop g = (false, -1) ↔ ∀ n, ¬ edge g n n) ∧
  (∀ n, AnyLoop g = (true, n) ↔
        edge g n n ∧ ∀ m, 0 ≤ m < n → ¬ edge g m m).
Proof.
  unfold AnyLoop.
  assert (∀ n, edge g n n ↔ ∃ (k : nat) tos, n = Z.of_nat k ∧ g !! k = Some tos ∧ n ∈ tos)
    as Hedge.
  { intros n. split.
    - intros (Hn & tos & Hl & Hin). exists (Z.to_nat n), tos. split; [lia|done].
    - intros (k & tos & -> & Hl & Hin). split; [lia|]. exists tos.
      by rewrite Nat2Z.id. }
  destruct (loop_nodes_spec 0 g) as [[Hr Hno]|(k & tos & Hr & Hk & Hin & Hmin)];
    change (Z.of_nat 0) with 0 in Hr; simpl in *; rewrite Hr.
  - split.
    + split; [|done]. intros _ n (k & tos & -> & Hl & Hn)%Hedge. by eapply Hno.
    + intros n. split; [done|]. intros [(k & tos & -> & Hl & Hn)%Hedge _].
      by destruct (Hno k tos Hl).
  - assert (edge g (Z.of_nat k) (Z.of_nat k)) as Hloop
      by (apply Hedge; by exists k, tos).
    split.
    + split; [done|]. intros Hno. by destruct (Hno _ Hloop).
    + intros n. split.
      * intros [= <-]. split; [done|].
        intros m Hm (j & tos' & -> & Hl & Hmm)%Hedge. eapply Hmin; [|done..]. lia.
      * intros [(j & tos' & -> & Hl & Hn)%Hedge Hleast]. do 2 f_equal.
        destruct (lt_eq_lt_dec j k) as [[Hlt| ->]|Hgt]; [|done|].
        -- by destruct (Hmin j tos' Hlt Hl).
        -- destruct (Hleast (Z.of_nat k)); [lia|done].
Qed.

Lemma parallel_arcs_spec (tos : list Z) (m : gset Z) :
  match parallel_arcs tos m with
  | None => NoDup tos ∧ ∀ x, x ∈ tos → x ∉ m
  | Some to => ∃ l1 l2, tos = l1 ++ to :: l2 ∧ NoDup l1 ∧
                 (∀ x, x ∈ l1 → x ∉ m) ∧ (to ∈ m ∨ to ∈ l1)
  end.
Proof.
  revert m. induction tos as [|t tos IH]; intros m; simpl.
  { split; [constructor|]. by intros x ?%elem_of_nil. }
  destruct (decide (t ∈ m)) as [Hin|Hnin].
  { exists [], tos. split_and!; [done|constructor| |by left].
    by intros x ?%elem_of_nil. }
  specialize (IH ({[t]} ∪ m)).
  destruct (parallel_arcs tos ({[t]} ∪ m)) as [to|].
  - destruct IH as (l1 & l2 & -> & Hnd & Hm & Hto).
    exists (t :: l1), l2. split_and!; [done| | |].
    + constructor; [|done]. intros Hin. apply (Hm _ Hin). set_solver.
    + intros x [->|Hx]%elem_of_cons; [done|]. specialize (Hm x Hx). set_solver.
    + destruct Hto as [[Hto|Hto]%elem_of_union|Hto].
      * right. apply elem_of_singleton in Hto as ->. left.
      * by left.
      * right. by right.
  - destruct IH as [Hnd Hm]. split.
    + constructor; [|done]. intros Hin. apply (Hm _ Hin). set_solver.
    + intros x [->|Hx]%elem_of_cons; [done|]. specialize (Hm x Hx). set_solver.
Qed.

Lemma parallel_nodes_spec (n : nat) (g : list (list Z)) :
  (parallel_nodes (Z.of_nat n) g = (false, -1, -1) ∧ ∀ tos, tos ∈ g → NoDup tos) ∨
  ∃ (k : nat) to l1 l2,
    parallel_nodes (Z.of_nat n) g = (true, Z.of_nat (n + k), to) ∧
    g !! k = Some (l1 ++ to :: l2) ∧ NoDup l1 ∧ to ∈ l1 ∧
    ∀ (j : nat) tos, (j < k)%nat → g !! j = Some tos → NoDup tos.
Proof.
  revert n. induction g as [|tos g IH]; intros n; simpl.
  { left. split; [done|]. by intros tos ?%elem_of_nil. }
  replace (Z.of_nat n + 1) with (Z.of_nat (S n)) by lia.
  assert (NoDup tos →
    (parallel_nodes (Z.of_nat (S n)) g = (false, -1, -1) ∧
       ∀ tos', tos' ∈ tos :: g → NoDup tos') ∨
    ∃ (k : nat) to l1 l2,
      parallel_nodes (Z.of_nat (S n)) g = (true, Z.of_nat (n + k), to) ∧
      (tos :: g) !! k = Some (l1 ++ to :: l2) ∧ NoDup l1 ∧ to ∈ l1 ∧
      ∀ (j : nat) tos', (j < k)%nat → (tos :: g) !! j = Some tos' → NoDup tos')
    as Hskip.
  { intros Hnd. destruct (IH (S n)) as [[-> Hall]|(k & to & l1 & l2 & -> & Hk & Hl1 & Hto & Hmin)].
    - left. split; [done|]. by intros tos' [->|?]%elem_of_cons; [|apply Hall].
    - right. exists (S k), to, l1, l2. split_and!; [do 2 f_equal; lia|done..|].
      intros [|j] tos' Hj; simpl; [by intros [= <-]|]. apply Hmin. lia. }
  destruct (Z.eqb_spec (len tos) 0) as [Hlen|Hlen].
  { apply Hskip. destruct tos; [constructor|done]. }
  pose proof (parallel_arcs_spec tos ∅) as Harcs.
  destruct (parallel_arcs tos ∅) as [to|].
  - destruct Harcs as (l1 & l2 & -> & Hnd & _ & [Hto|Hto]); [set_solver|].
    right. exists 0%nat, to, l1, l2. rewrite Nat.add_0_r.
    split_and!; [done..|]. lia.
  - apply Hskip, Harcs.
Qed.

(** X6. [AnyParallelMap] returns [(false, -1, -1)] when no arc list
    holds a target twice.  Otherwise it returns [true] with the least
    node [fr] whose arc list repeats a target, and the target [to] of the
    first arc of that list that repeats an earlier one. *)
Theorem AnyParallelMap_finds_first_parallel (g : list (list Z)) :
  (AnyParallelMap g = (false, -1, -1) ∧ ∀ tos, tos ∈ g → NoDup tos) ∨
  ∃ (fr : nat) to l1 l2,
    AnyParallelMap g = (true, Z.of_nat fr, to) ∧
    g !! fr = Some (l1 ++ to :: l2) ∧ NoDup l1 ∧ to ∈ l1 ∧
    ∀ (j : nat) tos, (j < fr)%nat → g !! j = Some tos → NoDup tos.
Proof. apply (parallel_nodes_spec 0 g). Qed.

Lemma ArcSize_foldl (g : list (list Z)) (a : Z) :
  foldl (λ m to, m + len to) a g = a + ArcSize g.
Proof.
  unfold ArcSize. revert a. induction g as [|to g IH]; intros a; simpl; [lia|].
  rewrite (IH (a + len to)), (IH (0 + len to)). lia.
Qed.

Lemma ArcSize_cons (to : list Z) (g : list (list Z)) :
  ArcSize (to :: g) = len to + ArcSize g.
Proof. unfold ArcSize at 1. simpl. by rewrite ArcSize_foldl. Qed.

Lemma length_arcs_from_unlabeled fr (g : list (list Z)) :
  Z.of_nat (length (arcs_from fr (unlabeled g))) = ArcSize g.
Proof.
  revert fr. induction g as [|to g IH]; intros fr; [done|].
  rewrite arcs_from_unlabeled_cons, length_app, length_fmap, ArcSize_cons.
  rewrite Nat2Z.inj_add, IH. done.
Qed.

Lemma copy_loop_spec (g pre : list (list Z)) (ma : Z) :
  copy_loop (len pre) g (pre ++ replicate (length g) []) ma
  = Ret (pre ++ g, ma + ArcSize g).
Proof.
  revert pre ma. induction g as [|to g IH]; intros pre ma; simpl.
  { unfold ArcSize. simpl. by rewrite Z.add_0_r. }
  rewrite set_at_in_range.
  2:{ unfold len. rewrite length_app. simpl. lia. }
  cbn [bindR].
  replace (Z.to_nat (len pre)) with (length pre + 0)%nat by (unfold len; lia).
  rewrite insert_app_r. simpl.
  replace (len pre + 1) with (len (pre ++ [to])) by (unfold len; rewrite length_app; simpl; lia).
  replace (pre ++ to :: replicate (length g) [])
    with ((pre ++ [to]) ++ replicate (length g) []) by by rewrite <- app_assoc.
  rewrite IH, <- app_assoc, ArcSize_cons. simpl. do 2 f_equal. lia.
Qed.

(** X7. [ArcSize] is the number of arcs of [g], and [Copy] never
    panics: it returns a graph with the nodes and arc lists of [g]
    together with [ArcSize g]. *)
Theorem Copy_returns_graph_and_ArcSize (g : list (list Z)) :
  ArcSize g = Z.of_nat (length (arcsU g)) ∧ Copy g = Ret (g, ArcSize g).
Proof.
  split.
  - symmetry. apply length_arcs_from_unlabeled.
  - apply (copy_loop_spec g [] 0).
Qed.

Lemma isolated_arcs_spec (tos : list Z) (i : list bool) :
  (∀ t, t ∈ tos → 0 ≤ t < len i) →
  ∃ i', isolated_arcs tos i = Ret i' ∧ length i' = length i ∧
    ∀ n : nat, i' !! n = Some true ↔ i !! n = Some true ∧ Z.of_nat n ∉ tos.
Proof.
  revert i. induction tos as [|t tos IH]; intros i Hb; simpl.
  { exists i. split_and!; [done..|]. intros n. split; [|by intros [? _]].
    intros ?. split; [done|]. by intros ?%elem_of_nil. }
  assert (0 ≤ t < len i) as Ht by (apply Hb; left).
  rewrite (set_at_in_range _ _ _ Ht). cbn [bindR].
  destruct (IH (<[Z.to_nat t := false]> i)) as (i' & -> & Hlen & Hi').
  { intros t' Ht'. rewrite len_insert. apply Hb. by right. }
  exists i'. split; [done|]. rewrite Hlen, length_insert. split; [done|].
  intros n. rewrite Hi', elem_of_cons.
  destruct (decide (n = Z.to_nat t)) as [->|Hne].
  - rewrite list_lookup_insert_eq by (unfold len in Ht; lia).
    split; [by intros [[=] _]|]. intros [_ Hn]. destruct Hn. left. lia.
  - rewrite list_lookup_insert_ne by done. split.
    + intros [? ?]. split; [done|]. intros [Heq|?]; [lia|done].
    + intros [? Hn]. split; [done|]. intros ?. apply Hn. by right.
Qed.

Lemma isolated_nodes_spec (rest : list (list Z)) (fr : nat) (i : list bool) :
  (fr + length rest ≤ length i)%nat →
  (∀ tos t, tos ∈ rest → t ∈ tos → 0 ≤ t < len i) →
  ∃ i', isolated_nodes (Z.of_nat fr) rest i = Ret i' ∧ length i' = length i ∧
    ∀ n : nat, i' !! n = Some true ↔
      i !! n = Some true ∧
      ∀ (k : nat) tos, rest !! k = Some tos →
        ¬ (tos ≠ [] ∧ n = (fr + k)%nat) ∧ Z.of_nat n ∉ tos.
Proof.
  revert fr i. induction rest as [|tos rest IH]; intros fr i Hlen Hb; simpl.
  { exists i. split_and!; [done..|]. intros n. split; [|by intros [? _]].
    intros ?. split; [done|]. by intros k tos. }
  replace (Z.of_nat fr + 1) with (Z.of_nat (S fr)) by lia.
  simpl in Hlen.
  destruct (Z.ltb_spec 0 (len tos)) as [Hpos|Hzero].
  - rewrite set_at_in_range by (unfold len; lia). cbn [bindR].
    destruct (isolated_arcs_spec tos (<[Z.to_nat (Z.of_nat fr) := false]> i))
      as (i2 & -> & Hlen2 & Hi2).
    { intros t Ht. rewrite len_insert. apply (Hb tos); [left|done]. }
    cbn [bindR]. rewrite length_insert in Hlen2.
    destruct (IH (S fr) i2) as (i' & -> & Hlen' & Hi'); [lia| |].
    { intros tos' t Htos' Ht. unfold len. rewrite Hlen2.
      apply (Hb tos'); [by right|done]. }
    exists i'. split; [done|]. split; [lia|].
    intros n. rewrite Hi', Hi2, Nat2Z.id.
    destruct (decide (n = fr)) as [->|Hne].
    + rewrite list_lookup_insert_eq by lia. split; [by intros [[[=] _] _]|].
      intros [_ Hall]. destruct (Hall 0%nat tos eq_refl) as [Hn _]. destruct Hn.
      split; [|lia]. intros ->. unfold len in Hpos. simpl in Hpos. lia.
    + rewrite list_lookup_insert_ne by done. split.
      * intros [[Hi Hn] Hall]. split; [done|]. intros [|k] tos' Hk; simpl in Hk.
        -- injection Hk as <-. split; [lia|done].
        -- destruct (Hall k tos' Hk) as [H1 H2]. split; [|done].
           intros [? ->]. apply H1. split; [done|lia].
      * intros [Hi Hall]. split_and!; [done|apply (Hall 0%nat tos eq_refl)|].
        intros k tos' Hk. destruct (Hall (S k) tos' Hk) as [H1 H2]. split; [|done].
        intros [? ->]. apply H1. split; [done|lia].
  - assert (tos = []) as -> by (destruct tos; [done|unfold len in Hzero; simpl in Hzero; lia]).
    destruct (IH (S fr) i) as (i' & -> & Hlen' & Hi'); [lia| |].
    { intros tos' t Htos' Ht. apply (Hb tos'); [by right|done]. }
    exists i'. split; [done|]. split; [done|].
    intros n. rewrite Hi'. split.
    + intros [Hi Hall]. split; [done|]. intros [|k] tos' Hk; simpl in Hk.
      * injection Hk as <-. split; [by intros [? _]|by intros ?%elem_of_nil].
      * destruct (Hall k tos' Hk) as [H1 H2]. split; [|done].
        intros [? ->]. apply H1. split; [done|lia].
    + intros [Hi Hall]. split; [done|].
      intros k tos' Hk. destruct (Hall (S k) tos' Hk) as [H1 H2]. split; [|done].
      intros [? ->]. apply H1. split; [done|lia].
Qed.

(** X8. On a graph whose arcs stay within bounds, [IsolatedNodes]
    returns one bit per node, set exactly for the nodes that have no arc
    leaving them and no arc entering them. *)
Theorem IsolatedNodes_marks_nodes_without_arcs (g : list (list Z)) :
  BoundsOkU g →
  ∃ i, IsolatedNodes g = Ret i ∧ length i = length g ∧
    ∀ n, 0 ≤ n < len g →
      (i !! Z.to_nat n = Some true ↔ ∀ m, ¬ edge g n m ∧ ¬ edge g m n).
Proof.
  intros Hb. unfold IsolatedNodes.
  destruct (isolated_nodes_spec g 0 (replicate (length g) true))
    as (i & Hrun & Hlen & Hi).
  { rewrite length_replicate. lia. }
  { intros tos t Htos Ht. rewrite len_replicate. by apply (Hb tos). }
  change (Z.of_nat 0) with 0 in Hrun. exists i. split; [done|].
  rewrite length_replicate in Hlen. split; [done|].
  intros n Hn. rewrite Hi. unfold len in Hn.
  rewrite lookup_replicate_2 by lia. split.
  - intros [_ Hall] m. split.
    + intros (_ & tos & Hl & Hm). destruct (Hall _ _ Hl) as [H1 _]. apply H1.
      split; [by intros ->; apply elem_of_nil in Hm|]. simpl. done.
    + intros (Hm & tos & Hl & Hin). destruct (Hall _ _ Hl) as [_ H2]. apply H2.
      by rewrite Z2Nat.id by lia.
  - intros Hall. split; [done|]. intros k tos Hk. split.
    + intros [Hne Heq]. simpl in Heq. subst k. destruct tos as [|t tos]; [done|].
      destruct (Hall t) as [H1 _]. apply H1. split; [lia|]. exists (t :: tos).
      split; [done|left].
    + intros Hin. destruct (Hall (Z.of_nat k)) as [_ H2]. apply H2.
      split; [lia|]. exists tos. rewrite Nat2Z.id. split; [done|].
      by rewrite Z2Nat.id in Hin by lia.
Qed.

Lemma IsolatedNodes_marks_nodes_without_arcs_witness :
  ∃ i, IsolatedNodes [[2]; []; [0]; []] = Ret i ∧ length i = 4%nat.
Proof.
  destruct (IsolatedNodes_marks_nodes_without_arcs [[2]; []; [0]; []])
    as (i & Hrun & Hlen & _).
  { apply BoundsOkUb_spec. reflexivity. }
  exists i. exact (conj Hrun Hlen).
Defined.

End ReadOnlyFacts.

(** ** [InDegree] and [Balanced] *)

Section DegreeFacts.

Lemma indegree_arcs_spec (nbs : list Half) (ind : list Z) :
  (∀ h, h ∈ nbs → 0 ≤ To h < len ind) →
  ∃ ind', Directed.indegree_arcs nbs ind = Ret ind' ∧ length ind' = length ind ∧
    ∀ (v : nat) d, ind !! v = Some d →
      ind' !! v = Some (d + Z.of_nat (count_occ Z.eq_dec (To <$> nbs) (Z.of_nat v))).
Proof.
  revert ind. induction nbs as [|nb nbs IH]; intros ind Hb; simpl.
  { exists ind. split_and!; [done..|]. intros v d ->. f_equal. lia. }
  assert (0 ≤ To nb < len ind) as Hnb by (apply Hb; left).
  destruct (at_in_range ind (To nb) Hnb) as (d0 & Hd0 & ->). cbn [bindR].
  rewrite (set_at_in_range _ _ _ Hnb). cbn [bindR].
  destruct (IH (<[Z.to_nat (To nb) := d0 + 1]> ind)) as (ind' & -> & Hlen & Hind').
  { intros h Hh. rewrite len_insert. apply Hb. by right. }
  exists ind'. split; [done|]. rewrite Hlen, length_insert. split; [done|].
  intros v d Hv. destruct (decide (v = Z.to_nat (To nb))) as [->|Hne].
  - rewrite (Hind' _ (d0 + 1)).
    2:{ rewrite list_lookup_insert_eq; [done|]. unfold len in Hnb. lia. }
    rewrite Hd0 in Hv. injection Hv as ->. f_equal.
    destruct (Z.eq_dec (To nb) (Z.of_nat (Z.to_nat (To nb)))); unfold fmap; lia.
  - rewrite (Hind' _ d) by by rewrite list_lookup_insert_ne.
    f_equal. destruct (Z.eq_dec (To nb) (Z.of_nat v)); unfold fmap; lia.
Qed.

Lemma indegree_arcs_panic (nbs : list Half) (ind : list Z) :
  forallb (λ h, (0 <=? To h) && (To h <? len ind)) nbs = false →
  Directed.indegree_arcs nbs ind = Panic.
Proof.
  revert ind. induction nbs as [|nb nbs IH]; intros ind; simpl; [done|].
  destruct (Z.leb_spec 0 (To nb)) as [H0|H0]; simpl.
  - destruct (Z.ltb_spec (To nb) (len ind)) as [H1|H1]; simpl.
    + intros Hrest.
      destruct (at_in_range ind (To nb)) as (d0 & _ & ->); [lia|]. cbn [bindR].
      rewrite set_at_in_range by lia. cbn [bindR].
      apply IH. by rewrite len_insert.
    + intros _. unfold at_. destruct (Z.ltb_spec (To nb) 0); [done|].
      assert (ind !! Z.to_nat (To nb) = None) as ->; [|done].
      apply lookup_ge_None. unfold len in H1. lia.
  - intros _. unfold at_. destruct (Z.ltb_spec (To nb) 0); [done|lia].
Qed.

Lemma indegree_nodes_spec (g : list (list Half)) (fr : Z) (ind : list Z) :
  (∀ tos h, tos ∈ g → h ∈ tos → 0 ≤ To h < len ind) →
  ∃ ind', Directed.indegree_nodes g ind = Ret ind' ∧ length ind' = length ind ∧
    ∀ (v : nat) d, ind !! v = Some d →
      ind' !! v =
      Some (d + Z.of_nat (count_occ Z.eq_dec (arcs_from fr g).*2 (Z.of_nat v))).
Proof.
  revert fr ind. induction g as [|nbs g IH]; intros fr ind Hb; simpl.
  { exists ind. split_and!; [done..|]. intros v d ->. f_equal. lia. }
  destruct (indegree_arcs_spec nbs ind) as (ind1 & -> & Hlen1 & Hind1).
  { intros h Hh. apply (Hb nbs); [left|done]. }
  cbn [bindR].
  destruct (IH (fr + 1) ind1) as (ind' & -> & Hlen & Hind').
  { intros tos h Htos Hh. unfold len. rewrite Hlen1. apply (Hb tos); [by right|done]. }
  exists ind'. split; [done|]. split; [lia|].
  intros v d Hv. rewrite (Hind' _ _ (Hind1 _ _ Hv)). f_equal.
  rewrite fmap_app, count_occ_app, <- list_fmap_compose.
  change (snd ∘ (λ h : Half, (fr, To h))) with To. lia.
Qed.

Lemma indegree_nodes_panic (g : list (list Half)) (ind : list Z) :
  forallb (forallb (λ h, (0 <=? To h) && (To h <? len ind))) g = false →
  Directed.indegree_nodes g ind = Panic.
Proof.
  revert ind. induction g as [|nbs g IH]; intros ind; simpl; [done|].
  destruct (forallb (λ h, (0 <=? To h) && (To h <? len ind)) nbs) eqn:Hrow; simpl.
  - intros Hrest.
    destruct (indegree_arcs_spec nbs ind) as (ind1 & -> & Hlen1 & _).
    { intros h Hh. rewrite forallb_forall in Hrow.
      specialize (Hrow h (proj1 (list_elem_of_In _ _) Hh)). lia. }
    cbn [bindR]. apply IH. unfold len in *. by rewrite Hlen1.
  - intros _. by rewrite indegree_arcs_panic.
Qed.

Lemma InDegree_spec (g : list (list Half)) :
  BoundsOk g →
  ∃ ind, Directed.InDegree g = Ret ind ∧ length ind = length g ∧
    ∀ v, 0 ≤ v < len g → ind !! Z.to_nat v = Some (Z.of_nat (indegree g v)).
Proof.
  intros Hb. unfold Directed.InDegree.
  destruct (indegree_nodes_spec g 0 (replicate (length g) 0))
    as (ind & Hrun & Hlen & Hind).
  { intros tos h Htos Hh. rewrite len_replicate. by apply (Hb tos). }
  exists ind. split; [done|]. rewrite length_replicate in Hlen. split; [done|].
  intros v Hv. unfold len in Hv.
  rewrite (Hind _ 0) by (apply lookup_replicate_2; lia).
  rewrite Z2Nat.id by lia. done.
Qed.

(** X9. When every arc of [g] stays within bounds, [InDegree] returns
    one counter per node, holding the number of arcs that enter the
    node; when some arc leaves the bounds of [g], [InDegree] panics. *)
Theorem InDegree_counts_incoming_arcs (g : list (list Half)) :
  (BoundsOk g →
     ∃ ind, Directed.InDegree g = Ret ind ∧ length ind = length g ∧
       ∀ v, 0 ≤ v < len g → ind !! Z.to_nat v = Some (Z.of_nat (indegree g v))) ∧
  (¬ BoundsOk g → Directed.InDegree g = Panic).
Proof.
  split; [apply InDegree_spec|].
  intros Hnb. apply indegree_nodes_panic. rewrite len_replicate.
  destruct (BoundsOkb g) eqn:Hbb; [by apply BoundsOkb_spec in Hbb|done].
Qed.

Lemma balanced_loop_spec (g : list (list Half)) (ind ins : list Z) (k : nat) :
  length ind = length g → drop k ind = ins →
  ∃ b, Directed.balanced_loop g (Z.of_nat k) ins = Ret b ∧
    (b = true ↔
     ∀ (j : nat) d tos, (k ≤ j)%nat → ind !! j = Some d → g !! j = Some tos →
       d = len tos).
Proof.
  intros Hlen. revert k. induction ins as [|d ins IH]; intros k Hdrop; simpl.
  { exists true. split; [done|]. split; [|done]. intros _ j d tos Hj Hd.
    apply lookup_lt_Some in Hd. apply (f_equal length) in Hdrop.
    rewrite length_drop in Hdrop. simpl in Hdrop. lia. }
  assert (ind !! k = Some d) as Hk.
  { rewrite <- (Nat.add_0_r k), <- lookup_drop, Hdrop. done. }
  assert (drop (S k) ind = ins) as Hdrop'.
  { rewrite (drop_S _ _ _ Hk) in Hdrop. by injection Hdrop. }
  pose proof (lookup_lt_Some _ _ _ Hk) as Hlt.
  destruct (at_in_range g (Z.of_nat k)) as (tos & Htos & ->); [unfold len; lia|].
  rewrite Nat2Z.id in Htos. cbn [bindR].
  replace (Z.of_nat k + 1) with (Z.of_nat (S k)) by lia.
  destruct (Z.eqb_spec d (len tos)) as [Heq|Hne].
  - destruct (IH (S k) Hdrop') as (b & -> & Hb). exists b. split; [done|].
    rewrite Hb. split.
    + intros Hall j d' tos' Hj Hd' Htos'.
      destruct (decide (j = k)) as [->|Hjk]; [congruence|].
      apply (Hall j); [lia|done..].
    + intros Hall j d' tos' Hj. apply Hall. lia.
  - exists false. split; [done|]. split; [done|]. intros Hall.
    destruct Hne. by apply (Hall k).
Qed.

(** X10. On a graph whose arcs stay within bounds, [Balanced] returns
    [true] exactly when every node has as many entering arcs as leaving
    arcs. *)
Theorem Balanced_iff_in_equals_out (g : list (list Half)) :
  BoundsOk g →
  ∃ b, Directed.Balanced g = Ret b ∧
    (b = true ↔
     ∀ (n : nat) tos, g !! n = Some tos →
       indegree g (Z.of_nat n) = length tos).
Proof.
  intros Hb. unfold Directed.Balanced.
  destruct (InDegree_spec g Hb) as (ind & -> & Hlen & Hind).
  cbn [bindR].
  destruct (balanced_loop_spec g ind ind 0 Hlen eq_refl) as (b & Hrun & Hbal).
  change (Z.of_nat 0) with 0 in Hrun. exists b. split; [done|].
  rewrite Hbal. split.
  - intros Hall n tos Htos.
    pose proof (lookup_lt_Some _ _ _ Htos) as Hlt.
    specialize (Hind (Z.of_nat n)). rewrite Nat2Z.id in Hind.
    specialize (Hall n _ tos (Nat.le_0_l n) (Hind ltac:(unfold len; lia)) Htos).
    unfold len in Hall. lia.
  - intros Hall j d tos _ Hd Htos.
    pose proof (lookup_lt_Some _ _ _ Htos) as Hlt.
    specialize (Hind (Z.of_nat j)). rewrite Nat2Z.id in Hind.
    rewrite Hind in Hd by (unfold len; lia). injection Hd as <-.
    rewrite (Hall j tos Htos). done.
Qed.

Lemma Balanced_iff_in_equals_out_witness :
  ∃ b, Directed.Balanced [[mkHalf 1 0]; [mkHalf 2 0]; [mkHalf 0 0]] = Ret b.
Proof.
  destruct (Balanced_iff_in_equals_out [[mkHalf 1 0]; [mkHalf 2 0]; [mkHalf 0 0]])
    as (b & Hrun & _).
  { apply BoundsOkb_spec. reflexivity. }
  exists b. exact Hrun.
Defined.

End DegreeFacts.

(** ** [Cyclic] *)

Section CyclicFacts.

Lemma on_cycle_Cyclic g fr to : on_cycle g fr to → Cyclic g.
Proof.
  intros (Hfr & (tos & Hg & Hto) & Hback). exists fr.
  eapply tc_rtc_r; [|done]. apply tc_once. by eapply arc_of_lookup.
Qed.

Lemma tc_first_step g u v : tc (arc g) u v → ∃ m, arc g u m ∧ rtc (arc g) m v.
Proof.
  intros Htc. inversion Htc as [? ? Harc|? m ? Harc Hrest]; subst.
  - by exists v.
  - exists m. split; [done|]. by apply tc_rtc.
Qed.

Lemma closed_rtc g (P : Z) u v :
  (∀ a b, Z.testbit P a = true → arc g a b → Z.testbit P b = true) →
  rtc (arc g) u v → Z.testbit P u = true → Z.testbit P v = true.
Proof. intros Hcl Hrtc. induction Hrtc; [done|]. intros. eauto. Qed.

Lemma cy_arcs_spec g rec fuel n full tos s :
  BoundsOk g → cy_contract g rec fuel →
  cy_inv g s → 0 ≤ n < len g →
  (∀ v, Z.testbit (Directed.ctemp s) v = true → rtc (arc g) v n) →
  (free (length g) (Directed.ctemp s) < fuel)%nat →
  g !! Z.to_nat n = Some full → (∀ h, h ∈ tos → h ∈ full) →
  ∃ r, Directed.cy_arcs rec n tos s = Ret r ∧
    match r with
    | Next s' =>
        cy_inv g s' ∧ Directed.ctemp s' = Directed.ctemp s ∧
        (∀ h, h ∈ tos → Z.testbit (Directed.cperm s') (To h) = true) ∧
        (∀ v, Z.testbit (Directed.cperm s) v = true →
              Z.testbit (Directed.cperm s') v = true)
    | Return s' =>
        Directed.cyclic s' = true ∧
        on_cycle g (Directed.cfr s') (Directed.cto s')
    end.
Proof.
  intros Hb Hrec. revert s.
  induction tos as [|nb tos IH]; intros s Hinv Hn Hreach Hfree Hg Hsub.
  { exists (Next s). split; [done|]. split_and!; [done..| |done].
    by intros h ?%elem_of_nil. }
  assert (nb ∈ full) as Hnb by (apply Hsub; left).
  assert (arc g n (To nb)) as Harc by (eapply arc_of_lookup; [lia|done..]).
  destruct (arc_bounds _ _ _ Hb Harc) as [_ Hto].
  destruct (Hrec (To nb) s Hinv Hto) as (s1 & Hcall & Hpost); [|done|].
  { intros v Hv. eapply rtc_r; [by apply Hreach|done]. }
  simpl. rewrite Hcall. cbn [bindR].
  destruct Hpost as [(Hinv1 & Htemp1 & Hperm1 & Hmono1)|(Hfound & Hcyc)].
  - rewrite (cy_notfound g s1 Hinv1).
    destruct (IH s1) as (r & Hr & Hpost); [done..| | |done| |].
    { intros v Hv. apply Hreach. congruence. }
    { congruence. }
    { intros h Hh. apply Hsub. by right. }
    exists r. split; [done|]. destruct r as [s'|s']; [|done].
    destruct Hpost as (Hinv' & Htemp' & Hperm' & Hmono').
    split_and!; [done|congruence| |by auto].
    intros h [->|Hh]%elem_of_cons; [by apply Hmono'|by apply Hperm'].
  - rewrite Hfound. destruct Hcyc as [[Hfr Hin]|Hon].
    + rewrite Hfr. simpl. eexists. split; [done|]. simpl. split; [done|].
      split_and!; [lia|by exists full|by apply Hreach].
    + destruct (Z.ltb_spec (Directed.cfr s1) 0) as [Hneg|_].
      { destruct Hon as [? _]. lia. }
      eexists. split; [done|]. by split.
Qed.

Lemma cy_df_spec g :
  BoundsOk g → ∀ fuel, cy_contract g (Directed.cy_df fuel g) fuel.
Proof.
  intros Hb fuel.
  induction fuel as [|fuel IH]; intros n s Hinv Hn Hreach Hfree; [lia|].
  simpl. rewrite Bit_nonneg by lia. cbn [bindR].
  destruct (Z.testbit (Directed.ctemp s) n) eqn:Ht.
  { eexists. split; [done|]. right. split; [done|]. left. simpl.
    split; [apply (cy_fr g s Hinv)|done]. }
  rewrite Bit_nonneg by lia. cbn [bindR].
  destruct (Z.testbit (Directed.cperm s) n) eqn:Hp.
  { exists s. split; [done|]. left. by split_and!. }
  rewrite SetBit_nonneg by lia. cbn [bindR].
  destruct (at_in_range g n Hn) as (tos & Hg & ->). cbn [bindR].
  set (s1 := Directed.mkCState (Z.setbit (Directed.ctemp s) n) (Directed.cperm s)
               (Directed.cyclic s) (Directed.cfr s) (Directed.cto s)).
  assert (cy_inv g s1) as Hinv1.
  { destruct Hinv. split; simpl; try done.
    intros v [->|Hv]%testbit_setbit; [done|by auto|lia]. }
  destruct (cy_arcs_spec g (Directed.cy_df fuel g) fuel n tos tos s1)
    as (r & -> & Hpost); [done..| | |done|done|].
  { simpl. intros v [->|Hv]%testbit_setbit; [done|by apply Hreach|lia]. }
  { simpl. pose proof (free_setbit_lt (length g) (Directed.ctemp s) n Hn Ht). lia. }
  cbn [bindR]. destruct r as [s'|s'].
  2:{ exists s'. split; [done|]. right. destruct Hpost. split; [done|by right]. }
  destruct Hpost as (Hinv' & Htemp' & Hperm' & Hmono'). simpl in Htemp'.
  assert (Z.testbit (Directed.cperm s') n = false) as Hpn.
  { apply (cy_temp g s' Hinv'). rewrite Htemp'. apply Z.setbit_eq. lia. }
  rewrite !SetBit_nonneg by lia. cbn [bindR].
  eexists. split; [done|]. left.
  assert (Z.clearbit (Directed.ctemp s') n = Directed.ctemp s) as Hclear.
  { rewrite Htemp'. apply clearbit_setbit; [lia|done]. }
  assert (∀ m, arc g n m → Z.testbit (Directed.cperm s') m = true) as Hsucc.
  { intros m (_ & tos' & h & Hg' & Hh & <-).
    rewrite Hg in Hg'. injection Hg' as <-. by apply Hperm'. }
  split_and!; simpl.
  - split; simpl.
    + intros v [->|Hv]%testbit_setbit; [done| |lia].
      by apply (cy_perm_range g s' Hinv').
    + intros u v Hu Huv. apply testbit_setbit; [lia|]. right.
      apply testbit_setbit in Hu as [->|Hu]; [by apply Hsucc| |lia].
      by apply (cy_perm_closed g s' Hinv' u).
    + intros u [->|Hu]%testbit_setbit; [| |lia].
      * intros (m & Hnm & Hback)%tc_first_step.
        pose proof (closed_rtc g _ _ _ (cy_perm_closed g s' Hinv') Hback
                      (Hsucc m Hnm)). congruence.
      * by apply (cy_perm_acyclic g s' Hinv').
    + rewrite Hclear. intros v Hv.
      destruct (cy_temp g s Hinv v Hv) as [_ Hr]. split; [|done].
      assert (v ≠ n) as Hne by congruence.
      destruct (Z.testbit (Z.setbit (Directed.cperm s') n) v) eqn:Hs; [|done].
      apply testbit_setbit in Hs as [?|Hs]; [done| |lia].
      destruct (cy_temp g s' Hinv' v) as [Hf _]; [|congruence].
      rewrite Htemp'. apply testbit_setbit; [lia|by right].
    + apply (cy_notfound g s' Hinv').
    + apply (cy_fr g s' Hinv').
    + apply (cy_to g s' Hinv').
  - done.
  - apply Z.setbit_eq. lia.
  - intros v Hv. apply testbit_setbit; [lia|]. right. by apply Hmono'.
Qed.

Lemma cy_roots_spec g fuel ns s :
  BoundsOk g → (length g < fuel)%nat → cy_inv g s → Directed.ctemp s = 0 →
  (∀ n, n ∈ ns → 0 ≤ n < len g) →
  ∃ s', Directed.cy_roots fuel g ns s = Ret s' ∧
    ((cy_inv g s' ∧ Directed.ctemp s' = 0 ∧
      (∀ v, v ∈ ns → Z.testbit (Directed.cperm s') v = true) ∧
      (∀ v, Z.testbit (Directed.cperm s) v = true →
            Z.testbit (Directed.cperm s') v = true)) ∨
     (Directed.cyclic s' = true ∧
      on_cycle g (Directed.cfr s') (Directed.cto s'))).
Proof.
  intros Hb Hfuel. revert s.
  induction ns as [|n ns IH]; intros s Hinv Htemp Hns.
  { exists s. split; [done|]. left. split_and!; [done..| |done].
    by intros v ?%elem_of_nil. }
  assert (0 ≤ n < len g) as Hn by (apply Hns; left).
  cbn [Directed.cy_roots]. rewrite Bit_nonneg by lia. cbn [bindR].
  destruct (Z.testbit (Directed.cperm s) n) eqn:Hp.
  - destruct (IH s) as (s' & Hr & Hpost); [done..|by intros; apply Hns; right|].
    exists s'. split; [done|].
    destruct Hpost as [(Hinv' & Htemp' & Hperm' & Hmono')|Hfound]; [left|by right].
    split_and!; [done..| |done].
    intros v [->|Hv]%elem_of_cons; [by apply Hmono'|by apply Hperm'].
  - destruct (cy_df_spec g Hb fuel n s Hinv Hn) as (s1 & Hcall & Hpost).
    { intros v Hv. rewrite Htemp, Z.bits_0 in Hv. done. }
    { pose proof (free_le (length g) (Directed.ctemp s)). lia. }
    rewrite Hcall. cbn [bindR].
    destruct Hpost as [(Hinv1 & Htemp1 & Hperm1 & Hmono1)|(Hfound & Hcyc)].
    + rewrite (cy_notfound g s1 Hinv1).
      destruct (IH s1) as (s' & Hr & Hpost);
        [done|congruence|by intros; apply Hns; right|].
      exists s'. split; [done|].
      destruct Hpost as [(Hinv' & Htemp' & Hperm' & Hmono')|Hfound']; [left|by right].
      split_and!; [done..| |by auto].
      intros v [->|Hv]%elem_of_cons; [by apply Hmono'|by apply Hperm'].
    + rewrite Hfound. exists s1. split; [done|]. right. split; [done|].
      destruct Hcyc as [[_ Hc]|Hon]; [|done].
      rewrite Htemp, Z.bits_0 in Hc. done.
Qed.

Lemma Cyclic_spec g :
  BoundsOk g →
  (Acyclic g ∧ Directed.Cyclic g = Ret (false, -1, mkHalf (-1) 0)) ∨
  (∃ fr to, Directed.Cyclic g = Ret (true, fr, to) ∧ on_cycle g fr to).
Proof.
  intros Hb. unfold Directed.Cyclic.
  destruct (cy_roots_spec g (S (length g)) (Ordering.node_range (length g))
              (Directed.mkCState 0 0 false (-1) (mkHalf (-1) 0)))
    as (s' & -> & Hpost); [done|lia| |done| |].
  { split; simpl; try done.
    - intros v. by rewrite Z.bits_0.
    - intros u v. by rewrite Z.bits_0.
    - intros u. by rewrite Z.bits_0.
    - intros v. by rewrite Z.bits_0. }
  { intros n. by rewrite elem_of_node_range. }
  cbn [bindR].
  destruct Hpost as [(Hinv' & _ & Hperm' & _)|[Hfound Hon]].
  - left. rewrite (cy_notfound g s' Hinv'), (cy_fr g s' Hinv'), (cy_to g s' Hinv').
    split; [|done]. intros [u Hu].
    apply (cy_perm_acyclic g s' Hinv' u); [|done].
    apply Hperm', elem_of_node_range.
    destruct (tc_first_step g u u Hu) as (m & Harc & _).
    by destruct (arc_bounds _ _ _ Hb Harc).
  - right. rewrite Hfound. by exists (Directed.cfr s'), (Directed.cto s').
Qed.

(** X11. On a graph whose arcs stay within bounds, [Cyclic] returns
    [(false, -1, {-1 0})] when the graph has no cycle; when it has one,
    [Cyclic] returns [true] with an arc [to] of [g[fr]] from whose target
    a path leads back to [fr]. *)
Theorem Cyclic_reports_arc_on_cycle g :
  BoundsOk g →
  (Acyclic g ∧ Directed.Cyclic g = Ret (false, -1, mkHalf (-1) 0)) ∨
  (Cyclic g ∧
   ∃ fr to, Directed.Cyclic g = Ret (true, fr, to) ∧ on_cycle g fr to).
Proof.
  intros Hb. destruct (Cyclic_spec g Hb) as [?|(fr & to & Hrun & Hon)]; [by left|].
  right. split; [by eapply on_cycle_Cyclic|by exists fr, to].
Qed.

Lemma Cyclic_reports_arc_on_cycle_witness :
  Cyclic [[mkHalf 1 0]; [mkHalf 2 7]; [mkHalf 1 0]] ∧
  ∃ fr to, Directed.Cyclic [[mkHalf 1 0]; [mkHalf 2 7]; [mkHalf 1 0]]
           = Ret (true, fr, to) ∧
           on_cycle [[mkHalf 1 0]; [mkHalf 2 7]; [mkHalf 1 0]] fr to.
Proof.
  destruct (Cyclic_reports_arc_on_cycle [[mkHalf 1 0]; [mkHalf 2 7]; [mkHalf 1 0]])
    as [[_ Hrun]|Hres].
  - apply BoundsOkb_spec. reflexivity.
  - discriminate Hrun.
  - exact Hres.
Defined.

(** X12. [Cyclic] and [Topological] agree on a graph whose arcs stay
    within bounds: [Cyclic] reports a cycle exactly when [Topological]
    returns a cycle instead of an ordering. *)
Theorem Cyclic_agrees_with_Topological g :
  BoundsOk g →
  ∃ b fr to ord cyc,
    Directed.Cyclic g = Ret (b, fr, to) ∧
    Ordering.Topological g = Ret (ord, cyc) ∧
    (b = true ↔ cyc ≠ []) ∧ (b = true → ord = []).
Proof.
  intros Hb.
  destruct (Topological_spec g Hb) as (ord & cyc & Htop & Hres).
  destruct (Cyclic_spec g Hb) as [[Hac Hrun]|(fr & to & Hrun & Hon)].
  - exists false, (-1), (mkHalf (-1) 0), ord, cyc. split_and!; [done..| |done].
    split; [done|]. intros Hne.
    destruct Hres as [[-> _]|[_ Hcyc]]; [done|].
    destruct Hac. by eapply is_cycle_Cyclic.
  - exists true, fr, to, ord, cyc. split_and!; [done..| |].
    + split; [|done]. intros _ ->.
      destruct Hres as [(_ & Hnd & Hall & Hsorted)|[_ (u & z & Hhead & _)]]; [|done].
      apply (Topological_nil_cycle_Acyclic g ord Hb Htop).
      by eapply on_cycle_Cyclic.
    + intros _. destruct Hres as [(-> & _)|[-> _]]; [|done].
      destruct (Topological_nil_cycle_Acyclic g ord Hb Htop).
      by eapply on_cycle_Cyclic.
Qed.

Lemma Cyclic_agrees_with_Topological_witness :
  ∃ b fr to ord cyc,
    Directed.Cyclic [[mkHalf 1 0]; [mkHalf 2 7]; [mkHalf 1 0]] = Ret (b, fr, to) ∧
    Ordering.Topological [[mkHalf 1 0]; [mkHalf 2 7]; [mkHalf 1 0]]
    = Ret (ord, cyc) ∧
    (b = true ↔ cyc ≠ []) ∧ (b = true → ord = []).
Proof.
  apply (Cyclic_agrees_with_Topological [[mkHalf 1 0]; [mkHalf 2 7]; [mkHalf 1 0]]).
  apply BoundsOkb_spec. reflexivity.
Defined.

End CyclicFacts.

(** ** [IsTree] *)

Section IsTreeFacts.

Lemma out_app par new u : out (par ++ new) u = out par u ++ out new u.
Proof. apply filter_app. Qed.

Lemma out_fresh new u : (∀ a, a ∈ new → a.1 ≠ u) → out new u = [].
Proof. intros Hall. by apply filter_none. Qed.

Lemma elem_of_out par u a : a ∈ out par u ↔ a.1 = u ∧ a ∈ par.
Proof. unfold out. by rewrite list_elem_of_filter. Qed.

Lemma elem_of_row u tos a : a ∈ row u tos ↔ ∃ h, a = (u, To h) ∧ h ∈ tos.
Proof. unfold row. by rewrite list_elem_of_fmap. Qed.

Lemma row_snd u tos : (row u tos).*2 = To <$> tos.
Proof. unfold row. by rewrite <- list_fmap_compose. Qed.

Lemma row_app u pre tos : row u (pre ++ tos) = row u pre ++ row u tos.
Proof. apply fmap_app. Qed.

Lemma NoDup_snd_inj (l : list (Z * Z)) a b m :
  NoDup l.*2 → (a, m) ∈ l → (b, m) ∈ l → a = b.
Proof.
  induction l as [|[x y] l IH]; simpl; [by intros _ ?%elem_of_nil|].
  intros [Hy Hnd]%NoDup_cons [Ha|Ha]%elem_of_cons [Hb|Hb]%elem_of_cons.
  - congruence.
  - injection Ha as -> ->. destruct Hy. apply list_elem_of_fmap. by exists (b, y).
  - injection Hb as -> ->. destruct Hy. apply list_elem_of_fmap. by exists (a, y).
  - by apply IH.
Qed.

Lemma out_snd_NoDup (l : list (Z * Z)) u : NoDup l.*2 → NoDup (out l u).*2.
Proof.
  unfold out. induction l as [|[x y] l IH]; simpl; [done|].
  intros [Hy Hnd]%NoDup_cons. rewrite filter_cons.
  destruct (decide ((x, y).1 = u)); [|by apply IH].
  simpl. apply NoDup_cons. split; [|by apply IH].
  intros (a & Ha & [_ Hin]%list_elem_of_filter)%list_elem_of_fmap.
  apply Hy, list_elem_of_fmap. by exists a.
Qed.

Lemma not_tree_is_tree g root : not_tree g root → ¬ is_tree g root.
Proof.
  intros Hnot (H1 & H2 & H3).
  destruct Hnot as [(u & Hu & Harc)|[(u & tos & Hu & Hu0 & Hg & Hdup)
                   |(u & u' & m & Hu & Hu' & Hne & Ha & Ha')]].
  - by apply (H1 u).
  - apply Hdup. by apply (H2 u).
  - apply Hne. by apply (H3 u u' m).
Qed.

Lemma tree_arcs_spec g root rec fuel n pre tos V par :
  tree_contract g root rec fuel →
  tree_inv g root V par → Z.testbit V n = true →
  g !! Z.to_nat n = Some (pre ++ tos) →
  out par n = row n pre →
  (free (length g) V < fuel)%nat →
  ∃ ok V', Directed.tree_arcs rec tos V = Ret (ok, V') ∧
    if ok : bool
    then ∃ new, tree_ok g root V V' par new ∧
                (∀ a, a ∈ new → a.1 = n ∨ Z.testbit V a.1 = false) ∧
                out (par ++ new) n = row n (pre ++ tos)
    else not_tree g root.
Proof.
  intros Hrec. revert pre V par.
  induction tos as [|nb tos IH]; intros pre V par Hinv Hn Hg Hout Hfree.
  { exists true, V. split; [done|]. exists []. unfold tree_ok.
    rewrite !app_nil_r.
    split_and!; [done|done| |by intros a ?%elem_of_nil|done].
    intros u tos' Hu Hu'. congruence. }
  destruct (Hrec n pre nb tos V par Hinv Hn Hg Hout Hfree)
    as (ok1 & V1 & Hcall & Hpost).
  simpl. rewrite Hcall. cbn [bindR].
  destruct ok1; [|by exists false, V1].
  destruct Hpost as (new1 & (Hinv1 & Hmono1 & Hexp1) & Hfresh1).
  set (par1 := par ++ (n, To nb) :: new1) in *.
  assert (out new1 n = []) as Hnew1.
  { apply out_fresh. intros a Ha Heq. specialize (Hfresh1 a Ha). congruence. }
  destruct (IH (pre ++ [nb]) V1 par1) as (ok2 & V' & Hrun & Hpost2);
    [done|by apply Hmono1|by rewrite <- app_assoc| | |].
  { unfold par1. rewrite out_app, Hout, row_app. f_equal.
    unfold out at 1. rewrite filter_cons. simpl.
    destruct (decide (n = n)); [|done]. fold (out new1 n). by rewrite Hnew1. }
  { pose proof (free_mono (length g) V V1 Hmono1). lia. }
  exists ok2, V'. split; [done|]. destruct ok2; [|done].
  destruct Hpost2 as (new2 & (Hinv2 & Hmono2 & Hexp2) & Hfresh2 & Hout2).
  exists ((n, To nb) :: new1 ++ new2).
  assert (par ++ (n, To nb) :: new1 ++ new2 = par1 ++ new2) as Hpar.
  { unfold par1. by rewrite <- app_assoc. }
  unfold tree_ok. rewrite Hpar. split_and!; [done|by auto|..].
  - intros u tos' Hu' Hu Hgu.
    destruct (Z.testbit V1 u) eqn:Hu1.
    + rewrite out_app, (Hexp1 u tos' Hu1 Hu Hgu), (out_fresh new2), app_nil_r; [done|].
      intros a Ha Hau. destruct (Hfresh2 a Ha) as [Heq|Hf]; congruence.
    + by apply Hexp2.
  - intros a [->|[Ha|Ha]%elem_of_app]%elem_of_cons.
    + by left.
    + right. by apply Hfresh1.
    + destruct (Hfresh2 a Ha) as [?|Hf]; [by left|right].
      destruct (Z.testbit V a.1) eqn:Hv; [|done]. rewrite (Hmono1 _ Hv) in Hf. done.
  - by rewrite Hout2, <- app_assoc.
Qed.

Lemma tree_df_spec g root :
  BoundsOk g → ∀ fuel, tree_contract g root (Directed.tree_df fuel g) fuel.
Proof.
  intros Hb fuel.
  induction fuel as [|fuel IH]; intros n pre nb tos V par Hinv Hn Hg Hout Hfree; [lia|].
  destruct (tr_reach g root V par Hinv n Hn) as [Hrn Hn0].
  assert (arc g n (To nb)) as Harc.
  { eapply arc_of_lookup; [lia|done|]. apply elem_of_app. right. left. }
  destruct (arc_bounds _ _ _ Hb Harc) as [_ Hm].
  simpl. rewrite Bit_nonneg by lia. cbn [bindR].
  destruct (Z.testbit V (To nb)) eqn:Hv.
  { (* the target is marked already *)
    exists false, V. split; [done|].
    apply (tr_marked g root V par Hinv) in Hv as [Hroot|Hin].
    - left. exists n. split; [done|]. by rewrite <- Hroot.
    - right. apply list_elem_of_fmap in Hin as ([u m] & Hm' & Hin).
      simpl in Hm'. subst m.
      destruct (tr_arcs g root V par Hinv u _ Hin) as [Hu Hum].
      destruct (decide (u = n)) as [->|Hne].
      + left. exists n, (pre ++ nb :: tos). split_and!; [done|lia|done|].
        assert ((n, To nb) ∈ row n pre) as Hrow.
        { rewrite <- Hout. by apply elem_of_out. }
        apply elem_of_row in Hrow as (h & [= Hh] & Hpre).
        rewrite fmap_app, fmap_cons. intros (_ & Hdis & _)%NoDup_app.
        apply (Hdis (To nb)); [|left].
        apply list_elem_of_fmap. by exists h.
      + right. exists u, n, (To nb). split_and!; [|done..].
        by apply (tr_reach g root V par Hinv). }
  rewrite SetBit_nonneg by lia. cbn [bindR].
  destruct (at_in_range g (To nb) Hm) as (tosm & Hgm & ->). cbn [bindR].
  assert (To nb ∉ par.*2) as Hfreshm.
  { intros Hin. assert (Z.testbit V (To nb) = true); [|congruence].
    apply (tr_marked g root V par Hinv). by right. }
  assert (To nb ≠ root) as Hroot.
  { intros Heq. assert (Z.testbit V (To nb) = true); [|congruence].
    apply (tr_marked g root V par Hinv). by left. }
  assert (n ≠ To nb) as Hnm by congruence.
  destruct (tree_arcs_spec g root (Directed.tree_df fuel g) fuel (To nb) [] tosm
              (Z.setbit V (To nb)) (par ++ [(n, To nb)]))
    as (ok & V' & Hrun & Hpost); [done| | |done| | |].
  { split.
    - intros m. rewrite testbit_setbit, fmap_app, elem_of_app by lia. simpl.
      rewrite (tr_marked g root V par Hinv m), list_elem_of_singleton. tauto.
    - rewrite fmap_app. apply NoDup_app. split_and!.
      + apply (tr_nodup g root V par Hinv).
      + intros x Hx ->%list_elem_of_singleton. done.
      + apply NoDup_singleton.
    - rewrite fmap_app, elem_of_app. simpl. rewrite list_elem_of_singleton.
      intros [Hin|Heq]; [|by destruct Hroot].
      by apply (tr_root g root V par Hinv).
    - intros u m [Hin|[= -> ->]%list_elem_of_singleton]%elem_of_app.
      + destruct (tr_arcs g root V par Hinv u m Hin) as [Hu Hum].
        split; [|done]. apply testbit_setbit; [lia|by right].
      + split; [|done]. apply testbit_setbit; [lia|by right].
    - intros v [->|Hvv]%testbit_setbit; [| |lia].
      + split; [|done]. by eapply rtc_r.
      + by apply (tr_reach g root V par Hinv). }
  { apply Z.setbit_eq. lia. }
  { apply out_fresh. intros a [Hin| ->%list_elem_of_singleton]%elem_of_app Heq.
    - destruct a as [u m]. simpl in Heq. subst u.
      destruct (tr_arcs g root V par Hinv _ _ Hin). congruence.
    - done. }
  { pose proof (free_setbit_lt (length g) V (To nb) Hm Hv). lia. }
  exists ok, V'. split; [done|]. destruct ok; [|done].
  destruct Hpost as (new & (Hinv' & Hmono' & Hexp') & Hfresh' & Hout').
  assert ((par ++ [(n, To nb)]) ++ new = par ++ (n, To nb) :: new) as Hpar
    by by rewrite <- app_assoc.
  rewrite Hpar in *. exists new. unfold tree_ok. split_and!.
  - done.
  - intros v Hvv. apply Hmono'. apply testbit_setbit; [lia|by right].
  - intros u tos' Hu' Hu Hgu. destruct (decide (u = To nb)) as [->|Hne].
    + rewrite Hout'. simpl. congruence.
    + apply Hexp'; [done| |done].
      destruct (Z.testbit (Z.setbit V (To nb)) u) eqn:Hs; [|done].
      apply testbit_setbit in Hs as [?|?]; [done|congruence|lia].
  - intros a Ha. destruct (Hfresh' a Ha) as [->|Hf]; [done|].
    destruct (Z.testbit V a.1) eqn:Hva; [|done].
    rewrite <- Hf. symmetry. apply testbit_setbit; [lia|by right].
Qed.

Lemma IsTree_spec g root :
  BoundsOk g → 0 ≤ root < len g →
  ∃ b, Directed.IsTree g root = Ret b ∧ (b = true ↔ is_tree g root).
Proof.
  intros Hb Hroot. unfold Directed.IsTree. cbn [Directed.tree_df].
  rewrite Bit_nonneg by lia. cbn [bindR]. rewrite Z.bits_0.
  rewrite SetBit_nonneg by lia. cbn [bindR].
  destruct (at_in_range g root Hroot) as (tos & Hg & ->). cbn [bindR].
  destruct (tree_arcs_spec g root (Directed.tree_df (length g) g) (length g)
              root [] tos (Z.setbit 0 root) [])
    as (ok & V' & -> & Hpost); [by apply tree_df_spec| | |done|done| |].
  { split; simpl.
    - intros m. rewrite testbit_setbit, Z.bits_0 by lia.
      split; [intros [?|?]; [by left|done]|].
      intros [?|?%elem_of_nil]; [by left|done].
    - constructor.
    - by intros ?%elem_of_nil.
    - by intros u m ?%elem_of_nil.
    - intros v [->|Hv]%testbit_setbit; [done| |lia]. by rewrite Z.bits_0 in Hv. }
  { apply Z.setbit_eq. lia. }
  { pose proof (free_setbit_lt (length g) 0 root Hroot (Z.bits_0 root)).
    pose proof (free_le (length g) 0). lia. }
  cbn [bindR]. exists ok. split; [done|]. destruct ok.
  2:{ split; [done|]. intros Htree. by destruct (not_tree_is_tree g root Hpost). }
  split; [intros _|done].
  destruct Hpost as (new & (Hinv & _ & Hexp) & _ & Hout). simpl in *.
  assert (∀ u tos', Z.testbit V' u = true → g !! Z.to_nat u = Some tos' →
                    out new u = row u tos') as Hrows.
  { intros u tos' Hu Hgu. destruct (decide (u = root)) as [->|Hne].
    - rewrite Hout. congruence.
    - apply Hexp; [done| |done].
      destruct (Z.testbit (Z.setbit 0 root) u) eqn:Hs; [|done].
      apply testbit_setbit in Hs as [?|Hs]; [done| |lia]. by rewrite Z.bits_0 in Hs. }
  assert (∀ u m, Z.testbit V' u = true → arc g u m → (u, m) ∈ new) as Hfollowed.
  { intros u m Hu (Hu0 & tos' & h & Hgu & Hh & <-).
    assert ((u, To h) ∈ out new u) as Hin.
    { rewrite (Hrows u tos' Hu Hgu). apply elem_of_row. by exists h. }
    by apply elem_of_out in Hin as [_ Hin]. }
  assert (∀ u, rtc (arc g) root u → Z.testbit V' u = true) as Hreach.
  { intros u Hu. apply (closed_rtc g V' root u); [|done|].
    - intros a b Ha Hab. apply (tr_marked g root V' new Hinv). right.
      apply list_elem_of_fmap. exists (a, b). split; [done|]. by apply Hfollowed.
    - apply (tr_marked g root V' new Hinv). by left. }
  split_and!.
  - intros u Hu Harc. apply (tr_root g root V' new Hinv).
    apply list_elem_of_fmap. exists (u, root). split; [done|].
    by apply Hfollowed; [apply Hreach|].
  - intros u tos' Hu Hu0 Hgu. rewrite <- (row_snd u), <- (Hrows u tos'); [|by apply Hreach|done].
    apply out_snd_NoDup, (tr_nodup g root V' new Hinv).
  - intros u u' m Hu Hu' Hum Hum'.
    apply (NoDup_snd_inj new u u' m); [apply (tr_nodup g root V' new Hinv)|..];
      by apply Hfollowed; [apply Hreach|].
Qed.

(** X13. [IsTree] panics when [root] is no node of [g].  On a graph
    whose arcs stay within bounds it returns [true] exactly when the
    part of [g] reachable from [root] is a tree: no arc leaving a
    reachable node enters [root], and no node is entered by two arcs
    that leave reachable nodes. *)
Theorem IsTree_iff_reachable_part_is_tree g root :
  (¬ (0 ≤ root < len g) → Directed.IsTree g root = Panic) ∧
  (BoundsOk g → 0 ≤ root < len g →
   ∃ b, Directed.IsTree g root = Ret b ∧ (b = true ↔ is_tree g root)).
Proof.
  split; [|apply IsTree_spec].
  intros Hroot. unfold Directed.IsTree. cbn [Directed.tree_df].
  unfold Bit. destruct (Z.ltb_spec root 0) as [|H0]; [done|]. cbn [bindR].
  rewrite Z.bits_0. rewrite SetBit_nonneg by lia. cbn [bindR].
  unfold at_. destruct (Z.ltb_spec root 0); [lia|].
  assert (g !! Z.to_nat root = None) as ->; [|done].
  apply lookup_ge_None. unfold len in Hroot. lia.
Qed.

End IsTreeFacts.

(** ** [Topological] on cyclic graphs *)

Section TopologicalCycleFacts.

(** X14. On a graph with a cycle, whose arcs stay within bounds,
    [Topological] returns an empty ordering and a list of nodes that is
    a closed walk of the graph: consecutive nodes are joined by arcs and
    an arc leads from the last node back to the first. *)
Theorem Topological_cycle_is_closed_walk g :
  BoundsOk g → Cyclic g →
  ∃ cyc u z, Ordering.Topological g = Ret ([], cyc) ∧
    head cyc = Some u ∧ last cyc = Some z ∧ path g cyc ∧ arc g z u.
Proof.
  intros Hb Hc.
  destruct (Topological_cycle_of_cyclic g Hb Hc)
    as (cyc & Hrun & u & z & Hh & Hl & Hp & Ha).
  by exists cyc, u, z.
Qed.

Lemma Topological_cycle_is_closed_walk_witness :
  ∃ cyc u z,
    Ordering.Topological [[mkHalf 1 0]; [mkHalf 2 7]; [mkHalf 1 0]]
    = Ret ([], cyc) ∧
    head cyc = Some u ∧ last cyc = Some z ∧
    path [[mkHalf 1 0]; [mkHalf 2 7]; [mkHalf 1 0]] cyc ∧
    arc [[mkHalf 1 0]; [mkHalf 2 7]; [mkHalf 1 0]] z u.
Proof.
  apply (Topological_cycle_is_closed_walk
           [[mkHalf 1 0]; [mkHalf 2 7]; [mkHalf 1 0]]).
  - apply BoundsOkb_spec. reflexivity.
  - exists 1. apply (tc_l _ 1 2 1); [|apply tc_once].
    + split; [lia|]. by exists [mkHalf 2 7], (mkHalf 2 7); split_and!; [|left|].
    + split; [lia|]. by exists [mkHalf 1 0], (mkHalf 1 0); split_and!; [|left|].
Defined.

End TopologicalCycleFacts.

(** ** Tarjan's components are strongly connected *)

Section TarjanConnFacts.
Import SCC.
Context {E : Type}.
Variable g : LabeledAdjacencyList.
Variable emit : list Z → E → bool * E.
Variable e0 : E.
Hypothesis Hbounds : BoundsOk g.

Local Abbreviation Tinv := (tarjan_inv g emit e0).
Local Abbreviation Conn := (tarjan_conn g).
Local Abbreviation state := (@state E).

Lemma conn_lowered (st : state) n v :
  Tinv st → Conn st → n ∈ S_ st →
  (ll st n ≤ v ∨ ∃ t, t ∈ S_ st ∧ ix st t = v ∧ rtc (arc g) n t) →
  Conn (lowered st n v).
Proof.
  intros Hinv [Hstack Hlow Hcomps] HnS Hv.
  pose proof (stack_nonneg g emit e0 st n Hinv HnS) as Hnr.
  pose proof (ti_len_lowlink _ _ _ _ Hinv) as Hlen.
  split; [done| |done].
  intros w Hw. change (S_ (lowered st n v)) with (S_ st) in *.
  assert (∀ t, ix (lowered st n v) t = ix st t) as Hix by done.
  destruct (decide (w = n)) as [->|Hne].
  - rewrite ll_lowered_eq by lia.
    destruct (Z.le_gt_cases (ll st n) v) as [Hle|Hgt].
    + rewrite Z.min_l by done. destruct (Hlow n Hw) as (t & Ht & Hixt & Hrt).
      exists t. by rewrite Hix.
    + destruct Hv as [?|(t & Ht & Hixt & Hrt)]; [lia|].
      rewrite Z.min_r by lia. exists t. by rewrite Hix.
  - pose proof (stack_nonneg g emit e0 st w Hinv Hw) as Hwr.
    rewrite ll_lowered_ne by lia. destruct (Hlow w Hw) as (t & Ht & Hixt & Hrt).
    exists t. by rewrite Hix.
Qed.

Lemma conn_enter (st : state) n :
  Tinv st → Conn st → 0 ≤ n < len g → ¬ isIdx st n →
  (∀ w, w ∈ S_ st → rtc (arc g) w n) →
  Conn (mkState (Z.setbit (indexed st) n) (Z.setbit (stacked st) n)
          (<[Z.to_nat n := x st]> (index st))
          (<[Z.to_nat n := x st]> (lowlink st))
          (x st + 1) (S_ st ++ [n]) (env st) (calls st)).
Proof.
  intros Hinv [Hstack Hlow Hcomps] Hn Hn0 Hreach.
  pose proof (ti_len_index _ _ _ _ Hinv) as Hlenix.
  pose proof (ti_len_lowlink _ _ _ _ Hinv) as Hlenll.
  assert (∀ w, w ∈ S_ st → 0 ≤ w ∧ w ≠ n) as Hold.
  { intros w Hw. pose proof (stack_nonneg g emit e0 st w Hinv Hw).
    split; [lia|]. intros ->. apply Hn0, (ti_nodes _ _ _ _ Hinv), elem_of_app.
    by left. }
  split; simpl.
  - intros l1 v l2 w HS Hw. destruct l2 as [|z l2 _] using rev_ind.
    { by apply elem_of_nil in Hw. }
    change (l1 ++ v :: l2 ++ [z]) with (l1 ++ (v :: l2) ++ [z]) in HS.
    rewrite app_assoc in HS. apply app_inj_tail in HS as [HS ->].
    apply elem_of_app in Hw as [Hw| ->%list_elem_of_singleton].
    + by apply (Hstack l1 v l2 w).
    + apply Hreach. rewrite HS. set_solver.
  - intros w [Hw| ->%list_elem_of_singleton]%elem_of_app.
    + destruct (Hlow w Hw) as (t & Ht & Hixt & Hrt).
      destruct (Hold w Hw) as [Hw0 Hwn]. destruct (Hold t Ht) as [Ht0 Htn].
      exists t. split; [set_solver|]. split; [|done].
      unfold ix, ll. simpl. rewrite !default_insert_ne by lia. done.
    + exists n. split; [set_solver|]. split; [|done].
      unfold ix, ll. simpl. rewrite !default_insert_eq by lia. done.
  - done.
Qed.

(** The nodes pushed since the call of [sc n] were not indexed at the
    call. *)
Lemma loop_seg_new (st0 st : state) n seen seg :
  Tinv st0 → ¬ isIdx st0 n → sc_loop_inv g emit e0 st0 n seen st →
  S_ st = S_ st0 ++ n :: seg → ∀ w, w ∈ n :: seg → ¬ isIdx st0 w.
Proof.
  intros Hinv0 Hn0 [Hinv Hext _ _ _ _] HS w [->|Hw]%elem_of_cons; [done|].
  intros Hi.
  pose proof (ti_nodup _ _ _ _ Hinv) as Hnd. rewrite HS in Hnd.
  apply NoDup_app in Hnd as (Hnd & _). apply NoDup_app in Hnd as (_ & Hdis & _).
  assert (isStk st w) as Hs
    by (apply (ti_stacked _ _ _ _ Hinv); rewrite HS; set_solver).
  apply (ext_stacked _ _ Hext w Hi), (ti_stacked _ _ _ _ Hinv0) in Hs.
  apply (Hdis w Hs). by right.
Qed.

Lemma sc_arcs_cons (rec : Z → state → Run (bool * state)) n nb todo (st : state) :
  sc_arcs rec n (nb :: todo) st =
  bindR (sc_arcs rec n [nb] st)
    (λ r, match r with
          | Next st' => sc_arcs rec n todo st'
          | Return st' => Ret (Return st')
          end).
Proof.
  cbn [sc_arcs].
  destruct (Bit (indexed st) (To nb)) as [ib| |]; cbn [bindR]; [|done..].
  destruct ib; cbn [negb].
  - destruct (Bit (stacked st) (To nb)) as [sb| |]; cbn [bindR]; [|done..].
    destruct sb; [|done].
    destruct (at_ (index st) (To nb)) as [inb| |]; cbn [bindR]; [|done..].
    by destruct (lower st n inb).
  - destruct (rec (To nb) st) as [[ok st1]| |]; cbn [bindR]; [|done..].
    destruct ok; cbn [negb]; [|done].
    destruct (at_ (lowlink st1) (To nb)) as [lnb| |]; cbn [bindR]; [|done..].
    by destruct (lower st1 n lnb).
Qed.

(** One arc of [n]: the paths are kept. *)
Lemma sc_arcs_step_conn rec fuel (st0 : state) n nb seen st st2 :
  sc_contract g emit e0 rec fuel → sc_conn_contract g emit e0 rec fuel →
  Tinv st0 → 0 ≤ n < len g → ¬ isIdx st0 n →
  (free (length g) (indexed st0) ≤ S fuel)%nat →
  sc_loop_inv g emit e0 st0 n seen st →
  0 ≤ To nb < len g → arc g n (To nb) →
  Conn st → (∀ w, w ∈ S_ st → rtc (arc g) w n) →
  sc_arcs rec n [nb] st = Ret (Next st2) →
  Conn st2 ∧ (∀ w, w ∈ S_ st2 → rtc (arc g) w n).
Proof.
  intros Hrec Hrec2 Hinv0 Hn Hn0 Hfree Hli Hnb Harc Hconn Hreach Hrun.
  pose proof Hli as [Hinv Hext Hidx Hix (seg & HS & Hseg) Hseen].
  pose proof (ti_len_index _ _ _ _ Hinv) as Hlenix.
  pose proof (ti_len_lowlink _ _ _ _ Hinv) as Hlenll.
  assert (n ∈ S_ st) as HnS by (rewrite HS; set_solver).
  cbn [sc_arcs] in Hrun. rewrite Bit_nonneg in Hrun by lia. cbn [bindR] in Hrun.
  destruct (Z.testbit (indexed st) (To nb)) eqn:Hib; cbn [negb] in Hrun.
  - rewrite Bit_nonneg in Hrun by lia. cbn [bindR] in Hrun.
    destruct (Z.testbit (stacked st) (To nb)) eqn:Hsb.
    + rewrite at_default in Hrun by lia. cbn [bindR] in Hrun.
      fold (ix st (To nb)) in Hrun.
      rewrite lower_spec in Hrun by lia. cbn [bindR] in Hrun.
      injection Hrun as <-. split; [|done].
      apply conn_lowered; [done..|]. right. exists (To nb).
      split_and!; [by apply (ti_stacked _ _ _ _ Hinv)|done|by apply rtc_once].
    + by injection Hrun as <-.
  - destruct (Hrec (To nb) st Hinv Hnb) as (ok & st1 & Hcall & Hpost).
    { unfold isIdx. by rewrite Hib. }
    { by eapply loop_inv_free. }
    rewrite Hcall in Hrun. cbn [bindR] in Hrun.
    destruct ok; cbn [negb] in Hrun; [|done].
    destruct Hpost as (Hinv1 & Hext1 & Hidx1 & Hix1 & segv & HS1 & Hsegv & Hroot).
    destruct (Hrec2 (To nb) st st1 Hinv Hnb) as [Hconn1 Hback]; [| |done| |done|].
    { unfold isIdx. by rewrite Hib. }
    { by eapply loop_inv_free. }
    { intros w Hw. eapply rtc_r; [by apply Hreach|done]. }
    pose proof (ti_len_lowlink _ _ _ _ Hinv1) as Hlenll1.
    rewrite at_default in Hrun by lia. cbn [bindR] in Hrun.
    fold (ll st1 (To nb)) in Hrun.
    rewrite lower_spec in Hrun by lia. cbn [bindR] in Hrun.
    injection Hrun as <-.
    assert (n ∈ S_ st1) as HnS1 by (rewrite HS1; set_solver).
    split.
    + apply conn_lowered; [done..|].
      destruct Hroot as [[_ Heq]|(seg' & Hseg' & _)].
      * left. assert (isIdx st n) as Hni.
        { apply (ti_nodes _ _ _ _ Hinv), elem_of_app. by left. }
        rewrite (ext_lowlink _ _ Hext1 n Hni), Heq, Hix1.
        pose proof (ti_low_le _ _ _ _ Hinv n HnS).
        pose proof (ti_index_lt _ _ _ _ Hinv n Hni). lia.
      * right. assert (To nb ∈ S_ st1) as HnbS by (rewrite HS1, Hseg'; set_solver).
        destruct (cn_low _ _ Hconn1 (To nb) HnbS) as (t & Ht & Hixt & Hrt).
        exists t. split_and!; [done..|]. by eapply rtc_l.
    + intros w Hw. change (S_ (lowered st1 n (ll st1 (To nb)))) with (S_ st1) in Hw.
      destruct (Hback w Hw) as (t & Ht & Hrt).
      eapply rtc_trans; [done|]. by apply Hreach.
Qed.

(** The loop of [sc n] over the arcs of [n] keeps the paths. *)
Lemma sc_arcs_conn rec fuel (st0 : state) n todo seen st st' :
  sc_contract g emit e0 rec fuel → sc_conn_contract g emit e0 rec fuel →
  Tinv st0 → 0 ≤ n < len g → ¬ isIdx st0 n →
  (free (length g) (indexed st0) ≤ S fuel)%nat →
  sc_loop_inv g emit e0 st0 n seen st →
  (∀ h, h ∈ todo → 0 ≤ To h < len g ∧ arc g n (To h)) →
  Conn st → (∀ w, w ∈ S_ st → rtc (arc g) w n) →
  sc_arcs rec n todo st = Ret (Next st') →
  Conn st' ∧ (∀ w, w ∈ S_ st' → rtc (arc g) w n).
Proof.
  intros Hrec Hrec2 Hinv0 Hn Hn0 Hfree. revert seen st.
  induction todo as [|nb todo IH]; intros seen st Hli Htodo Hconn Hreach Hrun.
  { by injection Hrun as <-. }
  destruct (Htodo nb) as [Hnb Harc]; [left|].
  destruct (sc_arcs_spec g emit e0 Hbounds rec fuel st0 n [nb] seen st
              Hrec Hinv0 Hn Hn0 Hfree Hli) as (r & Hr & Hpost).
  { by intros h ->%list_elem_of_singleton. }
  rewrite sc_arcs_cons, Hr in Hrun. cbn [bindR] in Hrun.
  destruct r as [st2|st2]; [|done].
  destruct (sc_arcs_step_conn rec fuel st0 n nb seen st st2) as [Hconn2 Hreach2];
    [done..|].
  apply (IH (seen ++ [nb]) st2); [done| |done..].
  intros h Hh. apply Htodo. by right.
Qed.

Lemma sc_conn fuel : sc_conn_contract g emit e0 (sc emit fuel g) fuel.
Proof.
  induction fuel as [|fuel IH];
    intros n st st' Hinv Hn Hn0 Hfree Hconn Hreach Hrun; [done|].
  pose proof (ti_len_index _ _ _ _ Hinv) as Hlenix.
  pose proof (ti_len_lowlink _ _ _ _ Hinv) as Hlenll.
  cbn [sc] in Hrun. rewrite set_at_in_range in Hrun by lia. cbn [bindR] in Hrun.
  rewrite SetBit_nonneg in Hrun by lia. cbn [bindR] in Hrun.
  rewrite set_at_in_range in Hrun by lia. cbn [bindR] in Hrun.
  rewrite SetBit_nonneg in Hrun by lia. cbn [bindR] in Hrun.
  destruct (at_in_range g n Hn) as (tos & Hg & Hat).
  rewrite Hat in Hrun. cbn [bindR] in Hrun.
  assert (∀ h, h ∈ tos → 0 ≤ To h < len g ∧ arc g n (To h)) as Htos.
  { intros h Hh. split.
    - apply (Hbounds tos h); [|done]. by eapply list_elem_of_lookup_2.
    - eapply arc_of_lookup; [lia|done..]. }
  pose proof (loop_inv_enter g emit e0 st n Hinv Hn Hn0) as Hli0.
  destruct (sc_arcs_spec g emit e0 Hbounds (sc emit fuel g) fuel st n tos [] _
              (sc_spec g emit e0 Hbounds fuel) Hinv Hn Hn0 Hfree Hli0)
    as (r & Hr & Hpost); [by intros h Hh; apply Htos|].
  rewrite Hr in Hrun. cbn [bindR] in Hrun.
  destruct r as [st1|st1]; [|done].
  simpl in Hpost.
  destruct (sc_arcs_conn (sc emit fuel g) fuel st n tos [] _ st1
              (sc_spec g emit e0 Hbounds fuel) IH Hinv Hn Hn0 Hfree Hli0 Htos)
    as [Hconn1 Hreach1]; [| |done|].
  { by apply conn_enter. }
  { simpl. intros w [Hw| ->%list_elem_of_singleton]%elem_of_app; [by apply Hreach|done]. }
  pose proof Hpost as [Hinv1 Hext1 Hidx1 Hix1 (seg & HS & Hseg) Hseen1].
  pose proof (loop_seg_new st st1 n tos seg Hinv Hn0 Hpost HS) as Hnew.
  assert (∀ w, w ∈ S_ st → isIdx st w) as Hold.
  { intros w Hw. apply (ti_nodes _ _ _ _ Hinv), elem_of_app. by left. }
  rewrite !at_default in Hrun
    by (rewrite ?(ti_len_index _ _ _ _ Hinv1), ?(ti_len_lowlink _ _ _ _ Hinv1); lia).
  cbn [bindR] in Hrun. fold (ll st1 n) (ix st1 n) in Hrun.
  destruct (Z.eqb_spec (ll st1 n) (ix st1 n)) as [Hroot|Hnroot].
  - (* [n] is a root: a component is emitted *)
    assert (pop_to n (rev (S_ st1)) (stacked st1) []
            = Ret (rev (S_ st), clear_all (reverse seg ++ [n]) (stacked st1),
                   reverse seg ++ [n])) as Hpop.
    { assert (n ∉ reverse seg) as Hnseg.
      { rewrite elem_of_reverse. pose proof (ti_nodup _ _ _ _ Hinv1) as Hnd.
        rewrite HS in Hnd. apply NoDup_app in Hnd as (Hnd & _).
        apply NoDup_app in Hnd as (_ & _ & Hnd). by apply NoDup_cons in Hnd as [? _]. }
      rewrite HS, rev_app_distr. simpl. rewrite <- app_assoc. simpl.
      rewrite (rev_reverse seg). rewrite pop_to_spec; [done|done| |lia].
      intros w Hw%elem_of_reverse.
      apply (stack_nonneg g emit e0 st1 w Hinv1). rewrite HS. set_solver. }
    rewrite Hpop in Hrun. cbn [bindR] in Hrun. rewrite rev_involutive in Hrun.
    destruct (emit (reverse seg ++ [n]) (env st1)) as [ok e] eqn:Hemit.
    injection Hrun as -> <-. split.
    + split; simpl.
      * apply (cn_stack _ _ Hconn).
      * intros w Hw. destruct (cn_low _ _ Hconn w Hw) as (t & Ht & Hixt & Hrt).
        exists t. split; [done|]. split; [|done].
        change (ix st1 t = ll st1 w).
        rewrite (ext_index _ _ Hext1 t (Hold t Ht)).
        rewrite (ext_lowlink _ _ Hext1 w (Hold w Hw)). done.
      * intros c u v. unfold comps. simpl. rewrite fmap_app. simpl.
        intros [Hc| ->%list_elem_of_singleton]%elem_of_app Hu Hv.
        { by apply (cn_comps _ _ Hconn1 c). }
        assert (∀ a, a ∈ reverse seg ++ [n] → a ∈ S_ st1 ∧ rtc (arc g) n a) as Hc.
        { intros a [Ha| ->%list_elem_of_singleton]%elem_of_app.
          - apply (proj1 (elem_of_reverse _ _)) in Ha.
            split; [rewrite HS; set_solver|].
            by apply (cn_stack _ _ Hconn1 (S_ st) n seg a).
          - split; [rewrite HS; set_solver|done]. }
        destruct (Hc u Hu) as [HuS _]. destruct (Hc v Hv) as [_ Hnv].
        eapply rtc_trans; [by apply Hreach1|done].
    + simpl. intros w Hw. by exists w.
  - (* [n] stays on the stack *)
    injection Hrun as <-. split; [done|].
    assert (n ∈ S_ st1) as HnS by (rewrite HS; set_solver).
    destruct (cn_low _ _ Hconn1 n HnS) as (t & Ht & Hixt & Hrt).
    pose proof (ti_low_le _ _ _ _ Hinv1 n HnS) as Hle.
    assert (t ∈ S_ st) as HtS.
    { rewrite HS in Ht. apply elem_of_app in Ht as [Ht|Ht]; [done|].
      assert (isIdx st1 t) as Hti.
      { apply (ti_nodes _ _ _ _ Hinv1), elem_of_app. left. rewrite HS. set_solver. }
      pose proof (ext_new _ _ Hext1 t Hti (Hnew t Ht)). lia. }
    intros w Hw. exists t. split; [done|].
    eapply rtc_trans; [by apply Hreach1|done].
Qed.

Lemma conn_init : Conn (init g e0).
Proof.
  split; simpl.
  - intros l1 v l2 w HS. by destruct l1.
  - by intros w ?%elem_of_nil.
  - by intros c u v ?%elem_of_nil.
Qed.

(** The loop of [Tarjan] over the roots keeps the paths. *)
Lemma tarjan_roots_conn fuel ns (st st' : state) :
  (length g ≤ fuel)%nat → Tinv st → S_ st = [] →
  (∀ n, n ∈ ns → 0 ≤ n < len g) → Conn st →
  tarjan_roots emit fuel g ns st = Ret st' →
  declined emit st' ∨ Conn st'.
Proof.
  intros Hfuel. revert st. induction ns as [|n ns IH]; intros st Hinv HS Hns Hconn Hrun.
  { injection Hrun as <-. by right. }
  assert (0 ≤ n < len g) as Hn by (apply Hns; left).
  assert (∀ n', n' ∈ ns → 0 ≤ n' < len g) as Hns'
    by (intros n' Hn'; apply Hns; by right).
  cbn [tarjan_roots] in Hrun. rewrite Bit_nonneg in Hrun by lia. cbn [bindR] in Hrun.
  destruct (Z.testbit (indexed st) n) eqn:Hib; [by apply (IH st)|].
  assert (¬ isIdx st n) as Hn0 by (unfold isIdx; by rewrite Hib).
  assert (free (length g) (indexed st) ≤ fuel)%nat as Hfree.
  { pose proof (free_le (length g) (indexed st)). lia. }
  destruct (sc_spec g emit e0 Hbounds fuel n st Hinv Hn Hn0 Hfree)
    as (ok & st1 & Hcall & Hpost).
  rewrite Hcall in Hrun. cbn [bindR] in Hrun.
  destruct ok; [|injection Hrun as <-; by left].
  destruct Hpost as (Hinv1 & _).
  destruct (sc_conn fuel n st st1 Hinv Hn Hn0 Hfree Hconn) as [Hconn1 Hback];
    [|done|].
  { rewrite HS. by intros w ?%elem_of_nil. }
  apply (IH st1); [done| |done..].
  destruct (S_ st1) as [|w rest]; [done|].
  destruct (Hback w) as (t & Ht & _); [left|]. rewrite HS in Ht.
  by apply elem_of_nil in Ht.
Qed.

End TarjanConnFacts.

Section TarjanForwardConnFacts.
Import SCC.

Lemma components_order_rtc g (scc : list (list Z)) :
  BoundsOk g → NoDup (concat scc) →
  (∀ v, v ∈ concat scc ↔ 0 ≤ v < len g) →
  (∀ (i j : nat) ci cj u v,
     scc !! i = Some ci → scc !! j = Some cj → u ∈ ci → v ∈ cj →
     arc g u v → (i ≤ j)%nat) →
  ∀ u v, rtc (arc g) u v →
    ∀ (i j : nat) ci cj,
      scc !! i = Some ci → scc !! j = Some cj → u ∈ ci → v ∈ cj → (i ≤ j)%nat.
Proof.
  intros Hb Hnd Hnodes Hord u v Hrtc.
  induction Hrtc as [u|u m v Hum Hmv IH]; intros i j ci cj Hi Hj Hu Hv.
  { by rewrite (concat_NoDup_unique scc i j ci cj u). }
  destruct (arc_bounds g u m Hb Hum) as [_ Hm].
  apply Hnodes in Hm. apply list_elem_of_In, in_concat in Hm as (cm & Hcm & Hm).
  apply list_elem_of_In, list_elem_of_lookup in Hcm as [k Hk].
  apply list_elem_of_In in Hm.
  pose proof (Hord i k ci cm u m Hi Hk Hu Hm Hum).
  pose proof (IH k j cm cj Hk Hj Hm Hv). lia.
Qed.

Lemma TarjanForward_scc g :
  BoundsOk g →
  ∃ scc, TarjanForward g = Ret scc ∧
    NoDup (concat scc) ∧
    (∀ v, v ∈ concat scc ↔ 0 ≤ v < len g) ∧
    (∀ c u v, c ∈ scc → u ∈ c → v ∈ c → rtc (arc g) u v) ∧
    (∀ (i j : nat) ci cj u v,
       scc !! i = Some ci → scc !! j = Some cj → u ∈ ci → v ∈ cj →
       rtc (arc g) u v → (i ≤ j)%nat).
Proof.
  intros Hb.
  destruct (TarjanForward_components g Hb)
    as (scc & Hfw & Hrun & Hnd & Hnodes & _ & Hord).
  destruct (Tarjan_spec g collect [] Hb) as (st & Hroots & Hrun' & Hpost).
  destruct Hpost as [(pre & c & e & _ & Hfalse & _)|(Hinv & HS & Hall)]; [done|].
  assert (comps st = reverse scc) as Hcomps.
  { rewrite Hrun in Hrun'. injection Hrun' as Henv _.
    rewrite (ti_env _ _ _ _ Hinv), run_emit_collect in Henv. done. }
  destruct (tarjan_roots_conn g collect [] Hb (length g)
              (Ordering.node_range (length g)) (init g []) st)
    as [(pre & c & e & _ & Hfalse & _)|Hconn];
    [done|apply tarjan_inv_init|done| |apply conn_init|done|done|].
  { intros n Hn%elem_of_node_range. unfold len. lia. }
  exists scc. split_and!; [done..| |].
  - intros c u v Hc. apply (cn_comps _ _ Hconn c). rewrite Hcomps.
    by apply elem_of_reverse.
  - intros i j ci cj u v Hi Hj Hu Hv Huv.
    by apply (components_order_rtc g scc Hb Hnd Hnodes Hord u v Huv i j ci cj).
Qed.

(** X15. On a graph whose arcs stay within bounds, the components that
    [TarjanForward] returns are the strongly connected components of
    the graph: two nodes lie in the same component exactly when each
    of them reaches the other. *)
Theorem TarjanForward_components_are_strongly_connected g :
  BoundsOk g →
  ∃ scc, TarjanForward g = Ret scc ∧
    ∀ u v, 0 ≤ u < len g → 0 ≤ v < len g →
      ((∃ c, c ∈ scc ∧ u ∈ c ∧ v ∈ c) ↔
       (rtc (arc g) u v ∧ rtc (arc g) v u)).
Proof.
  intros Hb.
  destruct (TarjanForward_scc g Hb) as (scc & Hfw & Hnd & Hnodes & Hconn & Hord).
  exists scc. split; [done|]. intros u v Hu Hv. split.
  - intros (c & Hc & Huc & Hvc). split; by apply (Hconn c).
  - intros [Huv Hvu].
    apply Hnodes in Hu. apply list_elem_of_In, in_concat in Hu as (cu & Hcu & Hu).
    apply list_elem_of_In, list_elem_of_lookup in Hcu as [i Hi].
    apply list_elem_of_In in Hu.
    apply Hnodes in Hv. apply list_elem_of_In, in_concat in Hv as (cv & Hcv & Hv).
    apply list_elem_of_In, list_elem_of_lookup in Hcv as [j Hj].
    apply list_elem_of_In in Hv.
    pose proof (Hord i j cu cv u v Hi Hj Hu Hv Huv).
    pose proof (Hord j i cv cu v u Hj Hi Hv Hu Hvu).
    assert (i = j) as -> by lia. rewrite Hi in Hj. injection Hj as <-.
    exists cu. split_and!; [|done..]. by eapply list_elem_of_lookup_2.
Qed.

Lemma TarjanForward_components_are_strongly_connected_witness :
  ∃ scc, TarjanForward (unlabeled [[1]; [2]; [0; 3]; []]) = Ret scc ∧
    ∀ u v, 0 ≤ u < 4 → 0 ≤ v < 4 →
      ((∃ c, c ∈ scc ∧ u ∈ c ∧ v ∈ c) ↔
       (rtc (arc (unlabeled [[1]; [2]; [0; 3]; []])) u v ∧
        rtc (arc (unlabeled [[1]; [2]; [0; 3]; []])) v u)).
Proof.
  apply (TarjanForward_components_are_strongly_connected
           (unlabeled [[1]; [2]; [0; 3]; []])).
  apply BoundsOkb_spec. reflexivity.
Defined.

End TarjanForwardConnFacts.

Section TarjanEmitFacts.
Import SCC.

(** X16. In a run of [Tarjan] on a graph whose arcs stay within bounds
    in which no call of [emit] returns [false], every node is emitted,
    in exactly one component, and the nodes of each emitted component
    all reach each other. *)
Theorem Tarjan_emits_strongly_connected_components
    {E : Type} (g : list (list Half)) (emit : list Z → E → bool * E) (e0 : E) :
  BoundsOk g →
  ∃ e calls, Tarjan emit g e0 = Ret (e, calls) ∧
    ((∀ c ok, (c, ok) ∈ calls → ok = true) →
     NoDup (concat calls.*1) ∧
     (∀ v, v ∈ concat calls.*1 ↔ 0 ≤ v < len g) ∧
     (∀ c u v, c ∈ calls.*1 → u ∈ c → v ∈ c → rtc (arc g) u v)).
Proof.
  intros Hb.
  destruct (Tarjan_spec g emit e0 Hb) as (st & Hroots & Hrun & Hpost).
  exists (env st), (calls st). split; [done|]. intros Hall.
  assert (¬ declined emit st) as Hnd.
  { intros (pre & c & e & Hcalls & _). specialize (Hall c false).
    rewrite Hcalls in Hall. assert (false = true); [|done].
    apply Hall. set_solver. }
  destruct Hpost as [?|(Hinv & HS & Hidx)]; [done|].
  destruct (tarjan_roots_conn g emit e0 Hb (length g)
              (Ordering.node_range (length g)) (init g e0) st)
    as [?|Hconn]; [done|apply tarjan_inv_init|done| |apply conn_init|done|done|].
  { intros n Hn%elem_of_node_range. unfold len. lia. }
  fold (comps st).
  pose proof (ti_nodup _ _ _ _ Hinv) as Hnodup. rewrite HS in Hnodup.
  split_and!; [done| |apply (cn_comps _ _ Hconn)].
  intros v. split.
  - intros Hv. apply (ti_range _ _ _ _ Hinv), (ti_nodes _ _ _ _ Hinv).
    by rewrite HS.
  - intros Hv. apply Hidx, (ti_nodes _ _ _ _ Hinv) in Hv. by rewrite HS in Hv.
Qed.

Lemma Tarjan_emits_strongly_connected_components_witness :
  ∃ e calls,
    Tarjan collect (unlabeled [[1]; [2]; [0; 3]; []]) [] = Ret (e, calls) ∧
    ((∀ c ok, (c, ok) ∈ calls → ok = true) →
     NoDup (concat calls.*1) ∧
     (∀ v, v ∈ concat calls.*1 ↔ 0 ≤ v < 4) ∧
     (∀ c u v, c ∈ calls.*1 → u ∈ c → v ∈ c →
               rtc (arc (unlabeled [[1]; [2]; [0; 3]; []])) u v)).
Proof.
  apply (Tarjan_emits_strongly_connected_components
           (unlabeled [[1]; [2]; [0; 3]; []]) collect []).
  apply BoundsOkb_spec. reflexivity.
Defined.

End TarjanEmitFacts.

(** ** [Permute] *)

Section PermuteFacts.
Import InPlace.

Lemma length_cells m s : slice_ok m s → length (cells m s) = Z.to_nat (s_len s).
Proof.
  intros (Hp & Hl & Hm). unfold cells, len in *.
  rewrite length_take, length_drop. lia.
Qed.

Lemma cells_lookup m s (i : nat) :
  (i < Z.to_nat (s_len s))%nat →
  cells m s !! i = m !! (Z.to_nat (s_ptr s) + i)%nat.
Proof. intros Hi. unfold cells. by rewrite lookup_take_lt, lookup_drop. Qed.

(** Two memories that agree on the cells of [s], up to [f]. *)
Lemma cells_fmap (f : Z → Z) m m' s :
  slice_ok m s → length m' = length m →
  (∀ a : nat, s_ptr s ≤ Z.of_nat a < s_ptr s + s_len s →
              m' !! a = f <$> m !! a) →
  cells m' s = f <$> cells m s.
Proof.
  intros Hok Hlen Hcells.
  assert (slice_ok m' s) as Hok'.
  { destruct Hok as (? & ? & ?). unfold slice_ok, len in *. rewrite Hlen. done. }
  apply list_eq. intros i. rewrite list_lookup_fmap.
  destruct (decide (i < Z.to_nat (s_len s))%nat) as [Hi|Hi].
  - rewrite !cells_lookup by done. apply Hcells. destruct Hok as (? & ? & ?). lia.
  - rewrite !lookup_ge_None_2; [done|..]; rewrite length_cells by done; lia.
Qed.

Lemma cells_same m m' s :
  slice_ok m s → length m' = length m →
  (∀ a : nat, s_ptr s ≤ Z.of_nat a < s_ptr s + s_len s → m' !! a = m !! a) →
  cells m' s = cells m s.
Proof.
  intros Hok Hlen Hcells. rewrite <- (list_fmap_id (cells m s)).
  apply cells_fmap; [done..|]. intros a Ha. rewrite (Hcells a Ha).
  by destruct (m !! a).
Qed.

Lemma NI_of_int_id v : 0 ≤ v < 2 ^ 31 → NI_of_int v = v.
Proof. intros Hv. unfold NI_of_int. rewrite Z.mod_small; lia. Qed.

(** The inner loop of [Permute] maps the cells of [arcs] that are left
    through [p] and leaves the other cells alone. *)
Lemma permute_arcs_spec p s (i : nat) k m :
  slice_ok m s → (i + k)%nat = Z.to_nat (s_len s) →
  (∀ (a : nat) t, s_ptr s + Z.of_nat i ≤ Z.of_nat a < s_ptr s + s_len s →
     m !! a = Some t → 0 ≤ t < len p ∧ 0 ≤ perm_at p t < 2 ^ 31) →
  ∃ m', permute_arcs p s (Z.of_nat i) k m = Ret m' ∧ length m' = length m ∧
    ∀ a : nat, m' !! a =
      if decide (s_ptr s + Z.of_nat i ≤ Z.of_nat a < s_ptr s + s_len s)
      then perm_at p <$> m !! a else m !! a.
Proof.
  intros Hok. revert i m Hok. induction k as [|k IH]; intros i m Hok Hik Hcells.
  { exists m. split_and!; [done..|]. intros a.
    destruct (decide _) as [Ha|_]; [|done]. destruct Hok as (? & ? & ?). lia. }
  pose proof Hok as (Hp & Hl & Hm). simpl.
  assert (0 ≤ s_ptr s + Z.of_nat i < len m) as Ha by lia.
  destruct (at_in_range m _ Ha) as (t & Ht & ->). cbn [bindR].
  destruct (Hcells (Z.to_nat (s_ptr s + Z.of_nat i)) t) as [Htr Hv]; [lia|done|].
  destruct (at_in_range p t Htr) as (v & Hpv & ->). cbn [bindR].
  assert (perm_at p t = v) as Hvt by (unfold perm_at; by rewrite Hpv).
  rewrite set_at_in_range by done. cbn [bindR].
  rewrite NI_of_int_id by lia.
  replace (Z.of_nat i + 1) with (Z.of_nat (S i)) by lia.
  destruct (IH (S i) (<[Z.to_nat (s_ptr s + Z.of_nat i) := v]> m))
    as (m' & Hrun & Hlen & Hm'); [|lia| |].
  { unfold slice_ok. by rewrite len_insert. }
  { intros a t' Har. rewrite list_lookup_insert_ne by lia. apply Hcells. lia. }
  exists m'. split; [exact Hrun|]. rewrite Hlen, length_insert. split; [done|].
  intros a. rewrite Hm'.
  destruct (decide (a = Z.to_nat (s_ptr s + Z.of_nat i))) as [->|Hne].
  - rewrite list_lookup_insert_eq by (unfold len in Ha; lia).
    rewrite decide_False by lia. rewrite decide_True by lia.
    rewrite Ht. simpl. by rewrite Hvt.
  - rewrite list_lookup_insert_ne by done.
    destruct (decide (s_ptr s + Z.of_nat (S i) ≤ Z.of_nat a < s_ptr s + s_len s));
      [rewrite decide_True by lia|rewrite decide_False by lia]; done.
Qed.

Section Permutation.

Variable g0 : list slice.
Variable p : list Z.
Variable m0 : list Z.
Hypothesis Hok : ∀ s, s ∈ g0 → slice_ok m0 s.
Hypothesis Hapart : rows_apart g0.
Hypothesis Hb : BoundsOkU (graph_of m0 g0).
Hypothesis Hp : p ≡ₚ Ordering.node_range (length g0).
Hypothesis Hsmall : len g0 ≤ 2 ^ 31.

Lemma perm_length : length p = length g0.
Proof. by rewrite Hp, length_node_range. Qed.

Lemma perm_lookup (j : nat) :
  (j < length g0)%nat →
  p !! j = Some (perm_at p (Z.of_nat j)) ∧ 0 ≤ perm_at p (Z.of_nat j) < len g0.
Proof.
  intros Hj. unfold perm_at. rewrite Nat2Z.id.
  destruct (lookup_lt_is_Some_2 p j) as [v Hv]; [by rewrite perm_length|].
  rewrite Hv. split; [done|]. simpl.
  apply list_elem_of_lookup_2 in Hv. rewrite Hp in Hv.
  apply elem_of_node_range in Hv. unfold len. lia.
Qed.

Lemma perm_inj (i j : nat) :
  (i < length g0)%nat → (j < length g0)%nat →
  perm_at p (Z.of_nat i) = perm_at p (Z.of_nat j) → i = j.
Proof.
  intros Hi Hj Heq.
  destruct (perm_lookup i Hi) as [Hpi _]. destruct (perm_lookup j Hj) as [Hpj _].
  rewrite Heq in Hpi. eapply NoDup_lookup; [|done..].
  rewrite Hp. apply NoDup_node_range.
Qed.

Lemma cells_bounds (j : nat) s t :
  g0 !! j = Some s → t ∈ cells m0 s → 0 ≤ t < len g0.
Proof.
  intros Hj Ht. replace (len g0) with (len (graph_of m0 g0))
    by (unfold len, graph_of; by rewrite length_fmap).
  apply (Hb (cells m0 s)); [|done].
  apply list_elem_of_fmap. exists s. split; [done|]. by eapply list_elem_of_lookup_2.
Qed.

Lemma permute_nodes_spec (k fr : nat) g m :
  (fr + k)%nat = length g0 → permute_inv g0 p m0 fr g m →
  ∃ g' m', permute_nodes p (Z.of_nat fr) (drop fr g0) g m = Ret (g', m') ∧
           permute_inv g0 p m0 (length g0) g' m'.
Proof.
  revert fr g m. induction k as [|k IH]; intros fr g m Hfr Hinv.
  { rewrite drop_ge by lia. exists g, m. split; [done|].
    by replace (length g0) with fr by lia. }
  destruct Hinv as (Hlg & Hlm & Hdone & Htodo).
  destruct (lookup_lt_is_Some_2 g0 fr) as [s Hs]; [lia|].
  rewrite (drop_S _ _ _ Hs). cbn [permute_nodes].
  assert (slice_ok m0 s) as Hoks by (apply Hok; by eapply list_elem_of_lookup_2).
  assert (slice_ok m s) as Hoks'.
  { unfold slice_ok, len in *. by rewrite Hlm. }
  pose proof Hoks' as (Hptr & Hlen & Hmem).
  destruct (permute_arcs_spec p s 0 (Z.to_nat (s_len s)) m Hoks')
    as (m1 & Hrun1 & Hlm1 & Hm1); [done| |].
  { intros a t Ha Hat.
    assert (t ∈ cells m0 s) as Hin.
    { rewrite <- (Htodo fr s Hs) by lia.
      apply list_elem_of_lookup. exists (a - Z.to_nat (s_ptr s))%nat.
      rewrite cells_lookup by lia. rewrite <- Hat. f_equal. lia. }
    pose proof (cells_bounds fr s t Hs Hin) as Ht.
    split; [unfold len in *; rewrite perm_length; lia|].
    destruct (perm_lookup (Z.to_nat t)) as [_ Hr]; [unfold len in Ht; lia|].
    rewrite Z2Nat.id in Hr by lia. lia. }
  change (Z.of_nat 0) with 0 in Hrun1. rewrite Hrun1. cbn [bindR].
  destruct (perm_lookup fr) as [Hpfr Hpr]; [lia|].
  rewrite (at_lookup p (Z.of_nat fr) (perm_at p (Z.of_nat fr)))
    by (rewrite ?Nat2Z.id; done || lia).
  cbn [bindR]. rewrite set_at_in_range by (unfold len in *; lia). cbn [bindR].
  replace (Z.of_nat fr + 1) with (Z.of_nat (S fr)) by lia.
  assert (∀ (j : nat) sj, g0 !! j = Some sj → j ≠ fr → cells m1 sj = cells m sj)
    as Hother.
  { intros j sj Hj Hne.
    assert (slice_ok m sj) as Hokj.
    { unfold slice_ok, len in *. rewrite Hlm.
      apply Hok. by eapply list_elem_of_lookup_2. }
    apply cells_same; [done..|]. intros a Ha. rewrite Hm1.
    rewrite decide_False; [done|]. intros Hin.
    apply (Hapart fr j s sj (Z.of_nat a)); [done..|lia|done]. }
  apply IH; [lia|]. split_and!.
  - by rewrite length_insert.
  - lia.
  - intros j sj Hj Hlt. destruct (decide (j = fr)) as [->|Hne].
    + rewrite Hs in Hj. injection Hj as <-. split.
      * rewrite <- (Htodo fr s Hs) by lia. apply cells_fmap; [done..|].
        intros a Ha. rewrite Hm1. by rewrite decide_True by lia.
      * apply list_lookup_insert_eq. unfold len in Hpr. lia.
    + destruct (Hdone j sj Hj) as [Hc Hg]; [lia|]. split.
      * by rewrite (Hother j sj Hj Hne).
      * rewrite list_lookup_insert_ne; [done|]. intros Heq.
        apply Hne. symmetry. apply perm_inj; [lia|lia|].
        destruct (perm_lookup j) as [_ Hjr]; [lia|]. lia.
  - intros j sj Hj Hge. rewrite (Hother j sj Hj) by lia. apply (Htodo j); [done|lia].
Qed.

Lemma Permute_spec :
  ∃ g' m', Permute g0 p m0 = Ret (g', m') ∧ length g' = length g0 ∧
    ∀ (fr : nat) tos, graph_of m0 g0 !! fr = Some tos →
      graph_of m' g' !! Z.to_nat (perm_at p (Z.of_nat fr))
      = Some (perm_at p <$> tos).
Proof.
  destruct (permute_nodes_spec (length g0) 0 g0 m0) as (g' & m' & Hrun & Hinv);
    [done| |].
  { split_and!; [done..| |done]. intros j s _ Hj. lia. }
  exists g', m'. split; [done|].
  destruct Hinv as (Hlg & _ & Hdone & _). split; [done|].
  intros fr tos Hfr. unfold graph_of in *. rewrite list_lookup_fmap in *.
  destruct (g0 !! fr) as [s|] eqn:Hs; [|done]. simpl in Hfr. injection Hfr as <-.
  destruct (Hdone fr s Hs) as [Hc Hg]; [by eapply lookup_lt_Some|].
  rewrite Hg. simpl. by rewrite Hc.
Qed.

End Permutation.

(** X17. [Permute] relabels the nodes in place.  When the arc lists of
    the graph share no memory, its arcs stay within bounds and [p] is a
    permutation of the node numbers [0 .. len(g)-1], the arc list that
    node [p[fr]] has afterwards is the arc list that node [fr] had
    before, with every target [to] replaced by [p[to]]. *)
Theorem Permute_relabels_nodes (g : list slice) (p : list Z) (m : list Z) :
  (∀ s, s ∈ g → slice_ok m s) → rows_apart g →
  BoundsOkU (graph_of m g) →
  p ≡ₚ Ordering.node_range (length g) → len g ≤ 2 ^ 31 →
  ∃ g' m', Permute g p m = Ret (g', m') ∧ length g' = length g ∧
    ∀ (fr : nat) tos, graph_of m g !! fr = Some tos →
      graph_of m' g' !! Z.to_nat (perm_at p (Z.of_nat fr))
      = Some (perm_at p <$> tos).
Proof. apply Permute_spec. Qed.

End PermuteFacts.

Lemma Permute_relabels_nodes_witness :
  ∃ g' m',
    InPlace.Permute
      [InPlace.mkSlice 0 2; InPlace.mkSlice 2 1; InPlace.mkSlice 3 0]
      [2; 0; 1] [1; 2; 2] = Ret (g', m') ∧
    length g' = 3%nat ∧
    ∀ (fr : nat) tos,
      graph_of [1; 2; 2]
        [InPlace.mkSlice 0 2; InPlace.mkSlice 2 1; InPlace.mkSlice 3 0] !! fr
      = Some tos →
      graph_of m' g' !! Z.to_nat (perm_at [2; 0; 1] (Z.of_nat fr))
      = Some (perm_at [2; 0; 1] <$> tos).
Proof.
  apply (Permute_relabels_nodes
           [InPlace.mkSlice 0 2; InPlace.mkSlice 2 1; InPlace.mkSlice 3 0]
           [2; 0; 1] [1; 2; 2]).
  - intros s Hs. repeat (apply elem_of_cons in Hs as [->|Hs]);
      [unfold slice_ok, len; simpl; lia..|by apply elem_of_nil in Hs].
  - intros i j s1 s2 a Hne Hi Hj.
    destruct i as [|[|[|i]]]; destruct j as [|[|[|j]]]; try done;
      simpl in Hi, Hj; injection Hi as <-; injection Hj as <-; simpl; lia.
  - apply BoundsOkUb_spec. reflexivity.
  - apply (Permutation_cons_append [0; 1] 2).
  - unfold len. simpl. lia.
Defined.

(** ** [ShuffleArcLists] *)

Section ShuffleFacts.
Import InPlace.

Lemma insert_swap_Permutation (l : list Z) (i j : nat) a b :
  l !! i = Some a → l !! j = Some b →
  <[j := a]> (<[i := b]> l) ≡ₚ l.
Proof.
  revert i j. induction l as [|x l IH]; intros i j Hi Hj; [done|].
  destruct i as [|i], j as [|j]; simpl in *.
  - by injection Hi as ->.
  - injection Hi as ->. rewrite <- (list_insert_id l j b) at 2 by done.
    clear IH. revert j Hj. induction l as [|y l IH]; intros j Hj; [done|].
    destruct j as [|j]; simpl in *.
    + injection Hj as ->. apply perm_swap.
    + rewrite (perm_swap y b), (perm_swap y a). f_equiv.
      rewrite (IH j Hj). by rewrite list_insert_id.
  - injection Hj as ->. rewrite <- (list_insert_id l i a) at 2 by done.
    clear IH. revert i Hi. induction l as [|y l IH]; intros i Hi; [done|].
    destruct i as [|i]; simpl in *.
    + injection Hi as ->. apply perm_swap.
    + rewrite (perm_swap y a), (perm_swap y b). f_equiv.
      rewrite (IH i Hi). by rewrite list_insert_id.
  - f_equiv. by apply IH.
Qed.

Lemma cells_insert m s (i : nat) v :
  slice_ok m s → (i < Z.to_nat (s_len s))%nat →
  cells (<[(Z.to_nat (s_ptr s) + i)%nat := v]> m) s = <[i := v]> (cells m s).
Proof.
  intros (Hp & Hl & Hm) Hi. unfold cells.
  rewrite drop_insert_ge by lia. rewrite take_insert_lt by lia.
  f_equal. lia.
Qed.

Section Source.

Context {R : Type}.
Variable ri : Z → R → Z * R.
Hypothesis ri_range : ∀ n r, 1 < n → 0 ≤ (ri n r).1 < n.

(** The loop over one arc list permutes its cells and leaves the other
    cells alone. *)
Lemma shuffle_arcs_spec s (i : nat) r m :
  slice_ok m s → (i ≤ Z.to_nat (s_len s))%nat →
  ∃ r' m', shuffle_arcs ri s i r m = Ret (r', m') ∧ length m' = length m ∧
    cells m' s ≡ₚ cells m s ∧
    ∀ a : nat, ¬ (s_ptr s ≤ Z.of_nat a < s_ptr s + s_len s) → m' !! a = m !! a.
Proof.
  intros Hok. revert r m Hok.
  induction i as [|i IH]; intros r m Hok Hi; [by exists r, m|].
  destruct i as [|i]; [by exists r, m|].
  cbn [shuffle_arcs].
  pose proof (ri_range (Z.of_nat (S (S i))) r) as Hj.
  destruct (ri (Z.of_nat (S (S i))) r) as [j r1]. simpl in Hj.
  pose proof Hok as (Hp & Hl & Hm).
  assert (0 ≤ j < s_len s) as Hjr by lia.
  assert (0 ≤ Z.of_nat (S i) < s_len s) as Hir by lia.
  unfold slice_at, slice_set.
  destruct (Z.leb_spec 0 j); [|lia]. destruct (Z.ltb_spec j (s_len s)); [|lia].
  destruct (Z.leb_spec 0 (Z.of_nat (S i))); [|lia].
  destruct (Z.ltb_spec (Z.of_nat (S i)) (s_len s)); [|lia].
  cbn [andb].
  destruct (at_in_range m (s_ptr s + j)) as (b & Hb & ->); [lia|]. cbn [bindR].
  destruct (at_in_range m (s_ptr s + Z.of_nat (S i))) as (a & Ha & ->); [lia|].
  cbn [bindR].
  rewrite set_at_in_range by lia. cbn [bindR].
  rewrite set_at_in_range by (rewrite len_insert; lia). cbn [bindR].
  set (m2 := <[Z.to_nat (s_ptr s + j) := a]>
               (<[Z.to_nat (s_ptr s + Z.of_nat (S i)) := b]> m)).
  assert (length m2 = length m) as Hlen2 by (unfold m2; by rewrite !length_insert).
  destruct (IH r1 m2) as (r' & m' & Hrun & Hlen & Hperm & Hout); [|lia|].
  { unfold slice_ok, len in *. by rewrite Hlen2. }
  exists r', m'. split; [exact Hrun|]. split; [lia|]. split.
  - rewrite Hperm. unfold m2.
    replace (Z.to_nat (s_ptr s + j)) with (Z.to_nat (s_ptr s) + Z.to_nat j)%nat by lia.
    replace (Z.to_nat (s_ptr s + Z.of_nat (S i)))
      with (Z.to_nat (s_ptr s) + S i)%nat in * by lia.
    replace (Z.to_nat (s_ptr s + j)) with (Z.to_nat (s_ptr s) + Z.to_nat j)%nat
      in Hb by lia.
    rewrite cells_insert; [|unfold slice_ok; by rewrite len_insert|lia].
    rewrite cells_insert by (done || lia).
    apply insert_swap_Permutation; by rewrite cells_lookup by lia.
  - intros k Hk. rewrite (Hout k Hk). unfold m2.
    rewrite !list_lookup_insert_ne by lia. done.
Qed.

Lemma shuffle_nodes_spec (done_ todo : list slice) r m :
  (∀ s, s ∈ done_ ++ todo → slice_ok m s) → rows_apart (done_ ++ todo) →
  ∃ r' m', shuffle_nodes ri todo r m = Ret (r', m') ∧ length m' = length m ∧
    (∀ s, s ∈ done_ ++ todo → cells m' s ≡ₚ cells m s) ∧
    ∀ a : nat, (∀ s, s ∈ todo →
                  ¬ (s_ptr s ≤ Z.of_nat a < s_ptr s + s_len s)) →
               m' !! a = m !! a.
Proof.
  revert done_ r m. induction todo as [|s todo IH]; intros done_ r m Hok Hapart.
  { by exists r, m. }
  cbn [shuffle_nodes].
  destruct (shuffle_arcs_spec s (Z.to_nat (s_len s)) r m)
    as (r1 & m1 & Hrun1 & Hlen1 & Hperm1 & Hout1); [apply Hok; set_solver|done|].
  rewrite Hrun1. cbn [bindR].
  assert (done_ ++ s :: todo = (done_ ++ [s]) ++ todo) as Heq
    by by rewrite <- app_assoc.
  rewrite Heq in Hok, Hapart.
  destruct (IH (done_ ++ [s]) r1 m1) as (r' & m' & Hrun & Hlen & Hperm & Hout).
  { intros s' Hs'. specialize (Hok s' Hs'). unfold slice_ok, len in *.
    by rewrite Hlen1. }
  { done. }
  exists r', m'. split; [exact Hrun|]. split; [lia|]. rewrite Heq. split.
  - intros s' Hs'. rewrite (Hperm s' Hs').
    apply list_elem_of_lookup in Hs' as [j Hj].
    destruct (decide (j = length done_)) as [->|Hne].
    + rewrite lookup_app_l in Hj by (rewrite length_app; simpl; lia).
      rewrite lookup_app_r in Hj by lia. rewrite Nat.sub_diag in Hj.
      injection Hj as <-. done.
    + replace (cells m1 s') with (cells m s'); [done|]. symmetry.
      apply cells_same; [apply Hok; by eapply list_elem_of_lookup_2|done|].
      intros a Ha. apply Hout1.
      apply (Hapart j (length done_) s' s (Z.of_nat a)); [done..| |done].
      rewrite lookup_app_l by (rewrite length_app; simpl; lia).
      by rewrite lookup_app_r, Nat.sub_diag by lia.
  - intros a Ha. rewrite Hout by (intros s' Hs'; apply Ha; by right).
    apply Hout1, Ha. left.
Qed.

End Source.

(** X18. [ShuffleArcLists] keeps the arcs of every node.  When the arc
    lists of the graph share no memory, then for every random source
    that keeps to the range of [rand.Intn], the arc list of each node
    holds afterwards the targets it held before, each as many times,
    and memory outside the arc lists is left as it was. *)
Theorem ShuffleArcLists_permutes_arc_lists {R : Type} (ri : Z → R → Z * R)
    (g : list slice) (r : R) (m : list Z) :
  (∀ n r, 1 < n → 0 ≤ (ri n r).1 < n) →
  (∀ s, s ∈ g → slice_ok m s) → rows_apart g →
  ∃ r' m', ShuffleArcLists ri g r m = Ret (r', m') ∧ length m' = length m ∧
    (∀ (fr : nat) tos, graph_of m g !! fr = Some tos →
       ∃ tos', graph_of m' g !! fr = Some tos' ∧ tos' ≡ₚ tos) ∧
    ∀ a : nat, (∀ s, s ∈ g →
                  ¬ (s_ptr s ≤ Z.of_nat a < s_ptr s + s_len s)) →
               m' !! a = m !! a.
Proof.
  intros Hri Hok Hapart.
  destruct (shuffle_nodes_spec ri Hri [] g r m Hok Hapart)
    as (r' & m' & Hrun & Hlen & Hperm & Hout).
  exists r', m'. split; [exact Hrun|]. split; [done|]. split; [|done].
  intros fr tos Hfr. unfold graph_of in *. rewrite list_lookup_fmap in *.
  destruct (g !! fr) as [s|] eqn:Hs; [|done]. simpl in *. injection Hfr as <-.
  exists (cells m' s). split; [done|]. apply Hperm. by eapply list_elem_of_lookup_2.
Qed.

Lemma ShuffleArcLists_permutes_arc_lists_witness :
  ∃ (r' : Z) m',
    ShuffleArcLists (λ n r, (r mod n, r + 1))
      [mkSlice 0 3; mkSlice 3 2] 1 [1; 0; 1; 0; 0] = Ret (r', m') ∧
    length m' = 5%nat.
Proof.
  destruct (ShuffleArcLists_permutes_arc_lists (λ n r, (r mod n, r + 1))
              [mkSlice 0 3; mkSlice 3 2] 1 [1; 0; 1; 0; 0])
    as (r' & m' & Hrun & Hlen & _).
  - intros n r Hn. simpl. apply Z.mod_pos_bound. lia.
  - intros s Hs. repeat (apply elem_of_cons in Hs as [->|Hs]);
      [unfold slice_ok, len; simpl; lia..|by apply elem_of_nil in Hs].
  - intros i j s1 s2 a Hne Hi Hj.
    destruct i as [|[|i]]; destruct j as [|[|j]]; try done;
      simpl in Hi, Hj; injection Hi as <-; injection Hj as <-; simpl; lia.
  - exists r', m'. exact (conj Hrun Hlen).
Defined.

End ShuffleFacts.

(** ** The conditional statements above, on small graphs *)

Lemma BoundsOk_reports_first_arc_out_of_bounds_witness :
  ∃ fr to l1 l2, ReadOnly.BoundsOk [[1]; [5; 0]] = (false, fr, to) ∧
    arcsU [[1]; [5; 0]] = l1 ++ (fr, to) :: l2 ∧
    (∀ u v, (u, v) ∈ l1 → 0 ≤ v < len [[1]; [5; 0]]) ∧
    ¬ (0 ≤ to < len [[1]; [5; 0]]).
Proof.
  apply (proj2 (BoundsOk_reports_first_arc_out_of_bounds [[1]; [5; 0]])).
  intros Hb. assert (0 ≤ 5 < len [[1]; [5; 0]]) as H5.
  { apply (Hb [5; 0]); [right; left|left]. }
  unfold len in H5. simpl in H5. lia.
Defined.

Lemma HasArc_least_index_witness :
  (7 ∉ [3; 4; 3] ∧ ReadOnly.HasArc [[1]; [3; 4; 3]] 1 7 = Ret (false, -1)) ∨
  ∃ k : nat, ReadOnly.HasArc [[1]; [3; 4; 3]] 1 7 = Ret (true, Z.of_nat k) ∧
    [3; 4; 3] !! k = Some 7 ∧ ∀ j : nat, (j < k)%nat → [3; 4; 3] !! j ≠ Some 7.
Proof.
  apply (proj2 (HasArc_least_index [[1]; [3; 4; 3]] 1 7) [3; 4; 3]);
    [lia|reflexivity].
Defined.

Lemma InDegree_counts_incoming_arcs_witness :
  ∃ ind, Directed.InDegree [[mkHalf 1 0; mkHalf 2 0]; [mkHalf 2 0]; []] = Ret ind ∧
    length ind = 3%nat.
Proof.
  destruct (proj1 (InDegree_counts_incoming_arcs
                     [[mkHalf 1 0; mkHalf 2 0]; [mkHalf 2 0]; []]))
    as (ind & Hrun & Hlen & _).
  - apply BoundsOkb_spec. reflexivity.
  - exists ind. exact (conj Hrun Hlen).
Defined.

Lemma IsTree_iff_reachable_part_is_tree_witness :
  ∃ b, Directed.IsTree [[mkHalf 1 0; mkHalf 2 0]; []; [mkHalf 3 0]; []] 0 = Ret b ∧
    (b = true ↔ is_tree [[mkHalf 1 0; mkHalf 2 0]; []; [mkHalf 3 0]; []] 0).
Proof.
  apply (proj2 (IsTree_iff_reachable_part_is_tree
                  [[mkHalf 1 0; mkHalf 2 0]; []; [mkHalf 3 0]; []] 0)).
  - apply BoundsOkb_spec. reflexivity.
  - unfold len. simpl. lia.
Defined.

(** ** What [TopologicalKahn] reports *)

Section KahnCycleFacts.
Import Ordering.

Lemma TopologicalKahn_spec g tr :
  BoundsOk g → IsTranspose g tr →
  ∃ ord cyc, TopologicalKahn g tr = Ret (ord, cyc) ∧
    (∀ w, tc (arc g) w w → w ∈ cyc) ∧
    (Acyclic g → cyc = [] ∧ ord ≡ₚ node_range (length g)) ∧
    (cyc ≠ [] → ord = []).
Proof.
  intros Hb Htr.
  destruct (kahn_run_spec g tr Hb Htr) as (L & rem & Hrun & Hinv).
  destruct (kahn_cycle_spec g rem 0 rem [] Hb (kahn_len _ _ _ _ _ Hinv))
    as (cyc & Hcyc & Hmem); [done..|].
  assert (∀ c, c ∈ cyc ↔ kahn_live_node g rem c) as Hmem'.
  { intros c. rewrite Hmem. split.
    - by intros [?%elem_of_nil|[_ ?]].
    - intros Hl. right. split; [apply Hl|done]. }
  pose proof (kahn_nodup _ _ _ _ _ Hinv) as Hnd. rewrite app_nil_r in Hnd.
  pose proof (kahn_order _ _ _ _ _ Hinv) as Hord.
  assert (∀ w, tc (arc g) w w → ∃ r, rem !! Z.to_nat w = Some r ∧ 0 < r) as Hpos.
  { intros w Hw. destruct (tc_cycle_step g w Hw) as (w' & Hww' & _).
    destruct (arc_bounds g w w' Hb Hww') as [Hwr _].
    destruct (kahn_final_rem g L rem w Hinv Hwr) as (r & Hr & Hr0 & Hz & _).
    exists r. split; [done|].
    assert (r ≠ 0); [|lia]. intros Hr1. apply Hz in Hr1.
    by apply (kahn_cycle_node_out g L w). }
  assert (∀ w, tc (arc g) w w → w ∈ cyc) as Hcycle.
  { intros w Hw. apply Hmem'. destruct (tc_cycle_step g w Hw) as (w' & Hww' & Hw').
    split; [|split].
    - by apply (arc_bounds g w w').
    - by apply Hpos.
    - destruct (Hpos w' Hw') as (r & Hr & Hp). by exists w', r. }
  assert (Acyclic g → cyc = [] ∧ L ≡ₚ node_range (length g)) as Hacyclic.
  { intros Hac.
    assert (∀ v, 0 ≤ v < len g → v ∈ L) as Hall.
    { intros v Hv. destruct (decide (v ∈ L)) as [|Hout]; [done|].
      destruct Hac. apply (pred_closed_Cyclic g (λ w, 0 ≤ w < len g ∧ w ∉ L)).
      - by intros w [? _].
      - intros w [Hw HwL].
        destruct (kahn_final_rem g L rem w Hinv Hw) as (r & _ & _ & Hz & Hpred).
        destruct Hpred as (u & Huw & Hu); [by rewrite <- Hz|].
        exists u. split; [|done]. split; [|done]. by apply (arc_bounds g u w).
      - by exists v. }
    split.
    - destruct cyc as [|c cyc]; [done|].
      assert (kahn_live_node g rem c) as (Hc & (r & Hr & Hrpos) & _)
        by (apply Hmem'; left).
      destruct (kahn_final_rem g L rem c Hinv Hc) as (r' & Hr' & _ & Hz & _).
      rewrite Hr in Hr'. injection Hr' as <-.
      apply Hz in Hall; [lia|done].
    - apply NoDup_nodes_Permutation; [done|]. intros v. split.
      + intros Hv. pose proof (kahn_range _ _ _ _ _ Hinv v) as Hr.
        rewrite app_nil_r in Hr. specialize (Hr Hv). unfold len in Hr. lia.
      + intros Hv. apply Hall. unfold len. lia. }
  unfold TopologicalKahn. rewrite Hrun. cbn [bindR]. rewrite Hcyc. cbn [bindR].
  destruct (Z.ltb_spec 0 (len cyc)) as [Hlt|Hle].
  - exists [], cyc. split_and!; [done..| |done].
    intros Hac. destruct (Hacyclic Hac) as [-> _]. unfold len in Hlt. simpl in Hlt. lia.
  - assert (cyc = []) as ->.
    { destruct cyc; [done|]. unfold len in Hle. simpl in Hle. lia. }
    exists L, []. split_and!; [done..| |done].
    intros Hac. by destruct (Hacyclic Hac).
Qed.

(** X19. For a graph whose arcs stay within bounds and its transpose,
    the cycle result of [TopologicalKahn] holds every node that lies on
    a cycle of the graph; it is non-empty exactly when the graph has a
    cycle, and then the ordering is empty. *)
Theorem TopologicalKahn_reports_every_cycle_node g tr :
  BoundsOk g → IsTranspose g tr →
  ∃ ord cyc, TopologicalKahn g tr = Ret (ord, cyc) ∧
    (∀ w, tc (arc g) w w → w ∈ cyc) ∧
    (cyc ≠ [] ↔ Cyclic g) ∧
    (cyc ≠ [] → ord = []).
Proof.
  intros Hb Htr.
  destruct (TopologicalKahn_spec g tr Hb Htr)
    as (ord & cyc & Hrun & Hcycle & Hac & Hord).
  exists ord, cyc. split_and!; [done..| |done]. split.
  - intros Hne.
    destruct (Topological_spec g Hb) as (o & c & Htop & [(-> & _)|[_ Hc]]).
    + destruct Hne. apply Hac. by apply (Topological_nil_cycle_Acyclic g o).
    + by eapply is_cycle_Cyclic.
  - intros [u Hu] ->. by apply Hcycle, elem_of_nil in Hu.
Qed.

Lemma TopologicalKahn_reports_every_cycle_node_witness :
  ∃ ord cyc,
    TopologicalKahn (unlabeled [[2]; [0]; [1]; [0]]) [[1; 3]; [2]; [0]; []]
    = Ret (ord, cyc) ∧
    (∀ w, tc (arc (unlabeled [[2]; [0]; [1]; [0]])) w w → w ∈ cyc) ∧
    (cyc ≠ [] ↔ Cyclic (unlabeled [[2]; [0]; [1]; [0]])) ∧
    (cyc ≠ [] → ord = []).
Proof.
  apply (TopologicalKahn_reports_every_cycle_node
           (unlabeled [[2]; [0]; [1]; [0]]) [[1; 3]; [2]; [0]; []]).
  - apply BoundsOkb_spec. reflexivity.
  - split; [reflexivity|]. unfold arcsU, arcs. simpl.
    apply NoDup_Permutation.
    + repeat (apply NoDup_cons; split; [set_solver|]). apply NoDup_nil_2.
    + repeat (apply NoDup_cons; split; [set_solver|]). apply NoDup_nil_2.
    + intros x. set_solver.
Defined.

(** X20. [TopologicalKahn], called with the transpose, and
    [Topological] agree on a graph whose arcs stay within bounds: one
    returns a cycle exactly when the other does, and otherwise both
    return an ordering that lists every node once. *)
Theorem TopologicalKahn_agrees_with_Topological g tr :
  BoundsOk g → IsTranspose g tr →
  ∃ ord cyc ord' cyc',
    Topological g = Ret (ord, cyc) ∧
    TopologicalKahn g tr = Ret (ord', cyc') ∧
    (cyc = [] ↔ cyc' = []) ∧ ord ≡ₚ ord'.
Proof.
  intros Hb Htr.
  destruct (TopologicalKahn_spec g tr Hb Htr)
    as (ord' & cyc' & Hrun & Hcycle & Hac & Hord).
  destruct (Topological_spec g Hb)
    as (ord & cyc & Htop & [(-> & Hnd & Hall & _)|[-> Hc]]).
  - exists ord, [], ord', cyc'. split_and!; [done..| |].
    + destruct Hac as [-> _]; [|done].
      by apply (Topological_nil_cycle_Acyclic g ord).
    + destruct Hac as [_ ->]; [by apply (Topological_nil_cycle_Acyclic g ord)|].
      apply NoDup_nodes_Permutation; [done|]. intros v. rewrite Hall.
      unfold len. lia.
  - exists [], cyc, ord', cyc'.
    assert (cyc' ≠ []) as Hne.
    { destruct (is_cycle_Cyclic g cyc Hc) as [u Hu]. intros ->.
      by apply Hcycle, elem_of_nil in Hu. }
    split_and!; [done..| |by rewrite Hord].
    destruct Hc as (u & z & Hh & _). split; [by intros ->|done].
Qed.

Lemma TopologicalKahn_agrees_with_Topological_witness :
  ∃ ord cyc ord' cyc',
    Topological (unlabeled [[2]; [0]; [1]; [0]]) = Ret (ord, cyc) ∧
    TopologicalKahn (unlabeled [[2]; [0]; [1]; [0]]) [[1; 3]; [2]; [0]; []]
    = Ret (ord', cyc') ∧
    (cyc = [] ↔ cyc' = []) ∧ ord ≡ₚ ord'.
Proof.
  apply (TopologicalKahn_agrees_with_Topological
           (unlabeled [[2]; [0]; [1]; [0]]) [[1; 3]; [2]; [0]; []]).
  - apply BoundsOkb_spec. reflexivity.
  - split; [reflexivity|]. unfold arcsU, arcs. simpl.
    apply NoDup_Permutation.
    + repeat (apply NoDup_cons; split; [set_solver|]). apply NoDup_nil_2.
    + repeat (apply NoDup_cons; split; [set_solver|]). apply NoDup_nil_2.
    + intros x. set_solver.
Defined.

End KahnCycleFacts.
